(** * GeoIntel decision engine: scoring, weights, TTL cache and the analyze route

    A shallow embedding of
      - [Server/services/scoringService.js]  (normalisation, the three scores,
        dynamic weights, the composite score),
      - [Server/services/cacheService.js]    (TTL store, in-flight coalescing),
      - [Server/routes/analyze.js]           (validation, de-duplication,
        fan-out over the cache),
    followed by the properties established about them.

    Conventions of the embedding.
      - A JavaScript number is [num]: [NaN] or a finite value carried as an
        exact rational.  Infinities and the rounding of doubles are not
        represented; the embedded code only divides by the constant-bounds
        span of [normalize] and by sums of weights, and the one division
        whose divisor can vanish ([normalize] with [min = max]) is [0/0],
        which is [NaN] in JavaScript as it is here.  The general statements
        made over this model are those that hold of the doubles too: ranges,
        orderings, clamping, and roundings to the nearest whole number up to
        the direction taken at an exact half.  Where a statement ranges over
        arbitrary values and bounds these are doubles ([binary64]) and the
        span of the bounds is finite ([finite_span]).
      - [Math.round x] is [floor (x + 1/2)], as ECMAScript defines it.
      - A field read from a JSON record is a [jsval]: [undefined], [null] or a
        number.
      - Objects that are shared by reference (the country datasets held by the
        cache) live in a heap indexed by locations.
      - A string is the sequence of its code units, each below 256 (the
        characters of Latin-1); [toLowerCase] and [trim] are the built-ins
        restricted to that range.
      - [Binary64] repeats the scoring functions over IEEE 754 doubles; it is
        used to evaluate the code at given datasets with the rounding errors
        of JavaScript, next to the exact model that carries the general
        statements. *)

From Stdlib Require Import ZArith QArith Qround Qabs Lia Lqa String Ascii List.
From Stdlib Require Import PrimFloat FloatOps SpecFloat Uint63 Sorted.
From stdpp Require Import base gmap strings list pretty.
Import ListNotations.

Local Open Scope Q_scope.

(* ===================================================================== *)
(** ** JavaScript numbers and values *)
(* ===================================================================== *)

Inductive num : Type :=
  | NaN
  | Fin (q : Q).

Inductive jsval : Type :=
  | Undefined
  | Null
  | Num (n : num).

Definition num_lift2 (f : Q -> Q -> Q) (a b : num) : num :=
  match a, b with
  | Fin x, Fin y => Fin (f x y)
  | _, _ => NaN
  end.

Definition nadd : num -> num -> num := num_lift2 Qplus.
Definition nsub : num -> num -> num := num_lift2 Qminus.
Definition nmul : num -> num -> num := num_lift2 Qmult.

(** [x / y]; a vanishing divisor yields [NaN] (exact for [0/0]). *)
Definition ndiv (a b : num) : num :=
  match a, b with
  | Fin x, Fin y => if Qeq_bool y 0 then NaN else Fin (x / y)
  | _, _ => NaN
  end.

Infix "+#" := nadd (at level 50, left associativity).
Infix "-#" := nsub (at level 50, left associativity).
Infix "*#" := nmul (at level 40, left associativity).
Infix "/#" := ndiv (at level 40, left associativity).

(** Comparisons; any comparison with [NaN] is false. *)
Definition num_cmp (f : Q -> Q -> bool) (a b : num) : bool :=
  match a, b with
  | Fin x, Fin y => f x y
  | _, _ => false
  end.

Definition Qlt_bool (x y : Q) : bool := negb (Qle_bool y x).

Definition nge : num -> num -> bool := num_cmp (fun x y => Qle_bool y x).
Definition nlt : num -> num -> bool := num_cmp Qlt_bool.
Definition ngt : num -> num -> bool := num_cmp (fun x y => Qlt_bool y x).
Definition nseq : num -> num -> bool := num_cmp Qeq_bool.   (* [===] on numbers *)

Definition Math_max (a b : num) : num :=
  num_lift2 (fun x y => if Qle_bool x y then y else x) a b.

Definition Math_min (a b : num) : num :=
  num_lift2 (fun x y => if Qle_bool x y then x else y) a b.

Definition Math_abs (a : num) : num :=
  match a with
  | Fin x => Fin (Qabs x)
  | NaN => NaN
  end.

Definition Math_round (a : num) : num :=
  match a with
  | Fin x => Fin (inject_Z (Qfloor (x + (1 # 2))))
  | NaN => NaN
  end.

(** [parseFloat(x.toFixed(3))]: the multiple of 1/1000 nearest to [x],
    the larger in magnitude on a tie. *)
Definition toFixed3 (a : num) : num :=
  match a with
  | Fin x =>
      if Qlt_bool x 0
      then Fin (- (inject_Z (Qfloor ((- x) * 1000 + (1 # 2))) / 1000))
      else Fin (inject_Z (Qfloor (x * 1000 + (1 # 2))) / 1000)
  | NaN => NaN
  end.

(** Coercion of a value to a number, as the arithmetic operators do. *)
Definition ToNumber (v : jsval) : num :=
  match v with
  | Undefined => NaN
  | Null => Fin 0
  | Num n => n
  end.

Definition isNaN (v : jsval) : bool :=
  match ToNumber v with
  | NaN => true
  | Fin _ => false
  end.

(** [!v] *)
Definition falsy (v : jsval) : bool :=
  match v with
  | Undefined | Null | Num NaN => true
  | Num (Fin q) => Qeq_bool q 0
  end.

Definition is_undefined (v : jsval) : bool :=
  match v with Undefined => true | _ => false end.

Definition is_null (v : jsval) : bool :=
  match v with Null => true | _ => false end.

(** [o?.f] on a record that may be [null]. *)
Definition opt_get {A : Type} (o : option A) (f : A -> jsval) : jsval :=
  match o with
  | Some x => f x
  | None => Undefined
  end.

Notation "o ?. f" := (opt_get o f) (at level 9, f at level 9, format "o ?. f").

(* ===================================================================== *)
(** ** Strings *)
(* ===================================================================== *)

(** A string is the sequence of its code units, each below 256: the
    characters of Latin-1, a code unit being its own code point (so
    [Ö] is the one unit 214, not the two bytes of its UTF-8 encoding).  In
    that range the upper-case letters are [A] to [Z] (65 to 90) and the
    letters 192 to 222 except the multiplication sign 215; each has its
    lower-case form 32 above it, and every other unit is its own lower-case
    form. *)
Definition lower_code_unit (c : ascii) : ascii :=
  let n := nat_of_ascii c in
  if ((Nat.leb 65 n && Nat.leb n 90) ||
      (Nat.leb 192 n && Nat.leb n 222 && negb (Nat.eqb n 215)))%bool
  then ascii_of_nat (n + 32) else c.

(** [s.toLowerCase()] *)
Fixpoint toLowerCase (s : string) : string :=
  match s with
  | EmptyString => EmptyString
  | String c r => String (lower_code_unit c) (toLowerCase r)
  end.

(* ===================================================================== *)
(** ** scoringService.js *)
(* ===================================================================== *)

(** *** Normalisation *)

Definition normalize (value : jsval) (min max : num)
    (higherIsBetter : bool) (defaultScore : num) : num :=
  if (is_null value || is_undefined value || isNaN value)%bool then defaultScore
  else
    let clamped := Math_max min (Math_min max (ToNumber value)) in
    let ratio := (clamped -# min) /# (max -# min) in
    let scaled := if higherIsBetter then ratio else Fin 1 -# ratio in
    Math_round (scaled *# Fin 100).

(** *** Weather severity helpers *)

Definition weatherSeverityPenalty (weatherId : jsval) : num :=
  if falsy weatherId then Fin 0 else
  let w := ToNumber weatherId in
  if (nge w (Fin 200) && nlt w (Fin 300))%bool then Fin 70 else
  if (nge w (Fin 300) && nlt w (Fin 400))%bool then Fin 20 else
  if (nge w (Fin 500) && nlt w (Fin 600))%bool then Fin 40 else
  if (nge w (Fin 600) && nlt w (Fin 700))%bool then Fin 60 else
  if (nge w (Fin 700) && nlt w (Fin 800))%bool then Fin 50 else
  if nseq w (Fin 800) then Fin 0 else
  if (ngt w (Fin 800) && nlt w (Fin 810))%bool then Fin 10 else
  Fin 0.

Definition tempComfortScore (tempCelsius : jsval) : num :=
  if is_null tempCelsius then Fin 50 else
  let ideal := Fin 21.5 in
  let deviation := Math_abs (ToNumber tempCelsius -# ideal) in
  normalize (Num deviation) (Fin 0) (Fin 40) false (Fin 50).

(** *** The country dataset *)

Record Weather := {
  temp_celsius : jsval;
  temp_min : jsval;
  temp_max : jsval;
  humidity_pct : jsval;
  wind_speed_ms : jsval;
  weather_id : jsval
}.

(** The air-quality record; [aqi_index] is its member [aqi]. *)
Record AqiData := { aqi_index : jsval }.

(** The advisory record; [advisory_score] is its member [score]. *)
Record Advisory := { advisory_score : jsval }.

Record WorldBank := {
  lifeExpectancy : jsval;
  healthcareExpenditure : jsval
}.

Record Profile := {
  name : string;
  capital : option string;
  population : jsval
}.

(** What [fetchAllDataForCountry] resolves to, with the two members that
    [scoreCountry] attaches. *)
Record CountryData := {
  found : bool;
  country : string;
  error : option string;
  profile : option Profile;
  worldBank : WorldBank;
  weather : option Weather;
  aqi : option AqiData;
  advisory : option Advisory;
  _riskTolerance : option string;
  _duration : option string
}.

Record ScoreBreakdown := {
  score : num;
  components : list (string * num)
}.

(** *** Score 1: travel risk *)

Definition computeTravelRiskScore (data : CountryData) : ScoreBreakdown :=
  let weather := weather data in
  let aqi := aqi data in
  let advisory := advisory data in
  let tempScore :=
    if negb (is_undefined weather?.temp_celsius)
    then tempComfortScore weather?.temp_celsius
    else Fin 50 in
  let aqiScore := normalize aqi?.aqi_index (Fin 0) (Fin 300) false (Fin 50) in
  let advisoryScore := normalize advisory?.advisory_score (Fin 1) (Fin 5) false (Fin 50) in
  let weatherEvtScore := Fin 100 -# weatherSeverityPenalty weather?.weather_id in
  let raw :=
    tempScore *# Fin 0.20 +#
    aqiScore *# Fin 0.30 +#
    advisoryScore *# Fin 0.35 +#
    weatherEvtScore *# Fin 0.15 in
  let score := Math_round (Math_max (Fin 0) (Math_min (Fin 100) raw)) in
  {| score := score;
     components :=
       [ ("temperature_comfort"%string, tempScore);
         ("air_quality"%string, aqiScore);
         ("travel_advisory"%string, advisoryScore);
         ("weather_event"%string, weatherEvtScore) ] |}.

(** *** Score 3: environmental stability *)

Definition computeEnvironmentalStabilityScore (data : CountryData) : ScoreBreakdown :=
  let weather := weather data in
  let aqi := aqi data in
  let aqiEnvScore := normalize aqi?.aqi_index (Fin 0) (Fin 300) false (Fin 50) in
  let volatilityScore :=
    if (negb (is_undefined weather?.temp_max) && negb (is_undefined weather?.temp_min))%bool
    then
      let spread := ToNumber weather?.temp_max -# ToNumber weather?.temp_min in
      normalize (Num spread) (Fin 0) (Fin 20) false (Fin 50)
    else Fin 50 in
  let windScore := normalize weather?.wind_speed_ms (Fin 0) (Fin 20) false (Fin 50) in
  let humidityScore :=
    if negb (is_undefined weather?.humidity_pct)
    then
      let humDev := Math_abs (ToNumber weather?.humidity_pct -# Fin 45) in
      normalize (Num humDev) (Fin 0) (Fin 55) false (Fin 50)
    else Fin 50 in
  let raw :=
    aqiEnvScore *# Fin 0.35 +#
    volatilityScore *# Fin 0.25 +#
    windScore *# Fin 0.15 +#
    humidityScore *# Fin 0.25 in
  let score := Math_round (Math_max (Fin 0) (Math_min (Fin 100) raw)) in
  {| score := score;
     components :=
       [ ("air_quality_stability"%string, aqiEnvScore);
         ("temperature_volatility"%string, volatilityScore);
         ("wind_comfort"%string, windScore);
         ("humidity_comfort"%string, humidityScore) ] |}.

(** *** Dynamic weight profiles *)

Record Weights := {
  w_travel_risk_score : num;
  w_health_infrastructure_score : num;
  w_environmental_stability_score : num
}.

Definition renormalise (t : num * num * num) : num * num * num :=
  let '(travelRisk, healthInfra, envStab) := t in
  let sum := travelRisk +# healthInfra +# envStab in
  (travelRisk /# sum, healthInfra /# sum, envStab /# sum).

(** The three local variables of [getDynamicWeights] just before its
    [return]: base weights, risk-tolerance phase, duration phase. *)
Definition adjustedWeights (riskTolerance duration : string) : num * num * num :=
  let rt := toLowerCase riskTolerance in
  let d := toLowerCase duration in
  let travelRisk := Fin 0.40 in
  let healthInfra := Fin 0.35 in
  let envStab := Fin 0.25 in
  let '(travelRisk, healthInfra, envStab) :=
    if String.eqb rt "low" then
      renormalise (travelRisk +# Fin 0.10, healthInfra -# Fin 0.10, envStab +# Fin 0.05)
    else if String.eqb rt "high" then
      renormalise (travelRisk -# Fin 0.10, healthInfra -# Fin 0.05, envStab +# Fin 0.10)
    else (travelRisk, healthInfra, envStab) in
  if String.eqb d "long" then
    renormalise (travelRisk -# Fin 0.05, healthInfra +# Fin 0.10, envStab -# Fin 0.05)
  else
    renormalise (travelRisk, healthInfra -# Fin 0.08, envStab +# Fin 0.08).

Definition getDynamicWeights (riskTolerance duration : string) : Weights :=
  let '(travelRisk, healthInfra, envStab) := adjustedWeights riskTolerance duration in
  {| w_travel_risk_score := toFixed3 travelRisk;
     w_health_infrastructure_score := toFixed3 healthInfra;
     w_environmental_stability_score := toFixed3 envStab |}.

(** *** Score 2: health infrastructure, and the master scoring function *)

Record ScoreResult := {
  travel_risk_score : ScoreBreakdown;
  health_infrastructure_score : ScoreBreakdown;
  environmental_stability_score : ScoreBreakdown;
  composite_score : num;
  dynamic_weights : Weights
}.

(** Country datasets are objects shared by reference. *)
Definition loc := nat.
Abbreviation heap := (gmap loc CountryData).

Definition attachProfile (d : CountryData) (riskTolerance duration : string) : CountryData :=
  {| found := found d; country := country d; error := error d;
     profile := profile d; worldBank := worldBank d; weather := weather d;
     aqi := aqi d; advisory := advisory d;
     _riskTolerance := Some riskTolerance;
     _duration := Some duration |}.

Section Scoring.

(** [Math.log10] is transcendental and has no exact rational model; the
    scoring functions are parameterised by it. *)
Variable Math_log10 : num -> num.

Definition computeHealthInfrastructureScore (data : CountryData) : ScoreBreakdown :=
  let worldBank := worldBank data in
  let profile := profile data in
  let healthExpScore :=
    normalize (healthcareExpenditure worldBank) (Fin 1) (Fin 15) true (Fin 50) in
  let lifeExpScore :=
    normalize (lifeExpectancy worldBank) (Fin 45) (Fin 90) true (Fin 50) in
  let popPressureScore :=
    if negb (falsy profile?.population)
    then normalize (Num (Math_log10 (ToNumber profile?.population)))
           (Math_log10 (Fin 1e5)) (Math_log10 (Fin 2e9)) false (Fin 50)
    else Fin 50 in
  let raw :=
    healthExpScore *# Fin 0.40 +#
    lifeExpScore *# Fin 0.45 +#
    popPressureScore *# Fin 0.15 in
  let score := Math_round (Math_max (Fin 0) (Math_min (Fin 100) raw)) in
  {| score := score;
     components :=
       [ ("healthcare_expenditure"%string, healthExpScore);
         ("life_expectancy"%string, lifeExpScore);
         ("population_pressure"%string, popPressureScore) ] |}.

(** The composite of [scoreCountry], from the three scores and the weights
    it is handed. *)
Definition compositeOf (travelRisk healthInfra envStab : ScoreBreakdown)
    (weights : Weights) : num :=
  let compositeScore :=
    score travelRisk *# w_travel_risk_score weights +#
    score healthInfra *# w_health_infrastructure_score weights +#
    score envStab *# w_environmental_stability_score weights in
  Math_round (Math_max (Fin 0) (Math_min (Fin 100) compositeScore)).

(** [scoreCountry] receives a reference; it reads the dataset, writes the
    two profile members into it and returns the scores.  The reasoning
    sentences and the log line it also produces only read their arguments
    and are left out.  [None]: dangling reference. *)
Definition scoreCountry (h : heap) (countryData : loc)
    (riskTolerance duration : string) : option (ScoreResult * heap) :=
  match h !! countryData with
  | None => None
  | Some d =>
      let travelRisk := computeTravelRiskScore d in
      let healthInfra := computeHealthInfrastructureScore d in
      let envStab := computeEnvironmentalStabilityScore d in
      let weights := getDynamicWeights riskTolerance duration in
      let finalScore := compositeOf travelRisk healthInfra envStab weights in
      let h' := <[countryData := attachProfile d riskTolerance duration]> h in
      Some ({| travel_risk_score := travelRisk;
               health_infrastructure_score := healthInfra;
               environmental_stability_score := envStab;
               composite_score := finalScore;
               dynamic_weights := weights |}, h')
  end.

End Scoring.

(* ===================================================================== *)
(** ** scoringService.js in IEEE 754 binary64 *)
(* ===================================================================== *)

(** The same functions over the numbers JavaScript computes with.  The
    exact model above carries the general statements; this one serves to
    evaluate the code at given datasets, rounding errors included.  Only the
    scores are returned, not the component tables. *)

Module Binary64.

#[local] Set Warnings "-inexact-float".
Local Open Scope float_scope.

Definition of_Z (z : Z) : float :=
  if (z <? 0)%Z then - PrimFloat.of_uint63 (Uint63.of_Z (- z))
  else PrimFloat.of_uint63 (Uint63.of_Z z).

(** The double nearest to a rational whose numerator and denominator are
    below 2^53: the value a JSON number of that magnitude is parsed to. *)
Definition of_Q (q : Q) : float := of_Z (Qnum q) / of_Z (Z.pos (Qden q)).

Definition of_num (n : num) : float :=
  match n with
  | NaN => nan
  | Fin q => of_Q q
  end.

Definition ToNumber (v : jsval) : float :=
  match v with
  | Undefined => nan
  | Null => 0
  | Num n => of_num n
  end.

(** [floor (k * x + 1/2)], computed exactly from the bits of [x]; [None]
    when [x] is not finite. *)
Definition round_half_up (k : Z) (x : float) : option Z :=
  match Prim2SF x with
  | S754_zero _ => Some 0%Z
  | S754_finite s m e =>
      let n := (if s then - Z.pos m else Z.pos m)%Z in
      if (0 <=? e)%Z then Some (k * n * 2 ^ e)%Z
      else Some ((2 * k * n + 2 ^ (- e)) / 2 ^ (1 - e))%Z
  | S754_infinity _ | S754_nan => None
  end.

Definition Math_round (x : float) : float :=
  match round_half_up 1 x with
  | Some z => of_Z z
  | None => x
  end.

(** [parseFloat(x.toFixed(3))], for [|x| < 1e21]. *)
Definition toFixed3 (x : float) : float :=
  match round_half_up 1000 (abs x) with
  | Some n => if x <? 0 then - (of_Z n / 1000) else of_Z n / 1000
  | None => x
  end.

Definition Math_max (a b : float) : float :=
  if (is_nan a || is_nan b)%bool then nan else if a <? b then b else a.

Definition Math_min (a b : float) : float :=
  if (is_nan a || is_nan b)%bool then nan else if b <? a then b else a.

Definition isNaN (v : jsval) : bool := is_nan (ToNumber v).

Definition normalize (value : jsval) (min max : float)
    (higherIsBetter : bool) (defaultScore : float) : float :=
  if (is_null value || is_undefined value || isNaN value)%bool then defaultScore
  else
    let clamped := Math_max min (Math_min max (ToNumber value)) in
    let ratio := (clamped - min) / (max - min) in
    let scaled := if higherIsBetter then ratio else 1 - ratio in
    Math_round (scaled * 100).

(** [normalize] applied to a number already computed. *)
Definition normalize_number (value min max : float)
    (higherIsBetter : bool) (defaultScore : float) : float :=
  if is_nan value then defaultScore
  else
    let clamped := Math_max min (Math_min max value) in
    let ratio := (clamped - min) / (max - min) in
    let scaled := if higherIsBetter then ratio else 1 - ratio in
    Math_round (scaled * 100).

Definition weatherSeverityPenalty (weatherId : jsval) : float :=
  if falsy weatherId then 0 else
  let w := ToNumber weatherId in
  if ((200 <=? w) && (w <? 300))%bool then 70 else
  if ((300 <=? w) && (w <? 400))%bool then 20 else
  if ((500 <=? w) && (w <? 600))%bool then 40 else
  if ((600 <=? w) && (w <? 700))%bool then 60 else
  if ((700 <=? w) && (w <? 800))%bool then 50 else
  if w =? 800 then 0 else
  if ((800 <? w) && (w <? 810))%bool then 10 else
  0.

Definition tempComfortScore (tempCelsius : jsval) : float :=
  if is_null tempCelsius then 50 else
  let ideal := 21.5 in
  let deviation := abs (ToNumber tempCelsius - ideal) in
  normalize_number deviation 0 40 false 50.

Definition clamp100 (raw : float) : float :=
  Math_round (Math_max 0 (Math_min 100 raw)).

Definition computeTravelRiskScore (data : CountryData) : float :=
  let weather := weather data in
  let aqi := aqi data in
  let advisory := advisory data in
  let tempScore :=
    if negb (is_undefined weather?.temp_celsius)
    then tempComfortScore weather?.temp_celsius
    else 50 in
  let aqiScore := normalize aqi?.aqi_index 0 300 false 50 in
  let advisoryScore := normalize advisory?.advisory_score 1 5 false 50 in
  let weatherEvtScore := 100 - weatherSeverityPenalty weather?.weather_id in
  let raw :=
    tempScore * 0.20 +
    aqiScore * 0.30 +
    advisoryScore * 0.35 +
    weatherEvtScore * 0.15 in
  clamp100 raw.

Definition computeEnvironmentalStabilityScore (data : CountryData) : float :=
  let weather := weather data in
  let aqi := aqi data in
  let aqiEnvScore := normalize aqi?.aqi_index 0 300 false 50 in
  let volatilityScore :=
    if (negb (is_undefined weather?.temp_max) && negb (is_undefined weather?.temp_min))%bool
    then
      let spread := ToNumber weather?.temp_max - ToNumber weather?.temp_min in
      normalize_number spread 0 20 false 50
    else 50 in
  let windScore := normalize weather?.wind_speed_ms 0 20 false 50 in
  let humidityScore :=
    if negb (is_undefined weather?.humidity_pct)
    then
      let humDev := abs (ToNumber weather?.humidity_pct - 45) in
      normalize_number humDev 0 55 false 50
    else 50 in
  let raw :=
    aqiEnvScore * 0.35 +
    volatilityScore * 0.25 +
    windScore * 0.15 +
    humidityScore * 0.25 in
  clamp100 raw.

Definition renormalise (t : float * float * float) : float * float * float :=
  let '(travelRisk, healthInfra, envStab) := t in
  let sum := travelRisk + healthInfra + envStab in
  (travelRisk / sum, healthInfra / sum, envStab / sum).

Definition adjustedWeights (riskTolerance duration : string) : float * float * float :=
  let rt := toLowerCase riskTolerance in
  let d := toLowerCase duration in
  let travelRisk := 0.40 in
  let healthInfra := 0.35 in
  let envStab := 0.25 in
  let '(travelRisk, healthInfra, envStab) :=
    if String.eqb rt "low" then
      renormalise (travelRisk + 0.10, healthInfra - 0.10, envStab + 0.05)
    else if String.eqb rt "high" then
      renormalise (travelRisk - 0.10, healthInfra - 0.05, envStab + 0.10)
    else (travelRisk, healthInfra, envStab) in
  if String.eqb d "long" then
    renormalise (travelRisk - 0.05, healthInfra + 0.10, envStab - 0.05)
  else
    renormalise (travelRisk, healthInfra - 0.08, envStab + 0.08).

Definition getDynamicWeights (riskTolerance duration : string) : float * float * float :=
  let '(travelRisk, healthInfra, envStab) := adjustedWeights riskTolerance duration in
  (toFixed3 travelRisk, toFixed3 healthInfra, toFixed3 envStab).

Definition compositeOf (travelRisk healthInfra envStab : float)
    (weights : float * float * float) : float :=
  let '(w1, w2, w3) := weights in
  clamp100 (travelRisk * w1 + healthInfra * w2 + envStab * w3).

Section Scoring.

Variable Math_log10 : float -> float.

Definition computeHealthInfrastructureScore (data : CountryData) : float :=
  let worldBank := worldBank data in
  let profile := profile data in
  let healthExpScore := normalize (healthcareExpenditure worldBank) 1 15 true 50 in
  let lifeExpScore := normalize (lifeExpectancy worldBank) 45 90 true 50 in
  let popPressureScore :=
    if negb (falsy profile?.population)
    then normalize_number (Math_log10 (ToNumber profile?.population))
           (Math_log10 1e5) (Math_log10 2e9) false 50
    else 50 in
  let raw :=
    healthExpScore * 0.40 +
    lifeExpScore * 0.45 +
    popPressureScore * 0.15 in
  clamp100 raw.

(** The three scores and the composite of [scoreCountry]. *)
Definition scoreCountry (countryData : CountryData) (riskTolerance duration : string)
    : float * float * float * float :=
  let travelRisk := computeTravelRiskScore countryData in
  let healthInfra := computeHealthInfrastructureScore countryData in
  let envStab := computeEnvironmentalStabilityScore countryData in
  let weights := getDynamicWeights riskTolerance duration in
  (travelRisk, healthInfra, envStab,
   compositeOf travelRisk healthInfra envStab weights).

End Scoring.

End Binary64.

(* ===================================================================== *)
(** ** cacheService.js *)
(* ===================================================================== *)

(** The module state is the pair of maps [store] and [inFlight].  A call of
    [getOrFetch] runs synchronously up to its first [await]; what it returns
    afterwards is fixed by the promise it awaits.  The service is therefore a
    deterministic machine driven by three kinds of events: the clock moves, a
    caller enters [getOrFetch], a producer's promise settles.

    A promise created by [getOrFetch] is identified by the rank of the
    producer invocation behind it, so that [invoked] is both the log of
    producer invocations and the table giving each promise the key captured
    by its callbacks. *)

Module cacheService.

Definition TTL_MS : Z := (60 * 60 * 1000)%Z.

Definition promise := nat.

Section Service.

Context {V E : Type}.

Record CacheEntry := { data : V; expiresAt : Z }.

(** [get] at clock [now]: [Some d] stands for [{ data: d, hit: true }],
    [None] for [{ data: null, hit: false }]; the second component is the
    store it leaves. *)
Definition get (now : Z) (store : gmap string CacheEntry) (key : string)
    : option V * gmap string CacheEntry :=
  match store !! key with
  | None => (None, store)
  | Some entry =>
      if (now >? expiresAt entry)%Z
      then (None, delete key store)
      else (Some (data entry), store)
  end.

Definition set (now : Z) (store : gmap string CacheEntry) (key : string) (d : V)
    : gmap string CacheEntry :=
  <[key := {| data := d; expiresAt := (now + TTL_MS)%Z |}]> store.

Record State := {
  now : Z;                                (* Date.now() *)
  store : gmap string CacheEntry;
  inFlight : gmap string promise;
  settled : gmap promise (V + E);         (* outcome of each settled fetchPromise *)
  invoked : list string                   (* producer invocations, oldest first *)
}.

(** How a call of [getOrFetch] leaves its synchronous part. *)
Inductive Reply :=
  | Hit (d : V)             (* returned [{ result: d, cacheHit: true }] *)
  | Joined (p : promise)    (* awaiting [inFlight.get(key)] *)
  | Started (p : promise).  (* invoked [fetchFn], registered and awaits it *)

Definition getOrFetch (st : State) (key : string) : Reply * State :=
  let '(cached, store1) := get (now st) (store st) key in
  match cached with
  | Some d =>
      (Hit d, {| now := now st; store := store1; inFlight := inFlight st;
                 settled := settled st; invoked := invoked st |})
  | None =>
      match inFlight st !! key with
      | Some p =>
          (Joined p, {| now := now st; store := store1; inFlight := inFlight st;
                        settled := settled st; invoked := invoked st |})
      | None =>
          let p := length (invoked st) in
          (Started p, {| now := now st; store := store1;
                         inFlight := <[key := p]> (inFlight st);
                         settled := settled st;
                         invoked := invoked st ++ [key] |})
      end
  end.

(** The producer's promise behind [p] settles: the [then] callback
    ([set]; [inFlight.delete]) on success, the [catch] callback
    ([inFlight.delete]; rethrow) on failure.  A promise settles once. *)
Definition settle (st : State) (p : promise) (r : V + E) : State :=
  match invoked st !! p, settled st !! p with
  | Some key, None =>
      {| now := now st;
         store := match r with
                  | inl d => set (now st) (store st) key d
                  | inr _ => store st
                  end;
         inFlight := delete key (inFlight st);
         settled := <[p := r]> (settled st);
         invoked := invoked st |}
  | _, _ => st
  end.

Definition tick (st : State) (dt : Z) : State :=
  {| now := (now st + dt)%Z; store := store st; inFlight := inFlight st;
     settled := settled st; invoked := invoked st |}.

(** What the promise returned by a [getOrFetch] call has settled to, if it
    has: [inl (result, cacheHit)] or [inr err]. *)
Definition outcome (st : State) (r : Reply) : option (V * bool + E) :=
  match r with
  | Hit d => Some (inl (d, true))
  | Joined p | Started p =>
      match settled st !! p with
      | Some (inl d) => Some (inl (d, false))
      | Some (inr e) => Some (inr e)
      | None => None
      end
  end.

Inductive Event :=
  | Tick (dt : Z)
  | Call (key : string)
  | Settle (p : promise) (r : V + E).

(** Runs the events in order; the replies of the calls, with their keys,
    oldest first. *)
Fixpoint exec (st : State) (evs : list Event) : list (string * Reply) * State :=
  match evs with
  | [] => ([], st)
  | Tick dt :: evs' => exec (tick st dt) evs'
  | Call key :: evs' =>
      let '(r, st1) := getOrFetch st key in
      let '(rs, st2) := exec st1 evs' in
      ((key, r) :: rs, st2)
  | Settle p r :: evs' => exec (settle st p r) evs'
  end.

Definition init : State :=
  {| now := 0%Z; store := ∅; inFlight := ∅; settled := ∅; invoked := [] |}.

(** [stats] *)
Definition stats (st : State) : nat * nat :=
  (size (store st), size (inFlight st)).

End Service.

Arguments CacheEntry : clear implicits.
Arguments State : clear implicits.
Arguments Event : clear implicits.
Arguments Reply : clear implicits.

End cacheService.

(* ===================================================================== *)
(** ** routes/analyze.js *)
(* ===================================================================== *)

(** Strings are sequences of 8-bit code units; the white space that
    [String.prototype.trim] strips is, in that range, the characters
    9 to 13, 32 and 160. *)
Definition is_space (c : ascii) : bool :=
  let n := nat_of_ascii c in
  ((Nat.leb 9 n && Nat.leb n 13) || Nat.eqb n 32 || Nat.eqb n 160)%bool.

Fixpoint trimStart (s : string) : string :=
  match s with
  | EmptyString => EmptyString
  | String c r => if is_space c then trimStart r else s
  end.

Fixpoint trimEnd (s : string) : string :=
  match s with
  | EmptyString => EmptyString
  | String c r =>
      match trimEnd r with
      | EmptyString => if is_space c then EmptyString else String c EmptyString
      | r' => String c r'
      end
  end.

Definition trim (s : string) : string := trimEnd (trimStart s).

(** [new Set(iterable)], kept as the list of its elements in insertion
    order; [[...set]] is that list. *)
Definition Set_add (s : list string) (x : string) : list string :=
  if bool_decide (x ∈ s) then s else s ++ [x].

Definition new_Set (l : list string) : list string := fold_left Set_add l [].

Module analyze.

Import cacheService.

(** A parsed JSON value; [JUndefined] is a member that is not there.  An
    object lists its own members, one per key. *)
#[warnings="-register-all"]
Inductive json : Type :=
  | JUndefined
  | JNull
  | JBool (b : bool)
  | JNumber (n : num)
  | JString (s : string)
  | JArray (items : list json)
  | JObject (members : list (string * json)).

(** [req.body], destructured. *)
Record Body := {
  countries : json;
  riskTolerance : json;
  duration : json
}.

Inductive Completion (A : Type) : Type :=
  | Normal (a : A)
  | Throw.              (* a TypeError is raised *)
Arguments Normal {A} a.
Arguments Throw {A}.

Definition VALID_RISK : list string := ["low"; "moderate"; "high"]%string.
Definition VALID_DURATION : list string := ["short"; "long"]%string.
Definition MAX_COUNTRIES : nat := 10.
Definition MIN_COUNTRIES : nat := 3.

(** The messages of [validateInput], in the order of the source:
    countries must be an array of at least 3 country names;
    maximum 10 countries per request;
    all entries in countries must be non-empty strings;
    riskTolerance must be one of low, moderate, high;
    duration must be one of short, long. *)
Inductive ValidationError :=
  | ErrCountriesMin
  | ErrCountriesMax
  | ErrCountriesEntries
  | ErrRiskTolerance
  | ErrDuration.

Fixpoint member (k : string) (members : list (string * json)) : json :=
  match members with
  | [] => JUndefined
  | (k', v) :: r => if String.eqb k k' then v else member k r
  end.

(** [v?.toLowerCase?.()]; [None] is [undefined].  Optional chaining stops at
    a nullish receiver and at a nullish member; any other member that is not
    a function is called and raises. *)
Definition lowered (v : json) : Completion (option string) :=
  match v with
  | JUndefined | JNull => Normal None
  | JString s => Normal (Some (toLowerCase s))
  | JBool _ | JNumber _ | JArray _ => Normal None
  | JObject members =>
      match member "toLowerCase" members with
      | JUndefined | JNull => Normal None
      | _ => Throw
      end
  end.

(** [list.includes(x)] for the result of [lowered]. *)
Definition includes (l : list string) (x : option string) : bool :=
  match x with
  | Some s => bool_decide (s ∈ l)
  | None => false
  end.

(** [typeof c !== "string" || !c.trim()] *)
Definition bad_entry (c : json) : bool :=
  match c with
  | JString s => bool_decide (trim s = EmptyString)
  | _ => true
  end.

Definition countriesErrors (countries : json) : list ValidationError :=
  match countries with
  | JArray items =>
      if Nat.ltb (length items) MIN_COUNTRIES then [ErrCountriesMin]
      else if Nat.ltb MAX_COUNTRIES (length items) then [ErrCountriesMax]
      else if existsb bad_entry items then [ErrCountriesEntries]
      else []
  | _ => [ErrCountriesMin]
  end.

Definition validateInput (body : Body) : Completion (list ValidationError) :=
  let errors := countriesErrors (countries body) in
  match lowered (riskTolerance body) with
  | Throw => Throw
  | Normal rt =>
      let errors := if includes VALID_RISK rt then errors else errors ++ [ErrRiskTolerance] in
      match lowered (duration body) with
      | Throw => Throw
      | Normal d =>
          let errors := if includes VALID_DURATION d then errors else errors ++ [ErrDuration] in
          Normal errors
      end
  end.

(** [countries.map((c) => c.trim())]; [None] when an entry has no [trim]. *)
Fixpoint trimAll (items : list json) : option (list string) :=
  match items with
  | [] => Some []
  | JString s :: r =>
      match trimAll r with
      | Some l => Some (trim s :: l)
      | None => None
      end
  | _ :: _ => None
  end.

Definition cacheKey (countryName : string) : string :=
  ("country:" ++ toLowerCase countryName)%string.

(** Where the handler stands when it first yields control. *)
Inductive Progress :=
  | BadRequest (errors : list ValidationError)
      (* [res.status(400).json({ success: false, errors })] *)
  | Rejected
      (* an exception escaped the handler *)
  | AwaitingAll (rt dur : string) (uniqueCountries : list string)
      (replies : list (string * Reply loc)).
      (* suspended at [Promise.all(dataPromises)] *)

(** The handler of [POST /], up to its first suspension.  Each callback of
    [uniqueCountries.map] runs [cache.getOrFetch] up to its first [await],
    in order. *)
Definition post (body : Body) (st : State loc string) : Progress * State loc string :=
  match validateInput body with
  | Throw => (Rejected, st)
  | Normal ((_ :: _) as validationErrors) => (BadRequest validationErrors, st)
  | Normal [] =>
      match riskTolerance body, duration body, countries body with
      | JString riskTolerance, JString duration, JArray countries =>
          let rt := toLowerCase riskTolerance in
          let dur := toLowerCase duration in
          match trimAll countries with
          | None => (Rejected, st)
          | Some trimmed =>
              let uniqueCountries := new_Set trimmed in
              let '(replies, st') :=
                exec st (map (fun countryName => Call (cacheKey countryName)) uniqueCountries) in
              (AwaitingAll rt dur uniqueCountries replies, st')
          end
      | _, _, _ => (Rejected, st)
      end
  end.

(** Step 5 of the handler: [validData.map] over [scoring.scoreCountry]. *)
Fixpoint scoreAll (Math_log10 : num -> num) (h : heap) (validData : list loc)
    (rt dur : string) : option (list ScoreResult * heap) :=
  match validData with
  | [] => Some ([], h)
  | countryData :: rest =>
      match scoreCountry Math_log10 h countryData rt dur with
      | None => None
      | Some (scores, h1) =>
          match scoreAll Math_log10 h1 rest rt dur with
          | None => None
          | Some (l, h2) => Some (scores :: l, h2)
          end
      end
  end.

End analyze.

(* ===================================================================== *)
(** ** scoringService.js: ranking *)
(* ===================================================================== *)

(** [Array.prototype.sort] with a comparator.  The sort is stable; for a
    comparator that orders its arguments consistently its result is the one
    that insertion from the right yields.  [after x y] stands for
    [comparator(x, y) > 0].  A comparator that returns [NaN] for some pair
    is not consistent, and the order the engine then produces is its own
    choice: what is stated about the order of a result is stated for
    composites and weights that are numbers. *)
Fixpoint insert_sorted {A : Type} (after : A -> A -> bool) (x : A) (l : list A)
    : list A :=
  match l with
  | [] => [x]
  | y :: r => if after x y then y :: insert_sorted after x r else x :: l
  end.

Fixpoint Array_sort {A : Type} (after : A -> A -> bool) (l : list A) : list A :=
  match l with
  | [] => []
  | x :: r => insert_sorted after x (Array_sort after r)
  end.

Definition RANK_LABELS : list string :=
  ["🥇 Best Match"; "🥈 Strong Option"; "🥉 Good Alternative"]%string.

(** An entry with the two members that [rankResults] adds. *)
Record Ranked (A : Type) := {
  entry : A;
  rank : nat;
  rank_label : string
}.
Arguments entry {A} _.
Arguments rank {A} _.
Arguments rank_label {A} _.

(** [rankResults]; [composite] reads [scores.composite_score] off an
    entry. *)
Definition rankResults {A : Type} (composite : A -> num) (scoredCountries : list A)
    : list (Ranked A) :=
  let sorted :=
    Array_sort (fun a b => ngt (composite b -# composite a) (Fin 0%Q)) scoredCountries in
  imap (fun i entry =>
          {| entry := entry;
             rank := i + 1;
             rank_label :=
               default ("#" ++ pretty (i + 1)%nat ++ " Option")%string
                       (RANK_LABELS !! i) |})
       sorted.

(* ===================================================================== *)
(** ** scoringService.js: reasoning *)
(* ===================================================================== *)

(** The sentences of [generateReasoning], one constructor per template,
    carrying the values the template quotes; their rendering as text (one
    decimal, [N/A] for a missing value) is not modelled. *)
Inductive TravelIssue :=
  | ElevatedAdvisory (advisoryScore : jsval)
  | PoorAirQuality (aqi : jsval)
  | UncomfortableTemperature (tempCelsius : jsval).

Inductive EnvCause :=
  | CauseAqi (aqi : jsval)
  | CauseHumidity
  | CauseVolatility.

Inductive Sentence :=
  | TravelStrong
  | TravelHigh (issues : list TravelIssue)    (* no issue: "multiple factors" *)
  | TravelModerate (advisories : bool)        (* "travel advisories", else
                                                 "environmental conditions" *)
  | HealthStrong (lifeExpectancy healthcareExpenditure : jsval)
  | HealthConcerns (healthcareExpenditure lifeExpectancy : jsval)
  | HealthAdequate
  | EnvGood
  | EnvChallenging (cause : EnvCause)
  | WeightContext (riskTolerance duration : option string)
      (weightName : string) (percent : num).

Definition nle : num -> num -> bool := num_cmp Qle_bool.

(** [breakdown.components.key]; a member that is not there compares as
    [NaN]. *)
Fixpoint component (key : string) (components : list (string * num)) : num :=
  match components with
  | [] => NaN
  | (k, v) :: r => if String.eqb key k then v else component key r
  end.

(** The number whose digits [x.toFixed(0)] prints. *)
Definition toFixed0 (a : num) : num :=
  match a with
  | Fin x =>
      if Qlt_bool x 0
      then Fin (- inject_Z (Qfloor ((- x) + (1 # 2))))
      else Fin (inject_Z (Qfloor (x + (1 # 2))))
  | NaN => NaN
  end.

(** [Object.entries(weights)] *)
Definition weightEntries (weights : Weights) : list (string * num) :=
  [ ("travel_risk_score"%string, w_travel_risk_score weights);
    ("health_infrastructure_score"%string, w_health_infrastructure_score weights);
    ("environmental_stability_score"%string, w_environmental_stability_score weights) ].

Definition weightNames (key : string) : string :=
  if String.eqb key "travel_risk_score" then "Travel Safety"
  else if String.eqb key "health_infrastructure_score" then "Health Infrastructure"
  else if String.eqb key "environmental_stability_score" then "Environmental Stability"
  else "undefined".

Definition generateReasoning (country : string)
    (travelRisk healthInfra envStab : ScoreBreakdown)
    (rawData : CountryData) (weights : Weights) : list Sentence :=
  let travel :=
    if nge (score travelRisk) (Fin 75) then [TravelStrong]
    else if nle (score travelRisk) (Fin 40) then
      let issues :=
        (if nlt (component "travel_advisory" (components travelRisk)) (Fin 40)
         then [ElevatedAdvisory (advisory rawData)?.advisory_score] else []) ++
        (if nlt (component "air_quality" (components travelRisk)) (Fin 40)
         then [PoorAirQuality (aqi rawData)?.aqi_index] else []) ++
        (if nlt (component "temperature_comfort" (components travelRisk)) (Fin 40)
         then [UncomfortableTemperature (weather rawData)?.temp_celsius] else []) in
      [TravelHigh issues]
    else
      [TravelModerate (nlt (component "travel_advisory" (components travelRisk)) (Fin 50))] in
  let health :=
    if nge (score healthInfra) (Fin 70) then
      [HealthStrong (lifeExpectancy (worldBank rawData))
                    (healthcareExpenditure (worldBank rawData))]
    else if nle (score healthInfra) (Fin 40) then
      [HealthConcerns (healthcareExpenditure (worldBank rawData))
                      (lifeExpectancy (worldBank rawData))]
    else [HealthAdequate] in
  let env :=
    if nge (score envStab) (Fin 70) then [EnvGood]
    else if nle (score envStab) (Fin 40) then
      [EnvChallenging
         (if nlt (component "air_quality_stability" (components envStab)) (Fin 40)
          then CauseAqi (aqi rawData)?.aqi_index
          else if nlt (component "humidity_comfort" (components envStab)) (Fin 40)
          then CauseHumidity
          else CauseVolatility)]
    else [] in
  let context :=
    match Array_sort (fun a b => ngt (b.2 -# a.2) (Fin 0%Q)) (weightEntries weights) with
    | topWeight :: _ =>
        [WeightContext (_riskTolerance rawData) (_duration rawData)
           (weightNames topWeight.1) (toFixed0 (topWeight.2 *# Fin 100))]
    | [] => []
    end in
  travel ++ health ++ env ++ context.

(** The [reasoning] member of what [scoreCountry] returns: the sentences are
    generated from the dataset as it is after the two profile members have
    been attached. *)
Definition scoreCountryReasoning (Math_log10 : num -> num) (h : heap)
    (countryData : loc) (riskTolerance duration : string) : option (list Sentence) :=
  match scoreCountry Math_log10 h countryData riskTolerance duration with
  | None => None
  | Some (res, h') =>
      match h' !! countryData with
      | None => None
      | Some rawData =>
          Some (generateReasoning (country rawData) (travel_risk_score res)
                  (health_infrastructure_score res)
                  (environmental_stability_score res) rawData (dynamic_weights res))
      end
  end.

(* ===================================================================== *)
(** ** routes/analyze.js: after the fetches *)
(* ===================================================================== *)

Module analyzeRest.

Import cacheService analyze.

(** What one callback of [uniqueCountries.map] resolves to: the object the
    cache handed out, or, when [getOrFetch] failed, a fresh object
    [{ found: false, country, error }]. *)
Inductive Datum :=
  | Shared (l : loc)
  | Failed (countryName : string) (message : string).

(** [Failed to retrieve data: ] followed by the error's message. *)
Definition failureReason (message : string) : string :=
  ("Failed to retrieve data: " ++ message)%string.

(** The per-country callbacks once every promise has settled; [None] while
    one is pending ([Promise.all] has not resolved). *)
Fixpoint awaitAll (st : State loc string) (uniqueCountries : list string)
    (replies : list (string * Reply loc)) : option (list Datum) :=
  match uniqueCountries, replies with
  | countryName :: names, (_, r) :: rs =>
      match outcome st r, awaitAll st names rs with
      | Some (inl (result, _)), Some l => Some (Shared result :: l)
      | Some (inr message), Some l => Some (Failed countryName message :: l)
      | _, _ => None
      end
  | _, _ => Some []
  end.

(** [d.found], [d.country], [d.error] of a datum; [None]: dangling
    reference. *)
Definition datumFound (h : heap) (x : Datum) : option bool :=
  match x with
  | Shared l => found <$> h !! l
  | Failed _ _ => Some false
  end.

Definition datumFailure (h : heap) (x : Datum) : option (string * option string) :=
  match x with
  | Shared l => (fun d => (country d, error d)) <$> h !! l
  | Failed countryName message => Some (countryName, Some (failureReason message))
  end.

(** An element of [scoredCountries]; the members that copy [raw_data],
    [data_availability] and the cache report are left out. *)
Record Entry := {
  e_country : string;
  official_name : string;
  e_capital : option string;
  e_population : jsval;
  scores : ScoreResult
}.

Inductive Response :=
  | NotFound404 (errors : list (string * option string))
  | Ok200 (countries_analyzed countries_failed : nat) (weight_profile : Weights)
      (ranked_results : list (Ranked Entry))
      (failed_countries : list (string * option string)).

Inductive Finished :=
  | Responded (r : Response)
  | Threw.                      (* a TypeError escaped the handler *)

(** [allData.filter((d) => d.found)] and [allData.filter((d) => !d.found)] *)
Fixpoint partitionData (h : heap) (allData : list Datum)
    : option (list loc * list (string * option string)) :=
  match allData with
  | [] => Some ([], [])
  | x :: rest =>
      match datumFound h x, datumFailure h x, partitionData h rest with
      | Some true, _, Some (valid, errors) =>
          match x with
          | Shared l => Some (l :: valid, errors)
          | Failed _ _ => None
          end
      | Some false, Some e, Some (valid, errors) => Some (valid, e :: errors)
      | _, _, _ => None
      end
  end.

(** Step 5: [validData.map] scores each dataset and then reads its profile;
    a dataset without profile raises.  [inl]: the entries; [inr]: raised. *)
Fixpoint scoreEach (Math_log10 : num -> num) (h : heap) (validData : list loc)
    (rt dur : string) : option ((list Entry + unit) * heap) :=
  match validData with
  | [] => Some (inl [], h)
  | countryData :: rest =>
      match scoreCountry Math_log10 h countryData rt dur with
      | None => None
      | Some (scores, h1) =>
          match h1 !! countryData with
          | None => None
          | Some d =>
              match profile d with
              | None => Some (inr tt, h1)
              | Some p =>
                  let e := {| e_country := country d; official_name := name p;
                              e_capital := capital p; e_population := population p;
                              scores := scores |} in
                  match scoreEach Math_log10 h1 rest rt dur with
                  | None => None
                  | Some (inl l, h2) => Some (inl (e :: l), h2)
                  | Some (inr u, h2) => Some (inr u, h2)
                  end
              end
          end
      end
  end.

(** Steps 4 to 7 of the handler.  [None]: dangling reference. *)
Definition finish (Math_log10 : num -> num) (h : heap) (rt dur : string)
    (allData : list Datum) : option (Finished * heap) :=
  match partitionData h allData with
  | None => None
  | Some (validData, errorData) =>
      match validData with
      | [] => Some (Responded (NotFound404 errorData), h)
      | _ :: _ =>
          match scoreEach Math_log10 h validData rt dur with
          | None => None
          | Some (inr _, h') => Some (Threw, h')
          | Some (inl scoredCountries, h') =>
              let rankedResults :=
                rankResults (fun e => composite_score (scores e)) scoredCountries in
              Some (Responded
                      (Ok200 (length validData) (length errorData)
                         (getDynamicWeights rt dur) rankedResults errorData),
                    h')
          end
      end
  end.

End analyzeRest.

(* ===================================================================== *)
(** ** Vocabulary of the properties *)
(* ===================================================================== *)

Import cacheService analyze.

Local Close Scope Q_scope.

Section CacheVocabulary.

Context {V E : Type}.
Implicit Types (st : State V E) (key : string) (p : promise).

(** [inFlight] holds exactly the promises that have not settled, each
    under the key of its producer invocation; only promises that exist
    have settled. *)
Definition wf st : Prop :=
  (forall key p,
      inFlight st !! key = Some p <->
      invoked st !! p = Some key /\ settled st !! p = None) /\
  (forall p, is_Some (settled st !! p) -> p < length (invoked st)).

(** Number of producer invocations made for [key] so far. *)
Definition invocations key st : nat :=
  length (filter (eq key) (invoked st)).

(** A key that is being fetched has no entry in the store. *)
Definition quiet st : Prop :=
  forall key p, inFlight st !! key = Some p -> store st !! key = None.

(** While the producer behind [p] has not settled: [p] is registered under
    [key] and the store has no entry for [key]. *)
Definition in_window key p st : Prop :=
  wf st /\ inFlight st !! key = Some p /\ store st !! key = None.

End CacheVocabulary.

Definition within (tol : Q) (a b : num) : Prop :=
  match a, b with
  | Fin x, Fin y => (Qabs (x - y) <= tol)%Q
  | _, _ => False
  end.

(** The finite values of the binary64 format, the numbers a JavaScript
    program can hold: [m * 2^e] with [|m| < 2^53] and [-1074 <= e <= 971]. *)
Definition binary64 (q : Q) : Prop :=
  exists m e : Z,
    (Z.abs m < 2 ^ 53)%Z /\ (-1074 <= e <= 971)%Z /\ (q == inject_Z m * 2 ^ e)%Q.

(** [Number.MAX_VALUE], the largest of them. *)
Definition MAX_VALUE : Q := inject_Z ((2 ^ 53 - 1) * 2 ^ 971).

(** Bounds [min < max] that are doubles and whose span [max - min] is at
    most [Number.MAX_VALUE], so that it is a finite, non-zero double too.
    On wider bounds the subtraction overflows and the code divides by
    [Infinity]. *)
Definition finite_span (mn mx : Q) : Prop :=
  binary64 mn /\ binary64 mx /\ (mn < mx)%Q /\ (mx - mn <= MAX_VALUE)%Q.

(** [Math.max(mn, Math.min(mx, v))] on finite numbers. *)
Definition clampQ (v mn mx : Q) : Q :=
  let m := if Qle_bool mx v then mx else v in
  if Qle_bool mn m then m else mn.

(** A weight triple of non-negative numbers whose sum is within [1/1000]
    of 1. *)
Definition valid_profile (w : Weights) : Prop :=
  match w_travel_risk_score w, w_health_infrastructure_score w,
        w_environmental_stability_score w with
  | Fin a, Fin b, Fin c =>
      (0 <= a /\ 0 <= b /\ 0 <= c /\ Qabs (a + b + c - 1) <= 1 # 1000)%Q
  | _, _, _ => False
  end.

Definition missing (v : jsval) : Prop := v = Undefined \/ v = Null.

(** No weather reading: the record is [null], or its members are missing
    ([temp_min], [temp_max] and [humidity_pct] not there at all). *)
Definition weather_absent (w : option Weather) : Prop :=
  match w with
  | None => True
  | Some w =>
      missing (temp_celsius w) /\ temp_min w = Undefined /\
      temp_max w = Undefined /\ humidity_pct w = Undefined /\
      missing (wind_speed_ms w) /\ missing (weather_id w)
  end.

Definition all_absent (d : CountryData) : Prop :=
  weather_absent (weather d) /\
  missing (aqi d)?.aqi_index /\
  missing (advisory d)?.advisory_score /\
  missing (lifeExpectancy (worldBank d)) /\
  missing (healthcareExpenditure (worldBank d)) /\
  missing (profile d)?.population.

(** What [fetchAllDataForCountry] delivers when every source but the
    profile failed and the profile carries no population. *)
Definition absentData : CountryData :=
  {| found := true; country := "Atlantis"; error := None;
     profile := Some {| name := "Atlantis"; capital := None; population := Null |};
     worldBank := {| lifeExpectancy := Null; healthcareExpenditure := Null |};
     weather := None; aqi := None; advisory := None;
     _riskTolerance := None; _duration := None |}.

(** As [absentData], but with a weather record whose members are all
    [null]. *)
Definition nullWeatherData : CountryData :=
  {| found := true; country := "Atlantis"; error := None;
     profile := Some {| name := "Atlantis"; capital := None; population := Null |};
     worldBank := {| lifeExpectancy := Null; healthcareExpenditure := Null |};
     weather := Some {| temp_celsius := Null; temp_min := Null; temp_max := Null;
                        humidity_pct := Null; wind_speed_ms := Null;
                        weather_id := Null |};
     aqi := None; advisory := None;
     _riskTolerance := None; _duration := None |}.

Definition clamp100 (x : num) : num :=
  Math_round (Math_max (Fin 0) (Math_min (Fin 100) x)).

(** The composite as the specification words it: over the weights before
    they are rounded. *)
Definition compositeUnrounded (travelRisk healthInfra envStab : num)
    (rt dur : string) : num :=
  let '(w1, w2, w3) := adjustedWeights rt dur in
  clamp100 (travelRisk *# w1 +# healthInfra *# w2 +# envStab *# w3).

(** The composite over the weights rounded to three decimals. *)
Definition compositeRounded (travelRisk healthInfra envStab : num)
    (rt dur : string) : num :=
  let '(w1, w2, w3) := adjustedWeights rt dur in
  clamp100 (travelRisk *# toFixed3 w1 +# healthInfra *# toFixed3 w2 +#
            envStab *# toFixed3 w3).

(** The blend of the three scores with the weights rounded to three
    decimals, clamped to the scale: what [scoreCountry] hands to
    [Math.round]. *)
Definition blendRounded (travelRisk healthInfra envStab : num)
    (rt dur : string) : num :=
  let '(w1, w2, w3) := adjustedWeights rt dur in
  Math_max (Fin 0) (Math_min (Fin 100)
    (travelRisk *# toFixed3 w1 +# healthInfra *# toFixed3 w2 +#
     envStab *# toFixed3 w3)).

(** [x] lies half-way between two consecutive whole numbers. *)
Definition half_way (x : num) : Prop :=
  match x with
  | Fin q => exists k : Z, (q == inject_Z k + (1 # 2))%Q
  | NaN => False
  end.

(** A dataset with air quality 270, advisory 2, life expectancy 90 and
    health expenditure 11 percent; no weather, no population. *)
Definition sampleData : CountryData :=
  {| found := true; country := "Utopia"; error := None;
     profile := Some {| name := "Utopia"; capital := None; population := Null |};
     worldBank := {| lifeExpectancy := Num (Fin 90);
                     healthcareExpenditure := Num (Fin 11) |};
     weather := None;
     aqi := Some {| aqi_index := Num (Fin 270) |};
     advisory := Some {| advisory_score := Num (Fin 2) |};
     _riskTolerance := None; _duration := None |}.

(** The exact scores of a dataset, read as doubles. *)
Definition exactScores (lg : num -> num) (d : CountryData) (rt dur : string)
    : float * float * float * float :=
  let travelRisk := computeTravelRiskScore d in
  let healthInfra := computeHealthInfrastructureScore lg d in
  let envStab := computeEnvironmentalStabilityScore d in
  (Binary64.of_num (score travelRisk), Binary64.of_num (score healthInfra),
   Binary64.of_num (score envStab),
   Binary64.of_num (compositeOf travelRisk healthInfra envStab
                      (getDynamicWeights rt dur))).

(** The members of a dataset that carry data, everything but the two that
    [scoreCountry] attaches. *)
Definition same_data (d d' : CountryData) : Prop :=
  found d' = found d /\ country d' = country d /\ error d' = error d /\
  profile d' = profile d /\ worldBank d' = worldBank d /\
  weather d' = weather d /\ aqi d' = aqi d /\ advisory d' = advisory d.

(** The elements of a list in the order of their first occurrence. *)
Fixpoint first_seen (l : list string) : list string :=
  match l with
  | [] => []
  | x :: r => x :: filter (fun y => y <> x) (first_seen r)
  end.

Definition caseDuplicateBody : Body :=
  {| countries := JArray [JString "France"; JString "france"; JString "Spain"];
     riskTolerance := JString "low";
     duration := JString "short" |}.

Definition countries_ok (c : json) : Prop :=
  exists items,
    c = JArray items /\
    3 <= length items <= 10 /\
    forall x, x ∈ items -> exists s, x = JString s /\ trim s <> EmptyString.

Definition choice_ok (allowed : list string) (v : json) : Prop :=
  exists s, v = JString s /\ toLowerCase s ∈ allowed.

Definition valid_body (b : Body) : Prop :=
  countries_ok (countries b) /\
  choice_ok VALID_RISK (riskTolerance b) /\
  choice_ok VALID_DURATION (duration b).

Definition uncallableMemberBody : Body :=
  {| countries := JArray [JString "France"; JString "Spain"; JString "Peru"];
     riskTolerance := JObject [("toLowerCase"%string, JNumber (Fin 1))];
     duration := JString "short" |}.

(** A whole number between 0 and 100. *)
Definition is_score (n : num) : Prop :=
  exists z : Z, n = Fin (inject_Z z) /\ (0 <= z <= 100)%Z.

Definition num_le (a b : num) : Prop :=
  match a, b with
  | Fin x, Fin y => (x <= y)%Q
  | _, _ => False
  end.

(** The branch of [getDynamicWeights] that a risk tolerance, a duration
    selects. *)
Definition canonRisk (riskTolerance : string) : string :=
  if String.eqb (toLowerCase riskTolerance) "low" then "low"
  else if String.eqb (toLowerCase riskTolerance) "high" then "high"
  else "moderate".

Definition canonDuration (duration : string) : string :=
  if String.eqb (toLowerCase duration) "long" then "long" else "short".

(** What the scoring needs of [Math.log10]: finite values at the two bounds
    of the population scale, in their order. *)
Definition log10_bounds (lg : num -> num) : Prop :=
  exists lo hi : Q, lg (Fin 1e5) = Fin lo /\ lg (Fin 2e9) = Fin hi /\ (lo < hi)%Q.

(** A stand-in for [Math.log10] that is right at the two bounds, to two
    decimals. *)
Definition log10_sample (x : num) : num :=
  match x with
  | Fin q => if Qle_bool q 1e5 then Fin 5 else Fin 9.3
  | NaN => NaN
  end.

(** A dataset with every member present. *)
Definition fullData : CountryData :=
  {| found := true; country := "Utopia"; error := None;
     profile := Some {| name := "Utopia"; capital := Some "Amaurot"%string;
                        population := Num (Fin 2e9) |};
     worldBank := {| lifeExpectancy := Num (Fin 81.3);
                     healthcareExpenditure := Num (Fin 11.7) |};
     weather := Some {| temp_celsius := Num (Fin 18.4); temp_min := Num (Fin 16);
                        temp_max := Num (Fin 21); humidity_pct := Num (Fin 62);
                        wind_speed_ms := Num (Fin 3.6); weather_id := Num (Fin 501) |};
     aqi := Some {| aqi_index := Num (Fin 42) |};
     advisory := Some {| advisory_score := Num (Fin 2.3) |};
     _riskTolerance := None; _duration := None |}.

Section CacheRuns.

Context {V E : Type}.
Implicit Types (st : State V E) (key : string) (p : promise).

(** The states the service can be in: those reached from the initial one by
    some run of events. *)
Definition reachable st : Prop := exists evs, st = (exec init evs).2.

(** Every producer invocation is either in flight or settled. *)
Definition accounted st : Prop :=
  size (inFlight st) + size (settled st) = length (invoked st).

(** The clock does not pass [t] at any point of the run of [evs] from [st]. *)
Definition clock_within (t : Z) st (evs : list (Event V E)) : Prop :=
  forall evs1 evs2, evs = evs1 ++ evs2 -> (now (exec st evs1).2 <= t)%Z.

End CacheRuns.

(** The characters of a string. *)
Fixpoint chars (s : string) : list ascii :=
  match s with
  | EmptyString => []
  | String c r => c :: chars r
  end.

(** What each test of [validateInput] on [countries] looks for. *)
Definition too_few (c : json) : Prop :=
  forall items, c = JArray items -> length items < 3.

Definition too_many (c : json) : Prop :=
  exists items, c = JArray items /\ 10 < length items.

Definition has_bad_entry (c : json) : Prop :=
  exists items,
    c = JArray items /\ 3 <= length items <= 10 /\
    exists x, x ∈ items /\ forall s, x = JString s -> trim s = EmptyString.

Definition validBody : Body :=
  {| countries := JArray [JString " Peru"; JString "Chile "; JString "Peru";
                          JString "peru"];
     riskTolerance := JString "Low";
     duration := JString "LONG" |}.

(** All composites are numbers. *)
Definition finite_composites {A : Type} (composite : A -> num) (l : list A) : Prop :=
  forall x, x ∈ l -> exists q : Q, composite x = Fin q.

(** [x] may stand before [y] in a ranking: its composite is not lower. *)
Definition ranks_before {A : Type} (composite : A -> num) (x y : A) : Prop :=
  num_le (composite y) (composite x).

Import analyzeRest.

Definition is_travel_sentence (s : Sentence) : Prop :=
  match s with
  | TravelStrong | TravelHigh _ | TravelModerate _ => True
  | _ => False
  end.

Definition is_health_sentence (s : Sentence) : Prop :=
  match s with
  | HealthStrong _ _ | HealthConcerns _ _ | HealthAdequate => True
  | _ => False
  end.

Definition is_env_sentence (s : Sentence) : Prop :=
  match s with
  | EnvGood | EnvChallenging _ => True
  | _ => False
  end.

(** The dimension with the highest weight and its percentage, for the six
    profiles. *)
Definition topWeightOf (rt dur : string) : string * Q :=
  if String.eqb rt "low" then
    if String.eqb dur "long" then ("Travel Safety"%string, 43%Q)
    else ("Travel Safety"%string, 48%Q)
  else if String.eqb rt "high" then
    if String.eqb dur "long" then ("Health Infrastructure"%string, 42%Q)
    else ("Environmental Stability"%string, 45%Q)
  else
    if String.eqb dur "long" then ("Health Infrastructure"%string, 45%Q)
    else ("Travel Safety"%string, 40%Q).

(** Every reference of the request points to a dataset, and the datasets
    that were found carry a profile. *)
Definition datasets_present (h : heap) (allData : list Datum) : Prop :=
  forall l, Shared l ∈ allData ->
    exists d, h !! l = Some d /\ (found d = true -> is_Some (profile d)).

(** Number of datasets of the request that were found. *)
Definition foundCount (h : heap) (allData : list Datum) : nat :=
  length (List.filter (fun x => default false (datumFound h x)) allData).

(** Every promise behind the replies has settled. *)
Definition all_settled (st : State loc string) (replies : list (string * Reply loc))
    : Prop :=
  Forall (fun kr => is_Some (outcome st kr.2)) replies.

(** The [country] members of the datasets that were found, in request
    order. *)
Definition foundCountries (h : heap) (allData : list Datum) : list string :=
  omap (fun x => match x with
                 | Shared l =>
                     match h !! l with
                     | Some d => if found d then Some (country d) else None
                     | None => None
                     end
                 | Failed _ _ => None
                 end) allData.

(** The country and reason of the datasets that were not found, in request
    order. *)
Definition failures (h : heap) (allData : list Datum)
    : list (string * option string) :=
  omap (fun x => match datumFound h x with
                 | Some false => datumFailure h x
                 | _ => None
                 end) allData.

(** What the handler's answer reports, against the data it was given. *)
Definition ok_report (h : heap) (rt dur : string) (allData : list Datum)
    (r : Response) : Prop :=
  match r with
  | NotFound404 errors =>
      foundCount h allData = 0 /\ errors = failures h allData /\
      length errors = length allData
  | Ok200 analyzed failed wp ranked failed_countries =>
      0 < analyzed /\ analyzed = foundCount h allData /\
      analyzed + failed = length allData /\
      wp = getDynamicWeights rt dur /\
      failed_countries = failures h allData /\ length failed_countries = failed /\
      rank <$> ranked = seq 1 analyzed /\
      (fun r => e_country (entry r)) <$> ranked ≡ₚ foundCountries h allData
  end.

(** A dataset of a country that was not found. *)
Definition notFoundData : CountryData :=
  {| found := false; country := "Atlantis"; error := Some "not found"%string;
     profile := None;
     worldBank := {| lifeExpectancy := Undefined; healthcareExpenditure := Undefined |};
     weather := None; aqi := None; advisory := None;
     _riskTolerance := None; _duration := None |}.

(** A valid body whose first two names differ in the case of a letter
    outside ASCII: [Ö] is the code unit 214, [ö] the code unit 246. *)
Definition latin1Body : Body :=
  {| countries := JArray [JString (String (ascii_of_nat 214) "sterreich");
                          JString (String (ascii_of_nat 246) "sterreich");
                          JString "Peru"];
     riskTolerance := JString "low";
     duration := JString "long" |}.

(* ===================================================================== *)
(** * Properties *)
(* ===================================================================== *)

(* ===================================================================== *)
(** ** The cache: well-formed states *)
(* ===================================================================== *)

Section CacheFacts.

Context {V E : Type}.
Implicit Types (st : State V E) (key : string) (p : promise).

Lemma wf_init : wf (@init V E).
Proof.
  split.
  - intros key p. cbn. rewrite lookup_empty. split; [done|].
    intros [H _]. by rewrite lookup_nil in H.
  - intros p [x Hx]. cbn in Hx. by rewrite lookup_empty in Hx.
Qed.

Lemma get_miss_absent (t : Z) (s : gmap string (CacheEntry V)) key :
  s !! key = None -> get t s key = (None, s).
Proof. intros H. unfold get. by rewrite H. Qed.

(** [get] never adds an entry and touches no other key. *)
Lemma get_store_other (t : Z) (s : gmap string (CacheEntry V)) key key' :
  key <> key' -> (get t s key).2 !! key' = s !! key'.
Proof.
  intros Hne. unfold get. destruct (s !! key) as [en|]; [|done].
  destruct (t >? expiresAt en)%Z; cbn; [|done].
  by rewrite lookup_delete_ne.
Qed.

Lemma get_miss_gone (t : Z) (s : gmap string (CacheEntry V)) key :
  (get t s key).1 = None -> (get t s key).2 !! key = None.
Proof.
  unfold get. destruct (s !! key) as [en|] eqn:Hk; [|done].
  destruct (t >? expiresAt en)%Z; cbn; [|done].
  intros _. by rewrite lookup_delete_eq.
Qed.

Lemma getOrFetch_now st key : now (getOrFetch st key).2 = now st.
Proof.
  unfold getOrFetch. destruct (get _ _ _) as [[d|] s1]; [done|].
  by destruct (inFlight st !! key).
Qed.

Lemma getOrFetch_settled st key : settled (getOrFetch st key).2 = settled st.
Proof.
  unfold getOrFetch. destruct (get _ _ _) as [[d|] s1]; [done|].
  by destruct (inFlight st !! key).
Qed.

Lemma getOrFetch_store st key : store (getOrFetch st key).2 = (get (now st) (store st) key).2.
Proof.
  unfold getOrFetch. destruct (get _ _ _) as [[d|] s1]; [done|].
  by destruct (inFlight st !! key).
Qed.

(** The three ways out of the synchronous part of [getOrFetch]. *)
Lemma getOrFetch_cases st key :
  (exists d, (get (now st) (store st) key).1 = Some d /\
             (getOrFetch st key).1 = Hit d /\
             inFlight (getOrFetch st key).2 = inFlight st /\
             invoked (getOrFetch st key).2 = invoked st) \/
  (exists p, (get (now st) (store st) key).1 = None /\
             inFlight st !! key = Some p /\
             (getOrFetch st key).1 = Joined p /\
             inFlight (getOrFetch st key).2 = inFlight st /\
             invoked (getOrFetch st key).2 = invoked st) \/
  ((get (now st) (store st) key).1 = None /\
   inFlight st !! key = None /\
   (getOrFetch st key).1 = Started (length (invoked st)) /\
   inFlight (getOrFetch st key).2 = <[key := length (invoked st)]> (inFlight st) /\
   invoked (getOrFetch st key).2 = invoked st ++ [key]).
Proof.
  unfold getOrFetch. destruct (get _ _ _) as [[d|] s1]; cbn.
  - left. by exists d.
  - destruct (inFlight st !! key) as [p|] eqn:Hf; cbn.
    + right. left. by exists p.
    + right. right. done.
Qed.

Lemma wf_getOrFetch st key : wf st -> wf (getOrFetch st key).2.
Proof.
  intros [Hw1 Hw2].
  destruct (getOrFetch_cases st key)
    as [(d & _ & _ & Hf & Hi) | [(p & _ & _ & _ & Hf & Hi) | (_ & Hnone & _ & Hf & Hi)]];
    unfold wf; rewrite Hf, Hi, getOrFetch_settled; [done | done |].
  split.
  - intros k q. destruct (decide (q = length (invoked st))) as [->|Hq].
    + rewrite lookup_app_r, Nat.sub_diag by lia. cbn.
      assert (settled st !! length (invoked st) = None) as Hs.
      { destruct (settled st !! length (invoked st)) eqn:Hx; [|done].
        assert (length (invoked st) < length (invoked st)) by (apply Hw2; eauto). lia. }
      destruct (decide (key = k)) as [->|Hk].
      * rewrite lookup_insert_eq. split; [by intros _|done].
      * rewrite lookup_insert_ne by done. split.
        -- intros Hin. apply Hw1 in Hin as [Hin _].
           apply lookup_lt_Some in Hin. lia.
        -- intros [[=] _]. done.
    + destruct (decide (key = k)) as [->|Hk].
      * rewrite lookup_insert_eq. split; [intros [=]; congruence|].
        intros [Hin Hs].
        assert (q < length (invoked st)).
        { apply lookup_lt_Some in Hin. rewrite length_app in Hin. cbn in Hin. lia. }
        rewrite lookup_app_l in Hin by done.
        assert (inFlight st !! k = Some q) as Hx by (apply Hw1; done).
        congruence.
      * rewrite lookup_insert_ne by done. rewrite Hw1. split.
        -- intros [Hin Hs]. split; [|done].
           rewrite lookup_app_l; [done|]. by apply lookup_lt_Some in Hin.
        -- intros [Hin Hs]. split; [|done].
           assert (q < length (invoked st)).
           { apply lookup_lt_Some in Hin. rewrite length_app in Hin. cbn in Hin. lia. }
           by rewrite lookup_app_l in Hin.
  - intros q Hq. apply Hw2 in Hq. rewrite length_app. lia.
Qed.

Lemma wf_settle st p r : wf st -> wf (settle st p r).
Proof.
  intros [Hw1 Hw2]. unfold settle.
  destruct (invoked st !! p) as [key|] eqn:Hp; [|done].
  destruct (settled st !! p) eqn:Hs; [done|].
  assert (inFlight st !! key = Some p) as Hfl by (apply Hw1; done).
  split; cbn.
  - intros k q. destruct (decide (key = k)) as [->|Hk].
    + rewrite lookup_delete_eq. split; [done|]. intros [Hin Hq].
      destruct (decide (p = q)) as [->|Hpq].
      * by rewrite lookup_insert_eq in Hq.
      * rewrite lookup_insert_ne in Hq by done.
        assert (inFlight st !! k = Some q) by (apply Hw1; done). congruence.
    + rewrite lookup_delete_ne by done. rewrite Hw1.
      destruct (decide (p = q)) as [->|Hpq].
      * rewrite lookup_insert_eq. split; [|by intros [_ [=]]].
        intros [Hin _]. congruence.
      * by rewrite lookup_insert_ne.
  - intros q [x Hq]. destruct (decide (p = q)) as [->|Hpq].
    + by apply lookup_lt_Some in Hp.
    + rewrite lookup_insert_ne in Hq by done. apply Hw2. eauto.
Qed.

Lemma wf_tick st dt : wf st -> wf (tick st dt).
Proof. done. Qed.

Lemma exec_app st (evs1 evs2 : list (Event V E)) :
  exec st (evs1 ++ evs2) =
  ((exec st evs1).1 ++ (exec (exec st evs1).2 evs2).1,
   (exec (exec st evs1).2 evs2).2).
Proof.
  revert st. induction evs1 as [|ev evs1 IH]; intros st; cbn.
  - by destruct (exec st evs2).
  - destruct ev as [dt|k|p r]; [apply IH| |apply IH].
    destruct (getOrFetch st k) as [r st1]. rewrite IH.
    destruct (exec st1 evs1) as [rs st2]. cbn.
    by destruct (exec st2 evs2).
Qed.

Lemma wf_exec st (evs : list (Event V E)) : wf st -> wf (exec st evs).2.
Proof.
  revert st. induction evs as [|ev evs IH]; intros st Hw; cbn; [done|].
  destruct ev as [dt|k|p r].
  - by apply IH, wf_tick.
  - pose proof (wf_getOrFetch st k Hw) as Hw'.
    destruct (getOrFetch st k) as [r st1]. cbn in Hw'.
    specialize (IH st1 Hw'). by destruct (exec st1 evs).
  - by apply IH, wf_settle.
Qed.

End CacheFacts.

(* ===================================================================== *)
(** ** The cache: one fetch attempt *)
(* ===================================================================== *)

Section FetchAttempt.

Context {V E : Type}.
Implicit Types (st : State V E) (key : string) (p : promise).

Lemma started_window st key p st1 :
  wf st -> getOrFetch st key = (Started p, st1) ->
  in_window key p st1 /\ p = length (invoked st) /\
  invocations key st1 = S (invocations key st).
Proof.
  intros Hw Hg. pose proof (wf_getOrFetch st key Hw) as Hw1.
  pose proof (getOrFetch_store st key) as Hs.
  destruct (getOrFetch_cases st key)
    as [(d & _ & Hr & _) | [(q & _ & _ & Hr & _) | (Hmiss & _ & Hr & Hf & Hi)]];
    rewrite Hg in *; cbn in *; try discriminate.
  injection Hr as ->.
  refine (conj (conj Hw1 (conj _ _)) (conj eq_refl _)).
  - by rewrite Hf, lookup_insert_eq.
  - rewrite Hs. by apply get_miss_gone.
  - unfold invocations. rewrite Hi, filter_app, length_app. cbn.
    rewrite decide_True by done. cbn. lia.
Qed.

Lemma window_call st key p k :
  in_window key p st ->
  in_window key p (getOrFetch st k).2 /\
  invocations key (getOrFetch st k).2 = invocations key st /\
  (k = key -> (getOrFetch st k).1 = Joined p).
Proof.
  intros (Hw & Hfl & Hst).
  pose proof (wf_getOrFetch st k Hw) as Hw1.
  pose proof (getOrFetch_store st k) as Hs.
  assert (store (getOrFetch st k).2 !! key = None) as Hst1.
  { rewrite Hs. destruct (decide (k = key)) as [->|Hk].
    - by rewrite get_miss_absent.
    - by rewrite get_store_other. }
  destruct (getOrFetch_cases st k)
    as [(d & Hget & Hr & Hf & Hi) | [(q & Hget & Hq & Hr & Hf & Hi) | (Hget & Hnone & Hr & Hf & Hi)]].
  - refine (conj (conj Hw1 (conj _ Hst1)) (conj _ _)).
    + by rewrite Hf.
    + unfold invocations. by rewrite Hi.
    + intros ->. rewrite get_miss_absent in Hget by done. discriminate.
  - refine (conj (conj Hw1 (conj _ Hst1)) (conj _ _)).
    + by rewrite Hf.
    + unfold invocations. by rewrite Hi.
    + intros ->. rewrite Hr. congruence.
  - assert (k <> key) as Hk by congruence.
    refine (conj (conj Hw1 (conj _ Hst1)) (conj _ _)); [| |done].
    + by rewrite Hf, lookup_insert_ne.
    + unfold invocations. rewrite Hi, filter_app, length_app. cbn.
      rewrite decide_False by congruence. cbn. lia.
Qed.

Lemma window_settle st key p q r :
  in_window key p st -> q <> p ->
  in_window key p (settle st q r) /\
  invocations key (settle st q r) = invocations key st.
Proof.
  intros (Hw & Hfl & Hst) Hq.
  pose proof (wf_settle st q r Hw) as Hw1.
  unfold in_window, invocations. revert Hw1. unfold settle.
  destruct (invoked st !! q) as [k|] eqn:Hk; [|done].
  destruct (settled st !! q) eqn:Hs; [done|]. cbn. intros Hw1.
  assert (inFlight st !! k = Some q) as Hfk by (apply Hw; done).
  assert (k <> key) as Hne by congruence.
  refine (conj (conj Hw1 (conj _ _)) eq_refl).
  - by rewrite lookup_delete_ne.
  - destruct r as [d|e]; [|done].
    unfold set. by rewrite lookup_insert_ne.
Qed.

(** Any run of events in which [p] does not settle stays in the window:
    no producer is invoked for [key] and every call on [key] joins [p]. *)
Lemma window_exec (evs : list (Event V E)) st key p :
  in_window key p st ->
  (forall r, Settle p r ∉ evs) ->
  in_window key p (exec st evs).2 /\
  invocations key (exec st evs).2 = invocations key st /\
  (forall r, (key, r) ∈ (exec st evs).1 -> r = Joined p).
Proof.
  revert st. induction evs as [|ev evs IH]; intros st HW Hno; cbn.
  - refine (conj HW (conj eq_refl _)). intros r Hr. by apply elem_of_nil in Hr.
  - assert (forall r, Settle p r ∉ evs) as Hno'.
    { intros r Hr. apply (Hno r). by right. }
    destruct ev as [dt|k|q r].
    + assert (in_window key p (tick st dt)) as HW1.
      { destruct HW as (Hw & ? & ?). by split. }
      exact (IH _ HW1 Hno').
    + destruct (window_call st key p k HW) as (HW1 & Hc & Hj).
      destruct (getOrFetch st k) as [rp st1]. cbn in *.
      destruct (IH st1 HW1 Hno') as (HW2 & Hc2 & Hj2).
      destruct (exec st1 evs) as [rs st2]. cbn in *.
      refine (conj HW2 (conj _ _)); [congruence|].
      intros r Hr. apply elem_of_cons in Hr as [[= <- ->]|Hr]; [by apply Hj|by apply Hj2].
    + assert (q <> p) as Hq.
      { intros ->. apply (Hno r). by left. }
      destruct (window_settle st key p q r HW Hq) as (HW1 & Hc).
      destruct (IH (settle st q r) HW1 Hno') as (HW2 & Hc2 & Hj2).
      refine (conj HW2 (conj _ Hj2)). congruence.
Qed.

(** Settling [p] inside its window. *)
Lemma window_close st key p r :
  in_window key p st ->
  settled (settle st p r) !! p = Some r /\
  inFlight (settle st p r) !! key = None /\
  invoked (settle st p r) = invoked st /\
  store (settle st p r) =
    match r with
    | inl d => set (now st) (store st) key d
    | inr _ => store st
    end.
Proof.
  intros ((Hw1 & Hw2) & Hfl & Hst).
  apply Hw1 in Hfl as [Hin Hs]. unfold settle. rewrite Hin, Hs. cbn.
  repeat split; try done.
  - by rewrite lookup_insert_eq.
  - by rewrite lookup_delete_eq.
Qed.

(** Entries are written only for keys that are being fetched, and such keys
    have no entry. *)
Lemma quiet_init : quiet (@init V E).
Proof. intros key p H. cbn in H. by rewrite lookup_empty in H. Qed.

Lemma quiet_getOrFetch st k : quiet st -> quiet (getOrFetch st k).2.
Proof.
  intros Hq key p. rewrite getOrFetch_store.
  destruct (decide (k = key)) as [->|Hne].
  - intros Hin.
    destruct (getOrFetch_cases st key)
      as [(d & _ & _ & Hf & _) | [(q & _ & _ & _ & Hf & _) | (Hget & _ & _ & _ & _)]].
    + rewrite Hf in Hin. rewrite get_miss_absent; eauto.
    + rewrite Hf in Hin. rewrite get_miss_absent; eauto.
    + by apply get_miss_gone.
  - rewrite get_store_other by done. intros Hin. apply (Hq key p).
    destruct (getOrFetch_cases st k)
      as [(d & _ & _ & Hf & _) | [(q & _ & _ & _ & Hf & _) | (_ & _ & _ & Hf & _)]];
      rewrite Hf in Hin; [done|done|].
    by rewrite lookup_insert_ne in Hin.
Qed.

Lemma quiet_settle st q r : quiet st -> quiet (settle st q r).
Proof.
  intros Hq key p. unfold settle.
  destruct (invoked st !! q) as [k|]; [|apply Hq].
  destruct (settled st !! q); [apply Hq|]. cbn.
  destruct (decide (k = key)) as [->|Hne].
  - by rewrite lookup_delete_eq.
  - rewrite lookup_delete_ne by done. intros Hin. apply Hq in Hin.
    destruct r as [d|e]; [|done]. unfold set. by rewrite lookup_insert_ne.
Qed.

(** A live entry stays as written: a call leaves it alone unless it reads
    it past its expiry, which deletes it; a settling promise never
    overwrites it. *)
Lemma entry_kept_by_call st key k (en : CacheEntry V) :
  store st !! key = Some en ->
  store (getOrFetch st k).2 !! key = Some en \/
  (k = key /\ (now st > expiresAt en)%Z /\ store (getOrFetch st k).2 !! key = None).
Proof.
  intros Hen. rewrite getOrFetch_store.
  destruct (decide (k = key)) as [->|Hne].
  - unfold get. rewrite Hen.
    destruct (Z.gtb_spec (now st) (expiresAt en)) as [Hgt|Hle]; cbn.
    + right. rewrite lookup_delete_eq. split; [done|]. split; [lia|done].
    + by left.
  - left. by rewrite get_store_other.
Qed.

Lemma entry_kept_by_settle st key q r (en : CacheEntry V) :
  wf st -> quiet st ->
  store st !! key = Some en ->
  store (settle st q r) !! key = Some en.
Proof.
  intros Hw Hq Hen. unfold settle.
  destruct (invoked st !! q) as [k|] eqn:Hk; [|done].
  destruct (settled st !! q) eqn:Hs; [done|]. cbn.
  assert (inFlight st !! k = Some q) as Hin by (apply Hw; done).
  apply Hq in Hin. assert (k <> key) as Hne by congruence.
  destruct r as [d|e]; [|done]. unfold set. by rewrite lookup_insert_ne.
Qed.

End FetchAttempt.

(* ===================================================================== *)
(** ** The cache: coalescing, failure, expiry *)
(* ===================================================================== *)

(** C3.  Coalescing.  Let a call of [getOrFetch] on [key] start the producer
    (promise [p]), and let any events follow in which [p] does not settle
    (further calls on [key] and on other keys, other promises settling, the
    clock moving) before [p] settles with [d].  Then the producer was invoked
    exactly once for [key] over the whole run, every further call on [key]
    joined [p], and all of these calls, the first included, resolve to
    [d] with [cacheHit = false]. *)
Theorem getOrFetch_coalesces {V E : Type} (st st1 st2 : State V E)
    (key : string) (p : promise) (evs : list (Event V E)) (d : V)
    (replies : list (string * Reply V)) :
  wf st ->
  getOrFetch st key = (Started p, st1) ->
  (forall r, Settle p r ∉ evs) ->
  exec st1 (evs ++ [Settle p (inl d)]) = (replies, st2) ->
  invocations key st2 = S (invocations key st) /\
  outcome st2 (Started p) = Some (inl (d, false)) /\
  (forall r, (key, r) ∈ replies ->
             r = Joined p /\ outcome st2 r = Some (inl (d, false))).
Proof.
  intros Hw Hg Hno Hex.
  destruct (started_window st key p st1 Hw Hg) as (HW1 & _ & Hc1).
  destruct (window_exec evs st1 key p HW1 Hno) as (HW2 & Hc2 & Hj).
  rewrite exec_app in Hex. cbn in Hex. injection Hex as Hrs Hst.
  rewrite app_nil_r in Hrs. subst replies st2.
  destruct (window_close _ key p (inl d) HW2) as (Hs & _ & Hi & _).
  assert (outcome (settle (exec st1 evs).2 p (inl d)) (Started p)
          = Some (inl (d, false))) as Hout.
  { cbn. by rewrite Hs. }
  split; [|split; [done|]].
  - unfold invocations in *. rewrite Hi. congruence.
  - intros r Hr. apply Hj in Hr as ->. by split.
Qed.

Lemma getOrFetch_coalesces_witness :
  let evs : list (Event nat string) :=
    [Call "country:france"; Tick 5; Call "country:spain"; Call "country:france"] in
  invocations "country:france"
    (exec (getOrFetch init "country:france").2 (evs ++ [Settle 0 (inl 7)])).2 = 1 /\
  (exec (getOrFetch init "country:france").2 (evs ++ [Settle 0 (inl 7)])).1 =
    [("country:france", Joined 0); ("country:spain", Started 1);
     ("country:france", Joined 0)]%string.
Proof.
  intros evs.
  destruct (getOrFetch_coalesces (V := nat) (E := string)
              init (getOrFetch init "country:france").2
              (exec (getOrFetch init "country:france").2 (evs ++ [Settle 0 (inl 7)])).2
              "country:france" 0 evs 7
              (exec (getOrFetch init "country:france").2 (evs ++ [Settle 0 (inl 7)])).1)
    as (H1 & _ & _).
  - apply wf_init.
  - reflexivity.
  - intros r Hr. unfold evs in Hr. repeat (apply elem_of_cons in Hr as [Hr|Hr]; [discriminate|]).
    by apply elem_of_nil in Hr.
  - by destruct (exec _ _).
  - split; [exact H1 | reflexivity].
Defined.

(** C5.  A failing producer.  In the setting of C3, let [p] settle with the
    error [e] instead.  The rejection writes nothing into the store, which
    holds no entry for [key]; the registration is cleared; the first caller
    and every caller that joined receive [e]; and the next [getOrFetch] on
    [key] invokes the producer again. *)
Theorem getOrFetch_failure_not_cached {V E : Type} (st st1 st2 : State V E)
    (key : string) (p : promise) (evs : list (Event V E)) (e : E)
    (replies : list (string * Reply V)) :
  wf st ->
  getOrFetch st key = (Started p, st1) ->
  (forall r, Settle p r ∉ evs) ->
  exec st1 evs = (replies, st2) ->
  let st3 := settle st2 p (inr e) in
  store st3 = store st2 /\
  store st3 !! key = None /\
  inFlight st3 !! key = None /\
  outcome st3 (Started p) = Some (inr e) /\
  (forall r, (key, r) ∈ replies -> outcome st3 r = Some (inr e)) /\
  (getOrFetch st3 key).1 = Started (length (invoked st3)) /\
  invocations key (getOrFetch st3 key).2 = S (invocations key st3).
Proof.
  intros Hw Hg Hno Hex st3.
  destruct (started_window st key p st1 Hw Hg) as (HW1 & _ & _).
  destruct (window_exec evs st1 key p HW1 Hno) as (HW2 & _ & Hj).
  rewrite Hex in HW2, Hj. cbn in HW2, Hj.
  destruct (window_close st2 key p (inr e) HW2) as (Hs & Hfl & Hi & Hsto).
  fold st3 in Hs, Hfl, Hi, Hsto.
  assert (store st3 !! key = None) as Hnone.
  { rewrite Hsto. apply HW2. }
  assert (outcome st3 (Started p) = Some (inr e)) as Hout.
  { cbn. by rewrite Hs. }
  assert (wf st3) as Hw3 by (apply wf_settle, HW2).
  repeat (split; [done|]). split.
  - intros r Hr. by apply Hj in Hr as ->.
  - destruct (getOrFetch_cases st3 key)
      as [(d & Hget & _) | [(q & _ & Hq & _) | (_ & _ & Hr & _ & Hinv)]].
    + rewrite get_miss_absent in Hget by done. discriminate.
    + congruence.
    + split; [done|]. unfold invocations. rewrite Hinv, filter_app, length_app. cbn.
      rewrite decide_True by done. cbn. lia.
Qed.

Lemma getOrFetch_failure_not_cached_witness :
  let st1 : State nat string := (getOrFetch init "country:atlantis").2 in
  let st3 := settle (exec st1 [Call "country:atlantis"]).2 0 (inr "timeout"%string) in
  store st3 = ∅ /\
  (getOrFetch st3 "country:atlantis").1 = Started 1.
Proof.
  intros st1 st3.
  destruct (getOrFetch_failure_not_cached (V := nat) (E := string)
              init st1 (exec st1 [Call "country:atlantis"]).2
              "country:atlantis" 0 [Call "country:atlantis"] "timeout"%string
              (exec st1 [Call "country:atlantis"]).1)
    as (H1 & _ & _ & _ & _ & H6 & _).
  - apply wf_init.
  - reflexivity.
  - intros r Hr. apply elem_of_cons in Hr as [Hr|Hr]; [discriminate|].
    by apply elem_of_nil in Hr.
  - by destruct (exec _ _).
  - split; [exact H1 | exact H6].
Defined.

(** C8.  Expiry.  An entry written at [t0] ([set], or the [then] callback of
    a producer settling at [t0]) is returned as a hit by [get] and by
    [getOrFetch] at [t0 + 59 min], the store being left as it is; at
    [t0 + 61 min] both report a miss and the entry is deleted. *)
Theorem ttl_hit_at_59_miss_at_61 {V E : Type} (st : State V E) (key : string)
    (t0 : Z) (d : V) :
  store st !! key = Some {| data := d; expiresAt := (t0 + TTL_MS)%Z |} ->
  let t59 := (t0 + 59 * 60 * 1000)%Z in
  let t61 := (t0 + 61 * 60 * 1000)%Z in
  set t0 (store st) key d !! key = store st !! key /\
  get t59 (store st) key = (Some d, store st) /\
  get t61 (store st) key = (None, delete key (store st)) /\
  (now st = t59 ->
     (getOrFetch st key).1 = Hit d /\ (getOrFetch st key).2 = st) /\
  (now st = t61 ->
     (forall d', (getOrFetch st key).1 <> Hit d') /\
     store (getOrFetch st key).2 = delete key (store st)).
Proof.
  intros Hk t59 t61.
  assert (get t59 (store st) key = (Some d, store st)) as H59.
  { unfold get. rewrite Hk. cbn. unfold t59, TTL_MS.
    destruct (Z.gtb_spec (t0 + 59 * 60 * 1000) (t0 + 60 * 60 * 1000)) as [Hgt|_]; [lia|done]. }
  assert (get t61 (store st) key = (None, delete key (store st))) as H61.
  { unfold get. rewrite Hk. cbn. unfold t61, TTL_MS.
    destruct (Z.gtb_spec (t0 + 61 * 60 * 1000) (t0 + 60 * 60 * 1000)) as [_|Hle]; [done|lia]. }
  split; [|split; [done|split; [done|split]]].
  - unfold set. by rewrite lookup_insert_eq.
  - intros Hnow. unfold getOrFetch. rewrite Hnow, H59. split; [done|].
    destruct st; cbn in *. by subst.
  - intros Hnow. rewrite getOrFetch_store, Hnow, H61. split; [|done].
    intros d'. unfold getOrFetch. rewrite Hnow, H61.
    by destruct (inFlight st !! key).
Qed.

Lemma ttl_hit_at_59_miss_at_61_witness :
  let st : State nat string :=
    tick (settle (getOrFetch init "country:peru").2 0 (inl 7)) (59 * 60 * 1000) in
  (getOrFetch st "country:peru").1 = Hit 7 /\
  get (61 * 60 * 1000) (store st) "country:peru" = (None, delete "country:peru" (store st)).
Proof.
  intros st.
  destruct (ttl_hit_at_59_miss_at_61 st "country:peru" 0 7) as (_ & _ & H3 & H4 & _).
  - vm_compute. reflexivity.
  - split; [apply H4; reflexivity | exact H3].
Defined.

(* ===================================================================== *)
(** ** Normalisation *)
(* ===================================================================== *)

Lemma Qeq_bool_false_of_lt (a b : Q) : (a < b)%Q -> Qeq_bool (b - a) 0 = false.
Proof.
  intros Hlt. destruct (Qeq_bool (b - a) 0) eqn:Heq; [|done].
  apply Qeq_bool_eq in Heq. lra.
Qed.

Lemma round_bounds (x : Q) :
  (x - (1 # 2) < inject_Z (Qfloor (x + (1 # 2))) <= x + (1 # 2))%Q.
Proof.
  split.
  - pose proof (Qlt_floor (x + (1 # 2))) as H.
    rewrite inject_Z_plus in H. change (inject_Z 1) with 1%Q in H. lra.
  - apply Qfloor_le.
Qed.

(** The value [normalize] returns for a number, with bounds [mn < mx]:
    the rounding of the clamped ratio, or of its complement, scaled to 100. *)
Lemma normalize_number (v mn mx : Q) (hib : bool) (dflt : num) :
  (mn < mx)%Q ->
  normalize (Num (Fin v)) (Fin mn) (Fin mx) hib dflt =
  Math_round (Fin ((if hib
                    then (clampQ v mn mx - mn) / (mx - mn)
                    else 1 - (clampQ v mn mx - mn) / (mx - mn)) * 100)).
Proof.
  intros Hlt. unfold normalize.
  change (is_null (Num (Fin v)) || is_undefined (Num (Fin v)) || isNaN (Num (Fin v)))
    with false.
  cbv iota. unfold Math_max, Math_min, nsub, ndiv, nmul, num_lift2, ToNumber.
  fold (clampQ v mn mx).
  rewrite (Qeq_bool_false_of_lt mn mx Hlt).
  by destruct hib.
Qed.

(** C9, as stated, fails: bounds may lie so far apart that their
    difference is no finite double.  With [min = -1e308] and [max = 1e308]
    the code computes [max - min] as [Infinity]; at [v = 1e308] the ratio is
    [Infinity / Infinity], and both orientations return [NaN]. *)
#[warnings="-inexact-float"]
Lemma normalize_overflow_not_complementary :
  let high := Binary64.normalize_number 1e308 (-1e308) 1e308 true 50 in
  let low := Binary64.normalize_number 1e308 (-1e308) 1e308 false 50 in
  is_nan high = true /\ is_nan low = true /\
  (abs (high + low - 100) <=? 1)%float = false.
Proof. vm_compute. repeat split; reflexivity. Qed.

(** C9, amended.  For every double [v] and bounds [min < max] of finite
    span (doubles whose difference is at most [Number.MAX_VALUE]), the two
    orientations of [normalize] add up to 100 within one unit. *)
Theorem normalize_complementary (v mn mx : Q) (dflt : num) :
  binary64 v -> finite_span mn mx ->
  within 1 (normalize (Num (Fin v)) (Fin mn) (Fin mx) true dflt +#
            normalize (Num (Fin v)) (Fin mn) (Fin mx) false dflt)
           (Fin 100).
Proof.
  intros _ (_ & _ & Hlt & _). rewrite !normalize_number by done.
  set (r := ((clampQ v mn mx - mn) / (mx - mn))%Q).
  unfold Math_round, nadd, num_lift2, within.
  pose proof (round_bounds (r * 100)) as [Ha1 Ha2].
  pose proof (round_bounds ((1 - r) * 100)) as [Hb1 Hb2].
  apply Qabs_Qle_condition. split; lra.
Qed.

Lemma normalize_complementary_witness :
  finite_span 0 300 /\
  within 1 (normalize (Num (Fin 100)) (Fin 0) (Fin 300) true (Fin 50) +#
            normalize (Num (Fin 100)) (Fin 0) (Fin 300) false (Fin 50))
           (Fin 100).
Proof.
  assert (finite_span 0 300) as Hspan.
  { split; [by exists 0%Z, 0%Z|]. split; [by exists 300%Z, 0%Z|].
    split; [reflexivity | by vm_compute]. }
  split; [exact Hspan|].
  apply (normalize_complementary 100 0 300 (Fin 50)); [by exists 100%Z, 0%Z | exact Hspan].
Defined.

(** The tolerance is needed: on a half-way ratio both orientations round up. *)
Example normalize_sum_101 :
  normalize (Num (Fin 1.5)) (Fin 0) (Fin 300) true (Fin 50) +#
  normalize (Num (Fin 1.5)) (Fin 0) (Fin 300) false (Fin 50) = Fin 101.
Proof. reflexivity. Qed.

(** In doubles too. *)
Example binary64_sum_101 :
  (Binary64.normalize_number 1.5 0 300 true 50 +
   Binary64.normalize_number 1.5 0 300 false 50)%float = 101%float.
Proof. vm_compute. reflexivity. Qed.

(* ===================================================================== *)
(** ** Dynamic weights *)
(* ===================================================================== *)

(** The six profiles, as [getDynamicWeights] returns them. *)
Lemma getDynamicWeights_table :
  getDynamicWeights "low" "short" =
    {| w_travel_risk_score := Fin 0.476; w_health_infrastructure_score := Fin 0.158;
       w_environmental_stability_score := Fin 0.366 |} /\
  getDynamicWeights "low" "long" =
    {| w_travel_risk_score := Fin 0.426; w_health_infrastructure_score := Fin 0.338;
       w_environmental_stability_score := Fin 0.236 |} /\
  getDynamicWeights "moderate" "short" =
    {| w_travel_risk_score := Fin 0.400; w_health_infrastructure_score := Fin 0.270;
       w_environmental_stability_score := Fin 0.330 |} /\
  getDynamicWeights "moderate" "long" =
    {| w_travel_risk_score := Fin 0.350; w_health_infrastructure_score := Fin 0.450;
       w_environmental_stability_score := Fin 0.200 |} /\
  getDynamicWeights "high" "short" =
    {| w_travel_risk_score := Fin 0.316; w_health_infrastructure_score := Fin 0.236;
       w_environmental_stability_score := Fin 0.448 |} /\
  getDynamicWeights "high" "long" =
    {| w_travel_risk_score := Fin 0.266; w_health_infrastructure_score := Fin 0.416;
       w_environmental_stability_score := Fin 0.318 |}.
Proof. repeat split; vm_compute; reflexivity. Qed.

Lemma valid_pairs (rt d : string) :
  rt ∈ VALID_RISK -> d ∈ VALID_DURATION ->
  (rt = "low" \/ rt = "moderate" \/ rt = "high")%string /\
  (d = "short" \/ d = "long")%string.
Proof.
  unfold VALID_RISK, VALID_DURATION. intros Hr Hd.
  repeat (apply elem_of_cons in Hr as [Hr|Hr]).
  all: repeat (apply elem_of_cons in Hd as [Hd|Hd]).
  all: try (by apply elem_of_nil in Hr).
  all: try (by apply elem_of_nil in Hd).
  all: auto.
Qed.

(** C7.  For each of the six pairs of a risk tolerance and a duration, the
    triple returned by [getDynamicWeights] has non-negative components whose
    sum is within [1/1000] of 1. *)
Theorem getDynamicWeights_valid_profile (rt d : string) :
  rt ∈ VALID_RISK -> d ∈ VALID_DURATION ->
  valid_profile (getDynamicWeights rt d).
Proof.
  intros Hr Hd.
  destruct (valid_pairs rt d Hr Hd) as [[-> | [-> | ->]] [-> | ->]];
    vm_compute; repeat split; discriminate.
Qed.

Lemma getDynamicWeights_valid_profile_witness :
  valid_profile (getDynamicWeights "high" "long").
Proof.
  apply getDynamicWeights_valid_profile.
  - unfold VALID_RISK. repeat constructor.
  - unfold VALID_DURATION. repeat constructor.
Defined.

(* ===================================================================== *)
(** ** Scoring a dataset without data *)
(* ===================================================================== *)

Lemma normalize_missing (v : jsval) (mn mx : num) (hib : bool) (dflt : num) :
  missing v -> normalize v mn mx hib dflt = dflt.
Proof. by intros [-> | ->]. Qed.

Lemma weatherSeverityPenalty_missing (v : jsval) :
  missing v -> weatherSeverityPenalty v = Fin 0.
Proof. by intros [-> | ->]. Qed.

Lemma travelRisk_absent (d : CountryData) :
  all_absent d -> score (computeTravelRiskScore d) = Fin 58.
Proof.
  intros (Hw & Ha & Hadv & _). unfold computeTravelRiskScore.
  rewrite (normalize_missing _ _ _ _ _ Ha), (normalize_missing _ _ _ _ _ Hadv).
  destruct (weather d) as [w|]; [|reflexivity].
  destruct Hw as (Ht & _ & _ & _ & _ & Hid). cbn [opt_get].
  rewrite (weatherSeverityPenalty_missing _ Hid).
  by destruct Ht as [-> | ->].
Qed.

Lemma healthInfrastructure_absent (lg : num -> num) (d : CountryData) :
  all_absent d -> score (computeHealthInfrastructureScore lg d) = Fin 50.
Proof.
  intros (_ & _ & _ & Hl & He & Hp). unfold computeHealthInfrastructureScore.
  rewrite (normalize_missing _ _ _ _ _ Hl), (normalize_missing _ _ _ _ _ He).
  by destruct Hp as [-> | ->].
Qed.

Lemma environmentalStability_absent (d : CountryData) :
  all_absent d -> score (computeEnvironmentalStabilityScore d) = Fin 50.
Proof.
  intros (Hw & Ha & _). unfold computeEnvironmentalStabilityScore.
  rewrite (normalize_missing _ _ _ _ _ Ha).
  destruct (weather d) as [w|]; [|reflexivity].
  destruct Hw as (_ & Hmin & Hmax & Hhum & Hwind & _). cbn [opt_get].
  rewrite Hmin, Hmax, Hhum, (normalize_missing _ _ _ _ _ Hwind).
  reflexivity.
Qed.

Lemma scoreCountry_Some (lg : num -> num) (h : heap) (l : loc) (d : CountryData)
    (rt dur : string) :
  h !! l = Some d ->
  scoreCountry lg h l rt dur =
  Some ({| travel_risk_score := computeTravelRiskScore d;
           health_infrastructure_score := computeHealthInfrastructureScore lg d;
           environmental_stability_score := computeEnvironmentalStabilityScore d;
           composite_score :=
             compositeOf (computeTravelRiskScore d)
               (computeHealthInfrastructureScore lg d)
               (computeEnvironmentalStabilityScore d) (getDynamicWeights rt dur);
           dynamic_weights := getDynamicWeights rt dur |},
        <[l := attachProfile d rt dur]> h).
Proof. intros H. unfold scoreCountry. by rewrite H. Qed.

(** C1, as stated, fails: with every source absent the travel risk score is
    58 (the weather-event component is 100 when there is no condition code),
    and the composite follows it. *)
Lemma all_absent_not_all_50 :
  all_absent absentData /\
  exists res h',
    scoreCountry (fun _ => NaN) {[ 0 := absentData ]} 0 "moderate" "short"
      = Some (res, h') /\
    score (travel_risk_score res) = Fin 58 /\
    score (travel_risk_score res) <> Fin 50 /\
    composite_score res = Fin 53 /\
    composite_score res <> Fin 50.
Proof.
  split.
  - unfold all_absent, missing. cbn. tauto.
  - eexists _, _. split; [reflexivity|]. by vm_compute.
Qed.

(** C1, amended.  For every dataset in which every raw metric is absent
    (see [all_absent]) and each of the six pairs: travel risk is 58, health
    infrastructure 50, environmental stability 50, and the composite is 54
    for low/short, 52 for high/long and 53 for the four other pairs. *)
Theorem all_absent_scores (lg : num -> num) (h : heap) (l : loc)
    (d : CountryData) (rt dur : string) :
  all_absent d -> h !! l = Some d ->
  rt ∈ VALID_RISK -> dur ∈ VALID_DURATION ->
  exists res h',
    scoreCountry lg h l rt dur = Some (res, h') /\
    score (travel_risk_score res) = Fin 58 /\
    score (health_infrastructure_score res) = Fin 50 /\
    score (environmental_stability_score res) = Fin 50 /\
    composite_score res =
      Fin (if (String.eqb rt "low" && String.eqb dur "short")%bool then 54
           else if (String.eqb rt "high" && String.eqb dur "long")%bool then 52
           else 53).
Proof.
  intros Hd Hl Hrt Hdur. rewrite (scoreCountry_Some lg h l d rt dur Hl).
  eexists _, _. split; [reflexivity|]. cbn [travel_risk_score
    health_infrastructure_score environmental_stability_score composite_score].
  pose proof (travelRisk_absent d Hd) as H1.
  pose proof (healthInfrastructure_absent lg d Hd) as H2.
  pose proof (environmentalStability_absent d Hd) as H3.
  repeat (split; [done|]).
  unfold compositeOf. rewrite H1, H2, H3.
  destruct (valid_pairs rt dur Hrt Hdur) as [[-> | [-> | ->]] [-> | ->]];
    vm_compute; reflexivity.
Qed.

Lemma all_absent_scores_witness :
  exists res h',
    scoreCountry (fun _ => NaN) {[ 0 := absentData ]} 0 "low" "short" = Some (res, h') /\
    score (travel_risk_score res) = Fin 58 /\
    composite_score res = Fin 54.
Proof.
  destruct (all_absent_scores (fun _ => NaN) {[ 0 := absentData ]} 0 absentData
              "low" "short") as (res & h' & H0 & H1 & _ & _ & H4).
  - unfold all_absent, missing. cbn. tauto.
  - reflexivity.
  - unfold VALID_RISK. repeat constructor.
  - unfold VALID_DURATION. repeat constructor.
  - exists res, h'. split; [exact H0|]. split; [exact H1 | exact H4].
Defined.

(** The members [temp_min], [temp_max] and [humidity_pct] are tested against
    [undefined] only: when they are [null] the spread is taken as 0 and the
    humidity as 0, and the environmental score is 55. *)
Example null_weather_members_score :
  score (computeEnvironmentalStabilityScore nullWeatherData) = Fin 55 /\
  components (computeEnvironmentalStabilityScore nullWeatherData) =
    [ ("air_quality_stability", Fin 50); ("temperature_volatility", Fin 100);
      ("wind_comfort", Fin 50); ("humidity_comfort", Fin 18) ]%string.
Proof. split; reflexivity. Qed.

(* ===================================================================== *)
(** ** The composite and the rounding of the weights *)
(* ===================================================================== *)

(** C6, as stated, fails: [scoreCountry] blends the scores with the weights
    that [getDynamicWeights] has already rounded.  On [sampleData] with
    high/long the scores are 54, 81 and 36; the rounded weights give
    60.508, hence 60, the unrounded ones 59.49..., hence 59. *)
Lemma composite_differs_from_unrounded :
  exists res h',
    scoreCountry (fun _ => NaN) {[ 0 := sampleData ]} 0 "high" "long" = Some (res, h') /\
    score (travel_risk_score res) = Fin 54 /\
    score (health_infrastructure_score res) = Fin 81 /\
    score (environmental_stability_score res) = Fin 36 /\
    composite_score res = Fin 60 /\
    compositeUnrounded (score (travel_risk_score res))
      (score (health_infrastructure_score res))
      (score (environmental_stability_score res)) "high" "long" = Fin 59 /\
    composite_score res <>
      compositeUnrounded (score (travel_risk_score res))
        (score (health_infrastructure_score res))
        (score (environmental_stability_score res)) "high" "long".
Proof.
  eexists _, _. split; [reflexivity|]. by vm_compute.
Qed.

Lemma getDynamicWeights_rounds (rt dur : string) :
  getDynamicWeights rt dur =
  let '(w1, w2, w3) := adjustedWeights rt dur in
  {| w_travel_risk_score := toFixed3 w1;
     w_health_infrastructure_score := toFixed3 w2;
     w_environmental_stability_score := toFixed3 w3 |}.
Proof. unfold getDynamicWeights. by destruct (adjustedWeights rt dur) as [[w1 w2] w3]. Qed.

(* ===================================================================== *)
(** ** The evaluations above, in binary64 *)
(* ===================================================================== *)

(** On the two datasets used above, and for each of the six pairs, the
    double-precision computation yields the scores of the exact model. *)
Lemma binary64_agrees (lg64 : float -> float) (lg : num -> num)
    (d : CountryData) (rt dur : string) :
  d = absentData \/ d = sampleData ->
  rt ∈ VALID_RISK -> dur ∈ VALID_DURATION ->
  Binary64.scoreCountry lg64 d rt dur = exactScores lg d rt dur.
Proof.
  intros Hd Hrt Hdur.
  destruct (valid_pairs rt dur Hrt Hdur) as [[-> | [-> | ->]] [-> | ->]];
    destruct Hd as [-> | ->]; vm_compute; reflexivity.
Qed.

(** In doubles too, the dataset without data scores 58, 50, 50 and 53. *)
Example binary64_all_absent (lg64 : float -> float) :
  Binary64.scoreCountry lg64 absentData "moderate" "short"
  = (58, 50, 50, 53)%float.
Proof. vm_compute. reflexivity. Qed.

(** In doubles too, [sampleData] has composite 60 where the unrounded
    weights give 59. *)
Example binary64_rounded_weights (lg64 : float -> float) :
  Binary64.scoreCountry lg64 sampleData "high" "long" = (54, 81, 36, 60)%float /\
  Binary64.compositeOf 54 81 36 (Binary64.adjustedWeights "high" "long") = 59%float.
Proof. split; vm_compute; reflexivity. Qed.

(** In doubles too, the six weight triples are the roundings found above. *)
Lemma binary64_weights (rt dur : string) :
  rt ∈ VALID_RISK -> dur ∈ VALID_DURATION ->
  Binary64.getDynamicWeights rt dur =
  (Binary64.of_num (w_travel_risk_score (getDynamicWeights rt dur)),
   Binary64.of_num (w_health_infrastructure_score (getDynamicWeights rt dur)),
   Binary64.of_num (w_environmental_stability_score (getDynamicWeights rt dur))).
Proof.
  intros Hrt Hdur.
  destruct (valid_pairs rt dur Hrt Hdur) as [[-> | [-> | ->]] [-> | ->]];
    vm_compute; reflexivity.
Qed.

(** In doubles too, each triple is non-negative and its sum, as JavaScript
    adds it, is within 0.001 of 1. *)
#[warnings="-inexact-float"]
Lemma binary64_valid_profile (rt dur : string) :
  rt ∈ VALID_RISK -> dur ∈ VALID_DURATION ->
  let '(w1, w2, w3) := Binary64.getDynamicWeights rt dur in
  (0 <=? w1)%float = true /\ (0 <=? w2)%float = true /\ (0 <=? w3)%float = true /\
  (abs (w1 + w2 + w3 - 1) <=? 0.001)%float = true.
Proof.
  intros Hrt Hdur.
  destruct (valid_pairs rt dur Hrt Hdur) as [[-> | [-> | ->]] [-> | ->]];
    vm_compute; repeat split; reflexivity.
Qed.

(* ===================================================================== *)
(** ** Cached datasets and [scoreCountry] *)
(* ===================================================================== *)

(** C2, as stated, fails.  A dataset is cached by reference; scoring a
    request writes [_riskTolerance] and [_duration] into it while its entry
    is live, and the next hit hands out the object so changed. *)
Lemma cached_dataset_is_mutated :
  let st : State loc string :=
    settle (getOrFetch init "country:atlantis").2 0 (inl 7) in
  let h : heap := {[ 7 := absentData ]} in
  store st !! "country:atlantis"%string = Some {| data := 7; expiresAt := TTL_MS |} /\
  exists res h',
    scoreCountry (fun _ => NaN) h 7 "low" "long" = Some (res, h') /\
    (getOrFetch st "country:atlantis").1 = Hit 7 /\
    h' !! 7 <> h !! 7 /\
    (_riskTolerance <$> h !! 7) = Some None /\
    (_riskTolerance <$> h' !! 7) = Some (Some "low"%string).
Proof.
  intros st h. split; [by vm_compute|].
  eexists _, _. split; [reflexivity|]. split; [by vm_compute|].
  unfold h. rewrite lookup_insert_eq, lookup_singleton_eq. cbn.
  split; [|done]. intros [=].
Qed.

Lemma scoreAll_heap (lg : num -> num) (validData : list loc) (rt dur : string)
    (h h' : heap) (rs : list ScoreResult) :
  scoreAll lg h validData rt dur = Some (rs, h') ->
  forall (l : loc) (d : CountryData),
    h !! l = Some d ->
    exists d', h' !! l = Some d' /\ same_data d d' /\
               (l ∉ validData -> d' = d).
Proof.
  revert h h' rs. induction validData as [|c rest IH]; intros h h' rs Hs l d Hl.
  - injection Hs as <- <-. exists d. by repeat split.
  - cbn in Hs. destruct (h !! c) as [dc|] eqn:Hc.
    2:{ unfold scoreCountry in Hs. by rewrite Hc in Hs. }
    rewrite (scoreCountry_Some lg h c dc rt dur Hc) in Hs.
    destruct (scoreAll lg _ rest rt dur) as [[rs2 h2]|] eqn:Hrest; [|done].
    injection Hs as <- <-.
    destruct (decide (c = l)) as [->|Hne].
    + assert (dc = d) as -> by congruence.
      destruct (IH _ _ _ Hrest l (attachProfile d rt dur)) as (d' & Hd' & Hsame & _).
      { by rewrite lookup_insert_eq. }
      exists d'. split; [done|]. split.
      * unfold same_data in *. cbn in Hsame. done.
      * intros Hnot. exfalso. apply Hnot. by left.
    + destruct (IH _ _ _ Hrest l d) as (d' & Hd' & Hsame & Hfr).
      { by rewrite lookup_insert_ne. }
      exists d'. split; [done|]. split; [done|].
      intros Hnot. apply Hfr. intros Hin. apply Hnot. by right.
Qed.

(** C2, amended.  [scoreCountry] changes the dataset it is handed in two
    members only, [_riskTolerance] and [_duration], which it sets to the
    request's values; every member that carries data keeps its value, every
    other object is untouched, and so it is for the whole scoring step of a
    request. *)
Theorem scoring_preserves_cached_data (lg : num -> num) (h : heap) (l : loc)
    (d : CountryData) (rt dur : string) :
  h !! l = Some d ->
  (exists res,
     scoreCountry lg h l rt dur = Some (res, <[l := attachProfile d rt dur]> h)) /\
  same_data d (attachProfile d rt dur) /\
  _riskTolerance (attachProfile d rt dur) = Some rt /\
  _duration (attachProfile d rt dur) = Some dur /\
  (forall l', l' <> l -> <[l := attachProfile d rt dur]> h !! l' = h !! l') /\
  (forall validData rs h',
     scoreAll lg h validData rt dur = Some (rs, h') ->
     exists d', h' !! l = Some d' /\ same_data d d' /\ (l ∉ validData -> d' = d)).
Proof.
  intros Hl. split; [|split; [|split; [|split; [|split]]]].
  - eexists. by apply scoreCountry_Some.
  - by repeat split.
  - done.
  - done.
  - intros l' Hne. by rewrite lookup_insert_ne.
  - intros validData rs h' Hs. by apply (scoreAll_heap lg validData rt dur h h' rs).
Qed.

Lemma scoring_preserves_cached_data_witness :
  same_data absentData (attachProfile absentData "low" "long") /\
  exists res,
    scoreCountry (fun _ => NaN) {[ 7 := absentData ]} 7 "low" "long" =
    Some (res, <[7 := attachProfile absentData "low" "long"]> {[ 7 := absentData ]}).
Proof.
  destruct (scoring_preserves_cached_data (fun _ => NaN) {[ 7 := absentData ]} 7
              absentData "low" "long") as (H1 & H2 & _).
  - reflexivity.
  - split; [exact H2 | exact H1].
Defined.

(* ===================================================================== *)
(** ** The analyze route: de-duplication *)
(* ===================================================================== *)

Lemma fold_Set_add (l acc : list string) :
  fold_left Set_add l acc = acc ++ filter (fun y => y ∉ acc) (first_seen l).
Proof.
  revert acc. induction l as [|x r IH]; intros acc; cbn [fold_left first_seen].
  - by rewrite filter_nil, app_nil_r.
  - rewrite IH. unfold Set_add. case_bool_decide as Hx.
    + rewrite filter_cons_False by (intros Hn; by apply Hn).
      rewrite list_filter_filter. f_equal. apply list_filter_iff.
      intros y. split; [|tauto]. intros Hy. split; [done|]. congruence.
    + rewrite filter_cons_True by done.
      rewrite list_filter_filter, <- app_assoc. cbn. do 2 f_equal.
      apply list_filter_iff. intros y.
      rewrite elem_of_app, list_elem_of_singleton. tauto.
Qed.

(** What the route's de-duplication does: it keeps the first occurrence of
    each name, names being compared exactly. *)
Lemma new_Set_first_seen (l : list string) : new_Set l = first_seen l.
Proof.
  unfold new_Set. rewrite fold_Set_add. cbn.
  induction (first_seen l) as [|y r IH]; [done|].
  rewrite filter_cons_True by apply not_elem_of_nil. by rewrite IH.
Qed.

Lemma first_seen_elem (l : list string) (x : string) : x ∈ first_seen l <-> x ∈ l.
Proof.
  induction l as [|y r IH]; cbn; [done|].
  rewrite !elem_of_cons, list_elem_of_filter, IH.
  destruct (decide (x = y)); tauto.
Qed.

Lemma first_seen_NoDup (l : list string) : NoDup (first_seen l).
Proof.
  induction l as [|y r IH]; cbn; [constructor|].
  constructor.
  - rewrite list_elem_of_filter. tauto.
  - by apply NoDup_filter.
Qed.

(** C4.  The route trims the names and removes exact duplicates only: on
    France, france, Spain (a request that passes validation) the list of
    unique names it goes on to fetch keeps both France and france, two
    entries equal up to case.  Both are looked up under one cache key. *)
Theorem dedup_keeps_case_variants :
  validateInput caseDuplicateBody = Normal [] /\
  exists replies st',
    post caseDuplicateBody init =
      (AwaitingAll "low" "short" ["France"; "france"; "Spain"]%string replies, st') /\
    toLowerCase "France" = toLowerCase "france" /\
    "France"%string <> "france"%string /\
    replies = [ ("country:france", Started 0); ("country:france", Joined 0);
                ("country:spain", Started 1) ]%string.
Proof.
  split; [reflexivity|]. eexists _, _. split; [by vm_compute|].
  split; [reflexivity|]. split; [discriminate|reflexivity].
Qed.

(* ===================================================================== *)
(** ** The analyze route: validation *)
(* ===================================================================== *)

Lemma bad_entry_false (c : json) :
  bad_entry c = false <-> exists s, c = JString s /\ trim s <> EmptyString.
Proof.
  destruct c; cbn; try (split; [discriminate | by intros (s & [=] & _)]).
  rewrite bool_decide_eq_false. split.
  - intros H. by eexists.
  - by intros (s' & [= <-] & H).
Qed.

Lemma countriesErrors_nil (c : json) : countriesErrors c = [] <-> countries_ok c.
Proof.
  unfold countriesErrors, countries_ok, MIN_COUNTRIES, MAX_COUNTRIES.
  destruct c; try (split; [discriminate | by intros (items & [=] & _)]).
  destruct (Nat.ltb_spec (length items) 3) as [Hlt|Hge].
  { split; [discriminate|]. intros (it & [= <-] & Hlen & _). lia. }
  destruct (Nat.ltb_spec 10 (length items)) as [Hgt|Hle].
  { split; [discriminate|]. intros (it & [= <-] & Hlen & _). lia. }
  destruct (existsb bad_entry items) eqn:Hex.
  - split; [discriminate|]. intros (it & [= <-] & _ & Hall).
    apply existsb_exists in Hex as (x & Hin & Hbad).
    apply list_elem_of_In, Hall, bad_entry_false in Hin. congruence.
  - split; [|done]. intros _. exists items. split; [done|]. split; [lia|].
    intros x Hx. apply bad_entry_false.
    destruct (bad_entry x) eqn:Hb; [|done].
    assert (existsb bad_entry items = true) as Hc; [|congruence].
    apply existsb_exists. exists x. split; [by apply list_elem_of_In|done].
Qed.

Lemma includes_lowered (allowed : list string) (v : json) (o : option string) :
  lowered v = Normal o -> (includes allowed o = true <-> choice_ok allowed v).
Proof.
  unfold choice_ok. intros Hl. destruct v; cbn in Hl.
  5:{ injection Hl as <-. cbn. rewrite bool_decide_eq_true. split.
      - intros H. by eexists.
      - by intros (s' & [= <-] & H). }
  all: try (injection Hl as <-; cbn; split; [discriminate | by intros (s & [=] & _)]).
  destruct (member "toLowerCase" members); try discriminate;
    injection Hl as <-; cbn; (split; [discriminate | by intros (s & [=] & _)]).
Qed.

(** When [validateInput] returns, it returns no error exactly on the valid
    bodies. *)
Lemma validateInput_nil (b : Body) (errors : list ValidationError) :
  validateInput b = Normal errors -> (errors = [] <-> valid_body b).
Proof.
  unfold validateInput, valid_body.
  destruct (lowered (riskTolerance b)) as [rt|] eqn:Hrt; [|discriminate].
  destruct (lowered (duration b)) as [d|] eqn:Hd; [|discriminate].
  pose proof (includes_lowered VALID_RISK _ _ Hrt) as Hr.
  pose proof (includes_lowered VALID_DURATION _ _ Hd) as Hdu.
  pose proof (countriesErrors_nil (countries b)) as Hc.
  intros [= <-].
  destruct (includes VALID_RISK rt), (includes VALID_DURATION d).
  - rewrite Hc. tauto.
  - split; [intros H; by apply app_eq_nil in H as [_ [=]] | ].
    intros (_ & _ & H). apply Hdu in H. discriminate.
  - split; [intros H; by apply app_eq_nil in H as [_ [=]] | ].
    intros (_ & H & _). apply Hr in H. discriminate.
  - split; [intros H; by apply app_eq_nil in H as [_ [=]] | ].
    intros (_ & H & _). apply Hr in H. discriminate.
Qed.

(** Whenever [validateInput] returns on an invalid body, the handler answers
    400 with a non-empty list of errors and leaves the cache as it is: no
    lookup, no producer invoked, nothing scored. *)
Lemma invalid_body_bad_request (b : Body) (errors : list ValidationError)
    (st : State loc string) :
  validateInput b = Normal errors -> ~ valid_body b ->
  errors <> [] /\ post b st = (BadRequest errors, st).
Proof.
  intros Hv Hnot. pose proof (validateInput_nil b errors Hv) as Hnil.
  unfold post. rewrite Hv. destruct errors as [|e errs]; [tauto|]. by split.
Qed.

(** C10.  A body whose [riskTolerance] is an object with a member
    [toLowerCase] that is not a function is invalid, yet it gets no 400:
    the optional call in [validateInput] raises, and the handler ends with
    the exception.  The cache is left as it is. *)
Theorem uncallable_member_escapes_validation (st : State loc string) :
  ~ valid_body uncallableMemberBody /\
  validateInput uncallableMemberBody = Throw /\
  post uncallableMemberBody st = (Rejected, st) /\
  forall errors, post uncallableMemberBody st <> (BadRequest errors, st).
Proof.
  split; [|split; [reflexivity|split; [reflexivity|discriminate]]].
  intros (_ & (s & [=] & _) & _).
Qed.

(* ===================================================================== *)
(** * Further properties *)
(* ===================================================================== *)

(* ===================================================================== *)
(** ** Normalisation: range, order, degenerate bounds *)
(* ===================================================================== *)

Lemma Qle_bool_false (a b : Q) : Qle_bool a b = false -> (b < a)%Q.
Proof.
  intros H. apply Qnot_le_lt. intros Hle. apply Qle_bool_iff in Hle. congruence.
Qed.

Ltac case_Qle :=
  repeat match goal with
  | |- context [Qle_bool ?a ?b] =>
      lazymatch a with context [Qle_bool _ _] => fail | _ => idtac end;
      lazymatch b with context [Qle_bool _ _] => fail | _ => idtac end;
      let H := fresh "Hc" in
      destruct (Qle_bool a b) eqn:H;
      [apply Qle_bool_iff in H | apply Qle_bool_false in H]
  end.

Lemma clampQ_bounds (v mn mx : Q) :
  (mn <= mx)%Q -> (mn <= clampQ v mn mx <= mx)%Q.
Proof. intros H. unfold clampQ. case_Qle; lra. Qed.

Lemma clampQ_mono (v v' mn mx : Q) :
  (v <= v')%Q -> (clampQ v mn mx <= clampQ v' mn mx)%Q.
Proof. intros H. unfold clampQ. case_Qle; lra. Qed.

Lemma clampQ_comp (v v' mn mx : Q) :
  (v == v')%Q -> (clampQ v mn mx == clampQ v' mn mx)%Q.
Proof. intros H. unfold clampQ. case_Qle; lra. Qed.

Lemma ratio_bounds (c mn mx : Q) :
  (mn < mx)%Q -> (mn <= c <= mx)%Q -> (0 <= (c - mn) / (mx - mn) <= 1)%Q.
Proof.
  intros Hlt [H1 H2]. split.
  - apply Qle_shift_div_l; lra.
  - apply Qle_shift_div_r; lra.
Qed.

Lemma ratio_mono (c c' mn mx : Q) :
  (mn < mx)%Q -> (c <= c')%Q -> ((c - mn) / (mx - mn) <= (c' - mn) / (mx - mn))%Q.
Proof.
  intros Hlt H. unfold Qdiv. apply Qmult_le_compat_r; [lra|].
  apply Qinv_le_0_compat. lra.
Qed.

Lemma round_score (x : Q) :
  (0 <= x <= 100)%Q -> is_score (Math_round (Fin x)).
Proof.
  intros [H0 H100]. exists (Qfloor (x + (1 # 2))). split; [done|]. split.
  - change 0%Z with (Qfloor 0). apply Qfloor_resp_le. lra.
  - change 100%Z with (Qfloor (100 + (1 # 2))). apply Qfloor_resp_le. lra.
Qed.

Lemma clamp_round_score (x : Q) :
  is_score (Math_round (Math_max (Fin 0) (Math_min (Fin 100) (Fin x)))).
Proof.
  unfold Math_max, Math_min, num_lift2. apply round_score. case_Qle; lra.
Qed.

(** X1.  For every double [v] and bounds [min < max] of finite span,
    [normalize] returns a whole number between 0 and 100, in either
    orientation. *)
Theorem normalize_in_range (v mn mx : Q) (hib : bool) (dflt : num) :
  binary64 v -> finite_span mn mx ->
  is_score (normalize (Num (Fin v)) (Fin mn) (Fin mx) hib dflt).
Proof.
  intros _ (_ & _ & Hlt & _). rewrite normalize_number by done. apply round_score.
  pose proof (clampQ_bounds v mn mx ltac:(lra)) as Hc.
  pose proof (ratio_bounds _ mn mx Hlt Hc) as Hr.
  destruct hib; lra.
Qed.

Lemma normalize_in_range_witness :
  is_score (normalize (Num (Fin 412)) (Fin 0) (Fin 300) false (Fin 50)).
Proof.
  apply normalize_in_range.
  - by exists 412%Z, 0%Z.
  - split; [by exists 0%Z, 0%Z|]. split; [by exists 300%Z, 0%Z|].
    split; [reflexivity | by vm_compute].
Defined.

(** X2.  [normalize] follows the order of its input: for doubles and
    bounds [min < max] of finite span, a larger value never scores lower
    when higher is better, and never scores higher when lower is better. *)
Theorem normalize_monotone (v v' mn mx : Q) (dflt : num) :
  binary64 v -> binary64 v' -> finite_span mn mx -> (v <= v')%Q ->
  num_le (normalize (Num (Fin v)) (Fin mn) (Fin mx) true dflt)
         (normalize (Num (Fin v')) (Fin mn) (Fin mx) true dflt) /\
  num_le (normalize (Num (Fin v')) (Fin mn) (Fin mx) false dflt)
         (normalize (Num (Fin v)) (Fin mn) (Fin mx) false dflt).
Proof.
  intros _ _ (_ & _ & Hlt & _) Hv. rewrite !normalize_number by done.
  pose proof (ratio_mono _ _ mn mx Hlt (clampQ_mono v v' mn mx Hv)) as Hr.
  unfold Math_round, num_le.
  split; rewrite <- Zle_Qle; apply Qfloor_resp_le; lra.
Qed.

Lemma normalize_monotone_witness :
  num_le (normalize (Num (Fin 10)) (Fin 0) (Fin 300) true (Fin 50))
         (normalize (Num (Fin 20)) (Fin 0) (Fin 300) true (Fin 50)) /\
  num_le (normalize (Num (Fin 20)) (Fin 0) (Fin 300) false (Fin 50))
         (normalize (Num (Fin 10)) (Fin 0) (Fin 300) false (Fin 50)).
Proof.
  apply normalize_monotone.
  - by exists 10%Z, 0%Z.
  - by exists 20%Z, 0%Z.
  - split; [by exists 0%Z, 0%Z|]. split; [by exists 300%Z, 0%Z|].
    split; [reflexivity | by vm_compute].
  - discriminate.
Defined.

Lemma round_comp (x y : Q) :
  (x == y)%Q ->
  Fin (inject_Z (Qfloor (x + (1 # 2)))) = Fin (inject_Z (Qfloor (y + (1 # 2)))).
Proof. intros Hxy. do 2 f_equal. apply Qfloor_comp. by rewrite Hxy. Qed.

Lemma normalize_below_min (v mn mx : Q) (dflt : num) :
  (mn < mx)%Q -> (v <= mn)%Q ->
  normalize (Num (Fin v)) (Fin mn) (Fin mx) true dflt = Fin 0 /\
  normalize (Num (Fin v)) (Fin mn) (Fin mx) false dflt = Fin 100.
Proof.
  intros Hlt Hv. rewrite !normalize_number by done. unfold Math_round.
  assert (clampQ v mn mx == mn)%Q as Hc by (unfold clampQ; case_Qle; lra).
  assert ((clampQ v mn mx - mn) / (mx - mn) == 0)%Q as Hr.
  { rewrite Hc. field. lra. }
  split; [apply (round_comp _ 0%Q) | apply (round_comp _ 100%Q)]; rewrite Hr; reflexivity.
Qed.

Lemma normalize_above_max (v mn mx : Q) (dflt : num) :
  (mn < mx)%Q -> (mx <= v)%Q ->
  normalize (Num (Fin v)) (Fin mn) (Fin mx) true dflt = Fin 100 /\
  normalize (Num (Fin v)) (Fin mn) (Fin mx) false dflt = Fin 0.
Proof.
  intros Hlt Hv. rewrite !normalize_number by done. unfold Math_round.
  assert (clampQ v mn mx == mx)%Q as Hc by (unfold clampQ; case_Qle; lra).
  assert ((clampQ v mn mx - mn) / (mx - mn) == 1)%Q as Hr.
  { rewrite Hc. field. lra. }
  split; [apply (round_comp _ 100%Q) | apply (round_comp _ 0%Q)]; rewrite Hr; reflexivity.
Qed.

(** X3.  [normalize] clamps: for a double [v] and bounds [min < max] of
    finite span, every value at or below [min] scores as [min] does (0 when
    higher is better, 100 otherwise), and every value at or above [max] as
    [max] does. *)
Theorem normalize_saturates (v mn mx : Q) (dflt : num) :
  binary64 v -> finite_span mn mx ->
  ((v <= mn)%Q ->
     normalize (Num (Fin v)) (Fin mn) (Fin mx) true dflt = Fin 0 /\
     normalize (Num (Fin v)) (Fin mn) (Fin mx) false dflt = Fin 100) /\
  ((mx <= v)%Q ->
     normalize (Num (Fin v)) (Fin mn) (Fin mx) true dflt = Fin 100 /\
     normalize (Num (Fin v)) (Fin mn) (Fin mx) false dflt = Fin 0).
Proof.
  intros _ (_ & _ & Hlt & _). split; intros Hv.
  - by apply normalize_below_min.
  - by apply normalize_above_max.
Qed.

Lemma normalize_saturates_witness :
  normalize (Num (Fin 412)) (Fin 0) (Fin 300) false (Fin 50) = Fin 0 /\
  normalize (Num (Fin (-3))) (Fin 0) (Fin 300) false (Fin 50) = Fin 100.
Proof.
  assert (finite_span 0 300) as Hspan.
  { split; [by exists 0%Z, 0%Z|]. split; [by exists 300%Z, 0%Z|].
    split; [reflexivity | by vm_compute]. }
  destruct (normalize_saturates 412 0 300 (Fin 50)) as [_ H2];
    [by exists 412%Z, 0%Z | exact Hspan |].
  destruct (normalize_saturates (-3) 0 300 (Fin 50)) as [H1 _];
    [by exists (-3)%Z, 0%Z | exact Hspan |].
  split; [apply H2; discriminate | apply H1; discriminate].
Defined.

(** X4.  Equal bounds are not guarded: when [min] equals [max], [normalize]
    divides zero by zero and returns [NaN] for every number, whatever the
    default score. *)
Theorem normalize_equal_bounds (v mn mx : Q) (hib : bool) (dflt : num) :
  (mn == mx)%Q ->
  normalize (Num (Fin v)) (Fin mn) (Fin mx) hib dflt = NaN.
Proof.
  intros Heq. unfold normalize.
  change (is_null (Num (Fin v)) || is_undefined (Num (Fin v)) || isNaN (Num (Fin v)))
    with false.
  cbv iota. unfold Math_max, Math_min, nsub, ndiv, nmul, num_lift2, ToNumber.
  assert (Qeq_bool (mx - mn) 0 = true) as ->.
  { apply Qeq_bool_iff. lra. }
  by destruct hib.
Qed.

Lemma normalize_equal_bounds_witness :
  normalize (Num (Fin 7)) (Fin 5) (Fin 5) true (Fin 50) = NaN.
Proof. apply normalize_equal_bounds. reflexivity. Defined.

(* ===================================================================== *)
(** ** The weather helpers *)
(* ===================================================================== *)

Lemma weatherSeverityPenalty_cases (weatherId : jsval) :
  weatherSeverityPenalty weatherId ∈
    [Fin 0; Fin 10; Fin 20; Fin 40; Fin 50; Fin 60; Fin 70].
Proof.
  unfold weatherSeverityPenalty.
  repeat match goal with
         | |- context [if ?c then _ else _] => destruct c
         end; set_solver.
Qed.

Lemma weatherEvent_score (weatherId : jsval) :
  exists z : Z,
    Fin 100 -# weatherSeverityPenalty weatherId = Fin (inject_Z z) /\
    (30 <= z <= 100)%Z.
Proof.
  pose proof (weatherSeverityPenalty_cases weatherId) as H.
  repeat (apply elem_of_cons in H as [-> | H]).
  all: try (by apply elem_of_nil in H).
  - exists 100%Z. by split; [vm_compute | lia].
  - exists 90%Z. by split; [vm_compute | lia].
  - exists 80%Z. by split; [vm_compute | lia].
  - exists 60%Z. by split; [vm_compute | lia].
  - exists 50%Z. by split; [vm_compute | lia].
  - exists 40%Z. by split; [vm_compute | lia].
  - exists 30%Z. by split; [vm_compute | lia].
Qed.

(** X5.  Whatever the condition code (missing, fractional, negative,
    outside every band), [weatherSeverityPenalty] returns one of 0, 10, 20,
    40, 50, 60, 70; the weather-event component, 100 minus the penalty, is
    therefore a whole number between 30 and 100. *)
Theorem weatherSeverityPenalty_range (weatherId : jsval) :
  weatherSeverityPenalty weatherId ∈
    [Fin 0; Fin 10; Fin 20; Fin 40; Fin 50; Fin 60; Fin 70] /\
  exists z : Z,
    Fin 100 -# weatherSeverityPenalty weatherId = Fin (inject_Z z) /\
    (30 <= z <= 100)%Z.
Proof.
  split; [apply weatherSeverityPenalty_cases | apply weatherEvent_score].
Qed.

Lemma tempComfortScore_number (t : Q) :
  tempComfortScore (Num (Fin t)) =
  Math_round (Fin ((1 - (clampQ (Qabs (t - 21.5)) 0 40 - 0) / (40 - 0)) * 100)).
Proof.
  unfold tempComfortScore. cbn [is_null ToNumber Math_abs nsub num_lift2].
  by rewrite normalize_number.
Qed.

(** X6.  The temperature comfort score depends only on the distance to
    21.5 degrees: two readings (doubles) that lie the same distance above
    and below 21.5 score alike, and a distance of 40 degrees or more scores
    0.  Decimal readings such as 30.1 and 12.9 are not doubles, and the
    doubles nearest to them are not the same distance from 21.5. *)
Theorem tempComfortScore_symmetric (dev : Q) :
  binary64 (21.5 + dev) -> binary64 (21.5 - dev) ->
  tempComfortScore (Num (Fin (21.5 + dev))) =
  tempComfortScore (Num (Fin (21.5 - dev))) /\
  ((40 <= Qabs dev)%Q -> tempComfortScore (Num (Fin (21.5 + dev))) = Fin 0).
Proof.
  intros _ _.
  assert (Qabs (21.5 + dev - 21.5) == Qabs dev)%Q as H1.
  { apply Qabs_wd. ring. }
  assert (Qabs (21.5 - dev - 21.5) == Qabs dev)%Q as H2.
  { rewrite <- (Qabs_opp dev). apply Qabs_wd. ring. }
  split.
  - rewrite !tempComfortScore_number. unfold Math_round. do 2 f_equal.
    apply Qfloor_comp.
    rewrite (clampQ_comp _ _ 0 40 H1), (clampQ_comp _ _ 0 40 H2). reflexivity.
  - intros Hdev. unfold tempComfortScore.
    cbn [is_null ToNumber Math_abs nsub num_lift2].
    apply normalize_above_max; [reflexivity|]. rewrite H1. exact Hdev.
Qed.

Lemma tempComfortScore_symmetric_witness :
  tempComfortScore (Num (Fin 31.5)) = tempComfortScore (Num (Fin 11.5)) /\
  tempComfortScore (Num (Fin 61.5)) = Fin 0.
Proof.
  split.
  - refine (proj1 (tempComfortScore_symmetric 10 _ _));
      [by exists 63%Z, (-1)%Z | by exists 23%Z, (-1)%Z].
  - refine (proj2 (tempComfortScore_symmetric 40 _ _) _);
      [by exists 123%Z, (-1)%Z | by exists (-37)%Z, (-1)%Z | discriminate].
Defined.

(* ===================================================================== *)
(** ** The three scores are whole numbers between 0 and 100 *)
(* ===================================================================== *)

Lemma is_score_50 : is_score (Fin 50).
Proof. exists 50%Z. by split; [|lia]. Qed.

Lemma normalize_score (v : jsval) (mn mx : Q) (hib : bool) (dflt : num) :
  (mn < mx)%Q -> is_score dflt ->
  is_score (normalize v (Fin mn) (Fin mx) hib dflt).
Proof.
  intros Hlt Hd. destruct v as [| |[|q]]; try exact Hd.
  rewrite normalize_number by done. apply round_score.
  pose proof (clampQ_bounds q mn mx ltac:(lra)) as Hc.
  pose proof (ratio_bounds _ mn mx Hlt Hc) as Hr.
  destruct hib; lra.
Qed.

Lemma tempComfortScore_score (v : jsval) : is_score (tempComfortScore v).
Proof.
  unfold tempComfortScore. destruct v as [| |[|q]]; try apply is_score_50.
  cbn [is_null ToNumber Math_abs nsub num_lift2].
  apply normalize_score; [reflexivity | apply is_score_50].
Qed.

Lemma weighted_score (x : Q) :
  is_score (Math_round (Math_max (Fin 0) (Math_min (Fin 100) (Fin x)))).
Proof. apply clamp_round_score. Qed.

Ltac finite_score H :=
  let z := fresh "z" in
  let Hz := fresh "Hz" in
  destruct H as (z & Hz & _); rewrite Hz; clear Hz.

Lemma normalize_fixed_score (v : jsval) (mn mx : Q) (hib : bool) :
  (mn < mx)%Q -> is_score (normalize v (Fin mn) (Fin mx) hib (Fin 50)).
Proof. intros Hlt. by apply normalize_score; [|apply is_score_50]. Qed.

Lemma tempScore_score (w : option Weather) :
  is_score (if negb (is_undefined w?.temp_celsius)
            then tempComfortScore w?.temp_celsius else Fin 50).
Proof. destruct (negb _); [apply tempComfortScore_score | apply is_score_50]. Qed.

Lemma weatherEvtScore_score (v : jsval) :
  is_score (Fin 100 -# weatherSeverityPenalty v).
Proof.
  destruct (weatherEvent_score v) as (z & -> & Hz). exists z. split; [done|lia].
Qed.

Lemma volatilityScore_score (w : option Weather) :
  is_score
    (if (negb (is_undefined w?.temp_max) && negb (is_undefined w?.temp_min))%bool
     then normalize (Num (ToNumber w?.temp_max -# ToNumber w?.temp_min))
            (Fin 0) (Fin 20) false (Fin 50)
     else Fin 50).
Proof.
  destruct (_ && _)%bool; [by apply normalize_fixed_score | apply is_score_50].
Qed.

Lemma humidityScore_score (w : option Weather) :
  is_score
    (if negb (is_undefined w?.humidity_pct)
     then normalize (Num (Math_abs (ToNumber w?.humidity_pct -# Fin 45)))
            (Fin 0) (Fin 55) false (Fin 50)
     else Fin 50).
Proof.
  destruct (negb _); [by apply normalize_fixed_score | apply is_score_50].
Qed.

Lemma travelRisk_score (d : CountryData) :
  is_score (score (computeTravelRiskScore d)).
Proof.
  unfold computeTravelRiskScore. cbn [score].
  pose proof (tempScore_score (weather d)) as H1.
  pose proof (normalize_fixed_score (aqi d)?.aqi_index 0 300 false eq_refl) as H2.
  pose proof (normalize_fixed_score (advisory d)?.advisory_score 1 5 false eq_refl) as H3.
  pose proof (weatherEvtScore_score (weather d)?.weather_id) as H4.
  finite_score H1. finite_score H2. finite_score H3. finite_score H4.
  apply weighted_score.
Qed.

Lemma environmentalStability_score (d : CountryData) :
  is_score (score (computeEnvironmentalStabilityScore d)).
Proof.
  unfold computeEnvironmentalStabilityScore. cbn [score].
  pose proof (normalize_fixed_score (aqi d)?.aqi_index 0 300 false eq_refl) as H1.
  pose proof (volatilityScore_score (weather d)) as H2.
  pose proof (normalize_fixed_score (weather d)?.wind_speed_ms 0 20 false eq_refl) as H3.
  pose proof (humidityScore_score (weather d)) as H4.
  finite_score H1. finite_score H2. finite_score H3. finite_score H4.
  apply weighted_score.
Qed.

(** X7.  For every dataset whatsoever (members missing, [null], [NaN] or
    out of range), the travel risk score and the environmental stability
    score are whole numbers between 0 and 100, and so is each of their
    components. *)
Theorem travel_and_environment_scores_in_range (d : CountryData) :
  is_score (score (computeTravelRiskScore d)) /\
  (forall c, c ∈ components (computeTravelRiskScore d) -> is_score c.2) /\
  is_score (score (computeEnvironmentalStabilityScore d)) /\
  (forall c, c ∈ components (computeEnvironmentalStabilityScore d) -> is_score c.2).
Proof.
  split; [apply travelRisk_score|]. split; [|split; [apply environmentalStability_score|]].
  - unfold computeTravelRiskScore. cbn [components]. intros c Hc.
    repeat (apply elem_of_cons in Hc as [-> | Hc]); cbn [snd].
    + apply tempScore_score.
    + by apply normalize_fixed_score.
    + by apply normalize_fixed_score.
    + apply weatherEvtScore_score.
    + by apply elem_of_nil in Hc.
  - unfold computeEnvironmentalStabilityScore. cbn [components]. intros c Hc.
    repeat (apply elem_of_cons in Hc as [-> | Hc]); cbn [snd].
    + by apply normalize_fixed_score.
    + apply volatilityScore_score.
    + by apply normalize_fixed_score.
    + apply humidityScore_score.
    + by apply elem_of_nil in Hc.
Qed.

Lemma healthInfrastructure_score (lg : num -> num) (d : CountryData) :
  log10_bounds lg -> is_score (score (computeHealthInfrastructureScore lg d)).
Proof.
  intros (lo & hi & Hlo & Hhi & Hlt).
  unfold computeHealthInfrastructureScore. cbn [score]. rewrite Hlo, Hhi.
  assert (is_score (normalize (healthcareExpenditure (worldBank d))
                      (Fin 1) (Fin 15) true (Fin 50))) as H1.
  { by apply normalize_score; [|apply is_score_50]. }
  assert (is_score (normalize (lifeExpectancy (worldBank d))
                      (Fin 45) (Fin 90) true (Fin 50))) as H2.
  { by apply normalize_score; [|apply is_score_50]. }
  assert (is_score (if negb (falsy (profile d)?.population)
                    then normalize (Num (lg (ToNumber (profile d)?.population)))
                           (Fin lo) (Fin hi) false (Fin 50)
                    else Fin 50)) as H3.
  { destruct (negb _); [|apply is_score_50].
    by apply normalize_score; [|apply is_score_50]. }
  finite_score H1. finite_score H2. finite_score H3.
  apply weighted_score.
Qed.

(** X8.  Provided [Math.log10] is finite and increasing at the two ends of
    the population scale (1e5 and 2e9), the health infrastructure score of
    every dataset is a whole number between 0 and 100, whatever the
    population (missing, zero, negative) and the World Bank values. *)
Theorem health_score_in_range (lg : num -> num) (d : CountryData) :
  log10_bounds lg ->
  is_score (score (computeHealthInfrastructureScore lg d)) /\
  (forall c, c ∈ components (computeHealthInfrastructureScore lg d) -> is_score c.2).
Proof.
  intros Hlg. split; [by apply healthInfrastructure_score|].
  destruct Hlg as (lo & hi & Hlo & Hhi & Hlt).
  unfold computeHealthInfrastructureScore. cbn [components]. rewrite Hlo, Hhi.
  intros c Hc.
  repeat (apply elem_of_cons in Hc as [-> | Hc]); cbn [snd].
  - by apply normalize_score; [|apply is_score_50].
  - by apply normalize_score; [|apply is_score_50].
  - destruct (negb _); [|apply is_score_50].
    by apply normalize_score; [|apply is_score_50].
  - by apply elem_of_nil in Hc.
Qed.

Lemma log10_sample_bounds : log10_bounds log10_sample.
Proof. exists 5%Q, 9.3%Q. by repeat split. Qed.

Lemma health_score_in_range_witness :
  is_score (score (computeHealthInfrastructureScore log10_sample fullData)).
Proof.
  apply (proj1 (health_score_in_range log10_sample fullData log10_sample_bounds)).
Defined.

(* ===================================================================== *)
(** ** Dynamic weights on any input; the composite *)
(* ===================================================================== *)

Lemma lower_ascii_idem (c : ascii) : lower_code_unit (lower_code_unit c) = lower_code_unit c.
Proof. destruct c as [[] [] [] [] [] [] [] []]; reflexivity. Qed.

Lemma toLowerCase_idem (s : string) : toLowerCase (toLowerCase s) = toLowerCase s.
Proof.
  induction s as [|c r IH]; [done|]. cbn. by rewrite lower_ascii_idem, IH.
Qed.

Lemma adjustedWeights_canonical (rt dur : string) :
  adjustedWeights rt dur = adjustedWeights (canonRisk rt) (canonDuration dur).
Proof.
  unfold adjustedWeights at 1. unfold canonRisk, canonDuration.
  destruct (String.eqb (toLowerCase rt) "low");
    [|destruct (String.eqb (toLowerCase rt) "high")];
    destruct (String.eqb (toLowerCase dur) "long"); reflexivity.
Qed.

Lemma canonical_cases (rt dur : string) :
  (canonRisk rt = "low" \/ canonRisk rt = "moderate" \/ canonRisk rt = "high")%string /\
  (canonDuration dur = "short" \/ canonDuration dur = "long")%string.
Proof.
  unfold canonRisk, canonDuration.
  destruct (String.eqb (toLowerCase rt) "low");
    [|destruct (String.eqb (toLowerCase rt) "high")];
    destruct (String.eqb (toLowerCase dur) "long"); auto.
Qed.

Lemma getDynamicWeights_canonical (rt dur : string) :
  getDynamicWeights rt dur = getDynamicWeights (canonRisk rt) (canonDuration dur).
Proof. unfold getDynamicWeights. by rewrite adjustedWeights_canonical. Qed.

(** X9.  [getDynamicWeights] accepts any two strings.  Letter case is
    ignored; a risk tolerance other than low or high is weighted as
    moderate, a duration other than long as short; and the triple returned
    is always non-negative with a sum within [1/1000] of 1. *)
Theorem getDynamicWeights_any_input (rt dur : string) :
  getDynamicWeights rt dur = getDynamicWeights (toLowerCase rt) (toLowerCase dur) /\
  (toLowerCase rt <> "low" -> toLowerCase rt <> "high" ->
     getDynamicWeights rt dur = getDynamicWeights "moderate" dur)%string /\
  (toLowerCase dur <> "long" ->
     getDynamicWeights rt dur = getDynamicWeights rt "short")%string /\
  valid_profile (getDynamicWeights rt dur).
Proof.
  split; [|split; [|split]].
  - rewrite (getDynamicWeights_canonical rt dur).
    rewrite (getDynamicWeights_canonical (toLowerCase rt) (toLowerCase dur)).
    unfold canonRisk, canonDuration. by rewrite !toLowerCase_idem.
  - intros H1 H2. rewrite (getDynamicWeights_canonical rt dur).
    rewrite (getDynamicWeights_canonical "moderate" dur).
    unfold canonRisk at 1.
    apply String.eqb_neq in H1, H2. by rewrite H1, H2.
  - intros H1. rewrite (getDynamicWeights_canonical rt dur).
    rewrite (getDynamicWeights_canonical rt "short").
    unfold canonDuration at 1.
    apply String.eqb_neq in H1. by rewrite H1.
  - rewrite getDynamicWeights_canonical.
    destruct (canonical_cases rt dur) as [[-> | [-> | ->]] [-> | ->]];
      vm_compute; repeat split; discriminate.
Qed.

Lemma getDynamicWeights_any_input_witness :
  getDynamicWeights "Reckless" "LONG" = getDynamicWeights "moderate" "LONG" /\
  getDynamicWeights "High" "weekend" = getDynamicWeights "High" "short".
Proof.
  destruct (getDynamicWeights_any_input "Reckless" "LONG") as (_ & H1 & _).
  destruct (getDynamicWeights_any_input "High" "weekend") as (_ & _ & H2 & _).
  split.
  - apply H1; intros H; vm_compute in H; discriminate.
  - apply H2; intros H; vm_compute in H; discriminate.
Defined.


Lemma round_clamp_between (x : Q) (m M : Z) :
  (0 <= m)%Z -> (M <= 100)%Z -> (inject_Z m <= x <= inject_Z M)%Q ->
  exists z : Z,
    Math_round (Math_max (Fin 0) (Math_min (Fin 100) (Fin x))) = Fin (inject_Z z) /\
    (m <= z <= M)%Z.
Proof.
  intros Hm HM [Hlo Hhi].
  assert (0 <= inject_Z m)%Q as Hm' by (change 0%Q with (inject_Z 0); by rewrite <- Zle_Qle).
  assert (inject_Z M <= 100)%Q as HM' by (change 100%Q with (inject_Z 100); by rewrite <- Zle_Qle).
  unfold Math_max, Math_min, num_lift2, Math_round.
  set (c := if Qle_bool 0 (if Qle_bool 100 x then 100%Q else x)
            then (if Qle_bool 100 x then 100%Q else x) else 0%Q).
  assert (inject_Z m <= c <= inject_Z M)%Q as [Hc1 Hc2].
  { unfold c. case_Qle; lra. }
  exists (Qfloor (c + (1 # 2))). split; [done|].
  pose proof (round_bounds c) as [Hr1 Hr2]. split.
  - rewrite <- (Qfloor_Z m). apply Qfloor_resp_le. lra.
  - apply Z.lt_succ_r. rewrite Zlt_Qlt. unfold Z.succ. rewrite inject_Z_plus.
    change (inject_Z 1) with 1%Q. lra.
Qed.

Lemma weighted_mean_between (a b c : Z) (w1 w2 w3 : Q) :
  (0 <= w1)%Q -> (0 <= w2)%Q -> (0 <= w3)%Q -> (w1 + w2 + w3 == 1)%Q ->
  (inject_Z (Z.min a (Z.min b c))
     <= inject_Z a * w1 + inject_Z b * w2 + inject_Z c * w3
     <= inject_Z (Z.max a (Z.max b c)))%Q.
Proof.
  intros H1 H2 H3 Hs.
  set (m := Z.min a (Z.min b c)). set (M := Z.max a (Z.max b c)).
  assert (inject_Z m <= inject_Z a /\ inject_Z m <= inject_Z b /\ inject_Z m <= inject_Z c)%Q
    as (Ha & Hb & Hc) by (rewrite <- !Zle_Qle; unfold m; lia).
  assert (inject_Z a <= inject_Z M /\ inject_Z b <= inject_Z M /\ inject_Z c <= inject_Z M)%Q
    as (Ha' & Hb' & Hc') by (rewrite <- !Zle_Qle; unfold M; lia).
  assert (inject_Z m * w1 + inject_Z m * w2 + inject_Z m * w3 == inject_Z m)%Q as Em.
  { rewrite <- !Qmult_plus_distr_r, Hs. ring. }
  assert (inject_Z M * w1 + inject_Z M * w2 + inject_Z M * w3 == inject_Z M)%Q as EM.
  { rewrite <- !Qmult_plus_distr_r, Hs. ring. }
  split.
  - rewrite <- Em. repeat apply Qplus_le_compat; by apply Qmult_le_compat_r.
  - rewrite <- EM. repeat apply Qplus_le_compat; by apply Qmult_le_compat_r.
Qed.

(** X11.  For every dataset and any two input strings, with [Math.log10] as
    in X8, the composite score is a whole number that lies between the
    smallest and the largest of the three scores; in particular it is
    between 0 and 100. *)
Theorem composite_between_scores (lg : num -> num) (h : heap) (l : loc)
    (d : CountryData) (rt dur : string) :
  h !! l = Some d -> log10_bounds lg ->
  exists res h' (a b c z : Z),
    scoreCountry lg h l rt dur = Some (res, h') /\
    score (travel_risk_score res) = Fin (inject_Z a) /\
    score (health_infrastructure_score res) = Fin (inject_Z b) /\
    score (environmental_stability_score res) = Fin (inject_Z c) /\
    composite_score res = Fin (inject_Z z) /\
    (Z.min a (Z.min b c) <= z <= Z.max a (Z.max b c))%Z /\
    (0 <= z <= 100)%Z.
Proof.
  intros Hl Hlg. rewrite (scoreCountry_Some lg h l d rt dur Hl).
  destruct (travelRisk_score d) as (a & Ha & Ha').
  destruct (environmentalStability_score d) as (c & Hc & Hc').
  destruct (healthInfrastructure_score lg d Hlg) as (b & Hb & Hb').
  assert (exists z : Z,
            compositeOf (computeTravelRiskScore d)
              (computeHealthInfrastructureScore lg d)
              (computeEnvironmentalStabilityScore d) (getDynamicWeights rt dur)
            = Fin (inject_Z z) /\
            (Z.min a (Z.min b c) <= z <= Z.max a (Z.max b c))%Z) as (z & Hz & Hzb).
  { unfold compositeOf. rewrite Ha, Hb, Hc, getDynamicWeights_canonical.
    destruct (canonical_cases rt dur) as [[-> | [-> | ->]] [-> | ->]];
      match goal with
      | |- context [getDynamicWeights ?r ?u] =>
          let w := eval vm_compute in (getDynamicWeights r u) in
          change (getDynamicWeights r u) with w
      end;
      cbn [w_travel_risk_score w_health_infrastructure_score
           w_environmental_stability_score nmul nadd num_lift2];
      (apply round_clamp_between; [lia | lia |]);
      apply weighted_mean_between; by vm_compute. }
  eexists _, _, a, b, c, z. split; [reflexivity|].
  cbn [travel_risk_score health_infrastructure_score
       environmental_stability_score composite_score].
  repeat (split; [done|]). lia.
Qed.

Lemma composite_between_scores_witness :
  exists res h' (a b c z : Z),
    scoreCountry log10_sample {[ 0 := fullData ]} 0 "low" "long" = Some (res, h') /\
    score (travel_risk_score res) = Fin (inject_Z a) /\
    score (health_infrastructure_score res) = Fin (inject_Z b) /\
    score (environmental_stability_score res) = Fin (inject_Z c) /\
    composite_score res = Fin (inject_Z z) /\
    (Z.min a (Z.min b c) <= z <= Z.max a (Z.max b c))%Z.
Proof.
  destruct (composite_between_scores log10_sample {[ 0 := fullData ]} 0 fullData
              "low" "long") as (res & h' & a & b & c & z & H0 & H1 & H2 & H3 & H4 & H5 & _).
  - reflexivity.
  - exact log10_sample_bounds.
  - exists res, h', a, b, c, z. repeat (split; [assumption|]). assumption.
Defined.

(* ===================================================================== *)
(** ** The composite is the blend with the rounded weights *)
(* ===================================================================== *)

Lemma blendRounded_weights (t hl e : num) (rt dur : string) :
  blendRounded t hl e rt dur =
  Math_max (Fin 0) (Math_min (Fin 100)
    (t *# w_travel_risk_score (getDynamicWeights rt dur) +#
     hl *# w_health_infrastructure_score (getDynamicWeights rt dur) +#
     e *# w_environmental_stability_score (getDynamicWeights rt dur))).
Proof.
  unfold blendRounded. rewrite getDynamicWeights_rounds.
  by destruct (adjustedWeights rt dur) as [[w1 w2] w3].
Qed.

Lemma compositeRounded_blend (t hl e : num) (rt dur : string) :
  compositeRounded t hl e rt dur = Math_round (blendRounded t hl e rt dur).
Proof.
  unfold compositeRounded, blendRounded, clamp100.
  by destruct (adjustedWeights rt dur) as [[w1 w2] w3].
Qed.

Lemma blendRounded_finite (a b c : Z) (rt dur : string) :
  exists x : Q,
    blendRounded (Fin (inject_Z a)) (Fin (inject_Z b)) (Fin (inject_Z c)) rt dur = Fin x /\
    (0 <= x <= 100)%Q.
Proof.
  rewrite blendRounded_weights, getDynamicWeights_canonical.
  destruct (canonical_cases rt dur) as [[-> | [-> | ->]] [-> | ->]];
    match goal with
    | |- context [getDynamicWeights ?r ?u] =>
        let w := eval vm_compute in (getDynamicWeights r u) in
        change (getDynamicWeights r u) with w
    end;
    cbn [w_travel_risk_score w_health_infrastructure_score
         w_environmental_stability_score nmul nadd num_lift2];
    unfold Math_max, Math_min, num_lift2;
    eexists; (split; [reflexivity|]); case_Qle; lra.
Qed.

Lemma round_within_half (x : Q) : within (1 # 2) (Math_round (Fin x)) (Fin x).
Proof.
  unfold within, Math_round. pose proof (round_bounds x) as [H1 H2].
  apply Qabs_Qle_condition. split; lra.
Qed.

(** C6, amended.  The weights are rounded to three decimals inside
    [getDynamicWeights], and the composite of every country is computed from
    these rounded weights, which are also the ones reported: the composite
    is a whole number at most [1/2] away from the blend of the three scores
    with the rounded weights, clamped to 0..100.  It is therefore that blend
    rounded to the nearest whole number; when the blend lies exactly
    half-way between two whole numbers the direction is left open (the
    sum of the code, in doubles, can fall on either side of the half). *)
Theorem composite_uses_rounded_weights (lg : num -> num) (h : heap) (l : loc)
    (d : CountryData) (rt dur : string) :
  h !! l = Some d -> log10_bounds lg ->
  exists res h',
    scoreCountry lg h l rt dur = Some (res, h') /\
    dynamic_weights res = getDynamicWeights rt dur /\
    let blend :=
      blendRounded (score (travel_risk_score res))
        (score (health_infrastructure_score res))
        (score (environmental_stability_score res)) rt dur in
    is_score (composite_score res) /\
    within (1 # 2) (composite_score res) blend /\
    (~ half_way blend ->
     composite_score res =
       compositeRounded (score (travel_risk_score res))
         (score (health_infrastructure_score res))
         (score (environmental_stability_score res)) rt dur).
Proof.
  intros Hl Hlg. rewrite (scoreCountry_Some lg h l d rt dur Hl).
  eexists _, _. split; [reflexivity|]. split; [reflexivity|].
  cbn [travel_risk_score health_infrastructure_score
       environmental_stability_score composite_score].
  assert (compositeOf (computeTravelRiskScore d)
            (computeHealthInfrastructureScore lg d)
            (computeEnvironmentalStabilityScore d) (getDynamicWeights rt dur) =
          Math_round
            (blendRounded (score (computeTravelRiskScore d))
               (score (computeHealthInfrastructureScore lg d))
               (score (computeEnvironmentalStabilityScore d)) rt dur)) as Hcomp.
  { by rewrite blendRounded_weights. }
  destruct (travelRisk_score d) as (a & Ha & _).
  destruct (healthInfrastructure_score lg d Hlg) as (b & Hb & _).
  destruct (environmentalStability_score d) as (c & Hc & _).
  cbv zeta. rewrite Hcomp, compositeRounded_blend, Ha, Hb, Hc.
  destruct (blendRounded_finite a b c rt dur) as (x & -> & Hx).
  split; [by apply round_score|]. split; [apply round_within_half | done].
Qed.

Lemma composite_uses_rounded_weights_witness :
  exists res h',
    scoreCountry log10_sample {[ 0 := sampleData ]} 0 "high" "long" = Some (res, h') /\
    composite_score res = Fin 60 /\
    within (1 # 2) (composite_score res)
      (blendRounded (score (travel_risk_score res))
         (score (health_infrastructure_score res))
         (score (environmental_stability_score res)) "high" "long").
Proof.
  destruct (composite_uses_rounded_weights log10_sample {[ 0 := sampleData ]} 0
              sampleData "high" "long") as (res & h' & H0 & _ & _ & H2 & H3).
  - reflexivity.
  - apply log10_sample_bounds.
  - exists res, h'. split; [exact H0|]. split; [|exact H2].
    vm_compute in H0. injection H0 as <- <-.
    etransitivity; [apply H3 | reflexivity]. intros Hhw.
    let v := eval vm_compute in (blendRounded (Fin 54) (Fin 81) (Fin 36) "high" "long") in
    change (half_way v) in Hhw.
    destruct Hhw as [k Hk]. unfold Qeq in Hk. cbn in Hk. lia.
Defined.

(* ===================================================================== *)
(** ** The cache: reachable states and runs *)
(* ===================================================================== *)

Section CacheRunFacts.

Context {V E : Type}.
Implicit Types (st : State V E) (key : string) (p : promise).

Lemma quiet_exec st (evs : list (Event V E)) : quiet st -> quiet (exec st evs).2.
Proof.
  revert st. induction evs as [|ev evs IH]; intros st Hq; cbn; [done|].
  destruct ev as [dt|k|p r].
  - by apply IH.
  - pose proof (quiet_getOrFetch st k Hq) as Hq'.
    destruct (getOrFetch st k) as [r st1]. cbn in Hq'.
    specialize (IH st1 Hq'). by destruct (exec st1 evs).
  - by apply IH, quiet_settle.
Qed.

Lemma accounted_getOrFetch st k : accounted st -> accounted (getOrFetch st k).2.
Proof.
  unfold accounted. intros Ha. rewrite getOrFetch_settled.
  destruct (getOrFetch_cases st k)
    as [(d & _ & _ & Hf & Hi) | [(q & _ & _ & _ & Hf & Hi) | (_ & Hnone & _ & Hf & Hi)]];
    rewrite Hf, Hi; [done|done|].
  rewrite map_size_insert_None, length_app by done. cbn. lia.
Qed.

Lemma accounted_settle st q r : wf st -> accounted st -> accounted (settle st q r).
Proof.
  unfold accounted. intros Hw Ha. unfold settle.
  destruct (invoked st !! q) as [k|] eqn:Hk; [|done].
  destruct (settled st !! q) eqn:Hs; [done|]. cbn.
  assert (inFlight st !! k = Some q) as Hin by (apply Hw; done).
  rewrite map_size_delete_Some, map_size_insert_None by eauto.
  assert (size (inFlight st) <> 0) by (eapply map_size_ne_0_lookup_2; eauto). lia.
Qed.

Lemma accounted_exec st (evs : list (Event V E)) :
  wf st -> accounted st -> accounted (exec st evs).2.
Proof.
  revert st. induction evs as [|ev evs IH]; intros st Hw Ha; cbn; [done|].
  destruct ev as [dt|k|p r].
  - by apply IH.
  - pose proof (wf_getOrFetch st k Hw) as Hw'.
    pose proof (accounted_getOrFetch st k Ha) as Ha'.
    destruct (getOrFetch st k) as [r st1]. cbn in Hw', Ha'.
    specialize (IH st1 Hw' Ha'). by destruct (exec st1 evs).
  - apply IH; [by apply wf_settle | by apply accounted_settle].
Qed.

Lemma reachable_invariants st :
  reachable st -> wf st /\ quiet st /\ accounted st.
Proof.
  intros [evs ->]. split; [|split].
  - apply wf_exec, wf_init.
  - apply quiet_exec, quiet_init.
  - apply accounted_exec; [apply wf_init | done].
Qed.

Lemma reachable_init : reachable (@init V E).
Proof. by exists []. Qed.

Lemma reachable_exec st (evs : list (Event V E)) :
  reachable st -> reachable (exec st evs).2.
Proof.
  intros [evs0 ->]. exists (evs0 ++ evs). by rewrite exec_app.
Qed.

Lemma exec_call st k (evs : list (Event V E)) :
  exec st (Call k :: evs) =
  ((k, (getOrFetch st k).1) :: (exec (getOrFetch st k).2 evs).1,
   (exec (getOrFetch st k).2 evs).2).
Proof. cbn. destruct (getOrFetch st k). cbn. by destruct (exec _ evs). Qed.

(** A live entry is served as it is. *)
Lemma live_hit st key (en : CacheEntry V) :
  store st !! key = Some en -> (now st <= expiresAt en)%Z ->
  getOrFetch st key = (Hit (data en), st).
Proof.
  intros Hen Hnow. unfold getOrFetch, get. rewrite Hen.
  destruct (Z.gtb_spec (now st) (expiresAt en)) as [Hgt|_]; [lia|].
  by destruct st.
Qed.

Lemma live_run (evs : list (Event V E)) st key (en : CacheEntry V) :
  wf st -> quiet st ->
  store st !! key = Some en ->
  clock_within (expiresAt en) st evs ->
  store (exec st evs).2 !! key = Some en /\
  invocations key (exec st evs).2 = invocations key st /\
  (forall r, (key, r) ∈ (exec st evs).1 -> r = Hit (data en)).
Proof.
  revert st. induction evs as [|ev evs IH]; intros st Hw Hq Hen Hclk.
  - cbn. split; [done|]. split; [done|]. intros r Hr. by apply elem_of_nil in Hr.
  - assert (now st <= expiresAt en)%Z as Hnow by (apply (Hclk [] (ev :: evs)); done).
    destruct ev as [dt|k|q r].
    + refine (IH (tick st dt) Hw Hq Hen _).
      intros e1 e2 He. apply (Hclk (Tick dt :: e1) e2). by rewrite He.
    + rewrite exec_call. cbn [fst snd].
      pose proof (wf_getOrFetch st k Hw) as Hw'.
      pose proof (quiet_getOrFetch st k Hq) as Hq'.
      assert (clock_within (expiresAt en) (getOrFetch st k).2 evs) as Hclk'.
      { intros e1 e2 He. specialize (Hclk (Call k :: e1) e2).
        rewrite exec_call in Hclk. apply Hclk. by rewrite He. }
      assert (store (getOrFetch st k).2 !! key = Some en) as Hen'.
      { destruct (entry_kept_by_call st key k en Hen) as [H|(_ & Hgt & _)]; [done|lia]. }
      assert (invocations key (getOrFetch st k).2 = invocations key st /\
              (k = key -> (getOrFetch st k).1 = Hit (data en))) as [Hinv Hhit].
      { destruct (decide (k = key)) as [->|Hne].
        - rewrite (live_hit st key en Hen Hnow). by split.
        - split; [|done]. unfold invocations.
          destruct (getOrFetch_cases st k)
            as [(d & _ & _ & _ & Hi) | [(p & _ & _ & _ & _ & Hi) | (_ & _ & _ & _ & Hi)]];
            rewrite Hi; [done|done|].
          rewrite filter_app, length_app. cbn.
          rewrite decide_False by congruence. cbn. lia. }
      destruct (IH _ Hw' Hq' Hen' Hclk') as (H1 & H2 & H3).
      split; [done|]. split; [congruence|].
      intros r Hr. apply elem_of_cons in Hr as [[= <- ->]|Hr]; [by apply Hhit|by apply H3].
    + assert (invocations key (settle st q r) = invocations key st) as Hinv.
      { unfold invocations, settle.
        destruct (invoked st !! q); [|done]. by destruct (settled st !! q). }
      assert (now (settle st q r) = now st) as Hnow'.
      { unfold settle. destruct (invoked st !! q); [|done]. by destruct (settled st !! q). }
      change (exec st (Settle q r :: evs)) with (exec (settle st q r) evs).
      rewrite <- Hinv. apply IH.
      * by apply wf_settle.
      * by apply quiet_settle.
      * by apply entry_kept_by_settle.
      * intros e1 e2 He. apply (Hclk (Settle q r :: e1) e2). by rewrite He.
Qed.

(** A run without any settlement starts the producer of a key at most
    once. *)
Lemma calls_invoke_once (evs : list (Event V E)) st key :
  wf st -> (forall p r, Settle p r ∉ evs) ->
  invocations key (exec st evs).2 <= S (invocations key st).
Proof.
  revert st. induction evs as [|ev evs IH]; intros st Hw Hno; cbn; [lia|].
  assert (forall p r, Settle p r ∉ evs) as Hno'.
  { intros p r Hr. apply (Hno p r). by right. }
  destruct ev as [dt|k|q r].
  - by apply (IH (tick st dt)).
  - pose proof (wf_getOrFetch st k Hw) as Hw'.
    destruct (getOrFetch st k) as [rp st1] eqn:Hg. cbn in Hw'.
    destruct rp as [d|p|p].
    + assert (invocations key st1 = invocations key st) as Hi.
      { unfold invocations.
        destruct (getOrFetch_cases st k)
          as [(d' & _ & _ & _ & Hi) | [(p' & _ & _ & Hr & _ & Hi) | (_ & _ & Hr & _ & Hi)]];
          rewrite Hg in *; cbn in *; [by rewrite Hi | discriminate | discriminate]. }
      specialize (IH st1 Hw' Hno'). destruct (exec st1 evs). cbn in *. lia.
    + assert (invocations key st1 = invocations key st) as Hi.
      { unfold invocations.
        destruct (getOrFetch_cases st k)
          as [(d' & _ & Hr & _ & Hi) | [(p' & _ & _ & _ & _ & Hi) | (_ & _ & Hr & _ & Hi)]];
          rewrite Hg in *; cbn in *; [discriminate | by rewrite Hi | discriminate]. }
      specialize (IH st1 Hw' Hno'). destruct (exec st1 evs). cbn in *. lia.
    + destruct (decide (k = key)) as [->|Hne].
      * destruct (started_window st key p st1 Hw Hg) as (HW & _ & Hc).
        destruct (window_exec evs st1 key p HW (Hno' p)) as (_ & Hc2 & _).
        destruct (exec st1 evs). cbn in *. lia.
      * assert (invocations key st1 = invocations key st) as Hi.
        { unfold invocations.
          destruct (getOrFetch_cases st k)
            as [(d' & _ & Hr & _ & Hi) | [(p' & _ & _ & Hr & _ & Hi) | (_ & _ & _ & _ & Hi)]];
            rewrite Hg in *; cbn in *; [discriminate | discriminate |].
          rewrite Hi, filter_app, length_app. cbn.
          rewrite decide_False by congruence. cbn. lia. }
        specialize (IH st1 Hw' Hno'). destruct (exec st1 evs). cbn in *. lia.
  - exfalso. apply (Hno q r). by left.
Qed.

End CacheRunFacts.

(** X12.  In every state the service can reach, at most one producer is
    unsettled for any key; the in-flight map registers exactly the unsettled
    producers, each under its key; and a key that is being fetched has no
    entry in the store. *)
Theorem one_fetch_in_flight_per_key {V E : Type} (st : State V E) :
  reachable st ->
  (forall key p q,
      invoked st !! p = Some key -> settled st !! p = None ->
      invoked st !! q = Some key -> settled st !! q = None -> p = q) /\
  (forall key p,
      inFlight st !! key = Some p <->
      invoked st !! p = Some key /\ settled st !! p = None) /\
  (forall key p, inFlight st !! key = Some p -> store st !! key = None).
Proof.
  intros Hr. destruct (reachable_invariants st Hr) as ((Hw1 & Hw2) & Hq & _).
  split; [|split; [exact Hw1 | exact Hq]].
  intros key p q Hp Hps Hq' Hqs.
  assert (inFlight st !! key = Some p) as H1 by (apply Hw1; done).
  assert (inFlight st !! key = Some q) as H2 by (apply Hw1; done).
  congruence.
Qed.

Lemma one_fetch_in_flight_per_key_witness :
  let st : State nat string :=
    (exec init [Call "country:peru"; Call "country:chile"; Call "country:peru"]).2 in
  inFlight st !! "country:peru"%string = Some 0 /\
  store st !! "country:peru"%string = None.
Proof.
  intros st.
  destruct (one_fetch_in_flight_per_key st) as (_ & _ & H3).
  - by eexists.
  - assert (inFlight st !! "country:peru"%string = Some 0) as H by reflexivity.
    split; [exact H | exact (H3 _ _ H)].
Defined.

(** X13.  In every reachable state the figure [in_flight] that [stats]
    reports is the number of producer invocations that have not settled:
    invocations made minus promises settled. *)
Theorem stats_counts_unsettled {V E : Type} (st : State V E) :
  reachable st ->
  (stats st).2 + size (settled st) = length (invoked st).
Proof.
  intros Hr. destruct (reachable_invariants st Hr) as (_ & _ & Ha). exact Ha.
Qed.

Lemma stats_counts_unsettled_witness :
  let st : State nat string :=
    (exec init [Call "country:peru"; Call "country:chile"; Settle 0 (inl 7);
                Call "country:peru"]).2 in
  (stats st).2 + size (settled st) = length (invoked st).
Proof.
  intros st. apply (stats_counts_unsettled st). by eexists.
Defined.

(** X14.  A cached value is served as long as it lives: from a reachable
    state holding an entry for a key, along any run of events during which
    the clock does not pass the entry's [expiresAt] (the limit included),
    the entry stays as written, every [getOrFetch] on the key returns its
    value as a hit, and no producer is invoked for the key. *)
Theorem live_entry_is_served {V E : Type} (st : State V E) (key : string)
    (en : CacheEntry V) (evs : list (Event V E)) :
  reachable st ->
  store st !! key = Some en ->
  clock_within (expiresAt en) st evs ->
  store (exec st evs).2 !! key = Some en /\
  invocations key (exec st evs).2 = invocations key st /\
  (forall r, (key, r) ∈ (exec st evs).1 -> r = Hit (data en)).
Proof.
  intros Hr Hen Hclk. destruct (reachable_invariants st Hr) as (Hw & Hq & _).
  by apply live_run.
Qed.

Lemma live_entry_is_served_witness :
  let st : State nat string :=
    (exec init [Call "country:peru"; Settle 0 (inl 7)]).2 in
  let evs : list (Event nat string) :=
    [Tick TTL_MS; Call "country:peru"; Call "country:chile"; Call "country:peru"] in
  (exec st evs).1 =
    [("country:peru", Hit 7); ("country:chile", Started 1); ("country:peru", Hit 7)]%string /\
  invocations "country:peru" (exec st evs).2 = 1.
Proof.
  intros st evs.
  destruct (live_entry_is_served st "country:peru"
              {| data := 7; expiresAt := TTL_MS |} evs) as (_ & H2 & _).
  - by eexists.
  - reflexivity.
  - intros e1 e2 He. unfold evs in He.
    destruct e1 as [|a [|b [|c [|d [|e e1]]]]]; cbn in He; simplify_eq; vm_compute;
      discriminate.
  - split; [reflexivity | exact H2].
Defined.

(** X15.  A fetched value is cached at once: when the producer started by a
    [getOrFetch] settles with a value, the store holds that value with
    [expiresAt] 60 minutes after the settlement, and a [getOrFetch] on the
    key at any time up to those 60 minutes returns the value as a hit and
    changes nothing. *)
Theorem fetched_value_is_cached {V E : Type} (st st1 st2 : State V E)
    (key : string) (p : promise) (evs : list (Event V E)) (d : V)
    (replies : list (string * Reply V)) (dt : Z) :
  reachable st ->
  getOrFetch st key = (Started p, st1) ->
  (forall r, Settle p r ∉ evs) ->
  exec st1 evs = (replies, st2) ->
  (0 <= dt <= TTL_MS)%Z ->
  let st3 := settle st2 p (inl d) in
  store st3 !! key = Some {| data := d; expiresAt := (now st2 + TTL_MS)%Z |} /\
  getOrFetch (tick st3 dt) key = (Hit d, tick st3 dt).
Proof.
  intros Hr Hg Hno Hex Hdt st3.
  destruct (reachable_invariants st Hr) as (Hw & _ & _).
  destruct (started_window st key p st1 Hw Hg) as (HW1 & _ & _).
  destruct (window_exec evs st1 key p HW1 Hno) as (HW2 & _ & _).
  rewrite Hex in HW2. cbn in HW2.
  destruct (window_close st2 key p (inl d) HW2) as (_ & _ & _ & Hsto).
  fold st3 in Hsto.
  assert (store st3 !! key = Some {| data := d; expiresAt := (now st2 + TTL_MS)%Z |})
    as Hen.
  { rewrite Hsto. unfold set. by rewrite lookup_insert_eq. }
  split; [done|].
  assert (now st3 = now st2) as Hnow.
  { unfold st3, settle. destruct (invoked st2 !! p); [|done].
    by destruct (settled st2 !! p). }
  apply (live_hit (tick st3 dt) key _ Hen). cbn. lia.
Qed.

Lemma fetched_value_is_cached_witness :
  let st1 : State nat string := (getOrFetch init "country:peru").2 in
  let st3 := settle (exec st1 [Call "country:peru"]).2 0 (inl 7) in
  getOrFetch (tick st3 TTL_MS) "country:peru" = (Hit 7, tick st3 TTL_MS).
Proof.
  intros st1 st3.
  destruct (fetched_value_is_cached (V := nat) (E := string)
              init st1 (exec st1 [Call "country:peru"]).2 "country:peru" 0
              [Call "country:peru"] 7 (exec st1 [Call "country:peru"]).1 TTL_MS)
    as [_ H2].
  - apply reachable_init.
  - reflexivity.
  - intros r Hr. apply elem_of_cons in Hr as [Hr|Hr]; [discriminate|].
    by apply elem_of_nil in Hr.
  - by destruct (exec _ _).
  - vm_compute. split; discriminate.
  - exact H2.
Defined.

(* ===================================================================== *)
(** ** The analyze route: what validation accepts and reports *)
(* ===================================================================== *)

Lemma lowered_string (v : json) (s : string) :
  v = JString s -> lowered v = Normal (Some (toLowerCase s)).
Proof. by intros ->. Qed.

Lemma valid_body_no_throw (b : Body) :
  valid_body b -> exists errors, validateInput b = Normal errors.
Proof.
  intros (_ & (r & Hr & _) & (d & Hd & _)). unfold validateInput.
  rewrite (lowered_string _ _ Hr), (lowered_string _ _ Hd). by eexists.
Qed.

Lemma valid_body_accepted (b : Body) : valid_body b -> validateInput b = Normal [].
Proof.
  intros Hv. destruct (valid_body_no_throw b Hv) as [errors He].
  rewrite He. f_equal. by apply (validateInput_nil b errors He).
Qed.

(** X16.  [validateInput] returns the empty list exactly on the bodies
    whose [countries] is an array of 3 to 10 strings that are not blank
    after trimming, and whose [riskTolerance] and [duration] are strings
    that, lower-cased, are one of the allowed values. *)
Theorem validateInput_accepts_exactly_valid (b : Body) :
  validateInput b = Normal [] <-> valid_body b.
Proof.
  split.
  - intros H. by apply (validateInput_nil b [] H).
  - apply valid_body_accepted.
Qed.

Lemma countriesErrors_cases (c : json) :
  (countriesErrors c = [ErrCountriesMin] /\ too_few c) \/
  (countriesErrors c = [ErrCountriesMax] /\ too_many c) \/
  (countriesErrors c = [ErrCountriesEntries] /\ has_bad_entry c) \/
  (countriesErrors c = [] /\ countries_ok c).
Proof.
  destruct (countriesErrors c) as [|e errs] eqn:Hc.
  { right. right. right. split; [done|]. by apply countriesErrors_nil. }
  revert Hc. unfold countriesErrors, too_few, too_many, has_bad_entry,
    MIN_COUNTRIES, MAX_COUNTRIES.
  destruct c; try (intros [= <- <-]; left; split; [done|]; intros items [=]).
  destruct (Nat.ltb_spec (length items) 3) as [Hlt|Hge].
  { intros [= <- <-]. left. split; [done|]. by intros it [= <-]. }
  destruct (Nat.ltb_spec 10 (length items)) as [Hgt|Hle].
  { intros [= <- <-]. right. left. split; [done|]. by exists items. }
  destruct (existsb bad_entry items) eqn:Hex; [|discriminate].
  intros [= <- <-]. right. right. left. split; [done|].
  exists items. split; [done|]. split; [lia|].
  apply existsb_exists in Hex as (x & Hin & Hbad). exists x.
  split; [by apply list_elem_of_In|].
  intros s ->. cbn in Hbad. by apply bool_decide_eq_true in Hbad.
Qed.

(** X17.  [validateInput] checks the three fields independently and
    reports every field at fault in one answer: whenever it returns, the
    list holds the [countries] message that applies, if any (too few or not
    an array; too many; an entry that is not a non-blank string), then the
    [riskTolerance] message exactly when that field is not acceptable, then
    the [duration] message exactly when that field is not acceptable. *)
Theorem validateInput_reports_each_field (b : Body) (errors : list ValidationError) :
  validateInput b = Normal errors ->
  exists ec er ed,
    errors = ec ++ er ++ ed /\
    ((ec = [ErrCountriesMin] /\ too_few (countries b)) \/
     (ec = [ErrCountriesMax] /\ too_many (countries b)) \/
     (ec = [ErrCountriesEntries] /\ has_bad_entry (countries b)) \/
     (ec = [] /\ countries_ok (countries b))) /\
    ((er = [ErrRiskTolerance] /\ ~ choice_ok VALID_RISK (riskTolerance b)) \/
     (er = [] /\ choice_ok VALID_RISK (riskTolerance b))) /\
    ((ed = [ErrDuration] /\ ~ choice_ok VALID_DURATION (duration b)) \/
     (ed = [] /\ choice_ok VALID_DURATION (duration b))).
Proof.
  unfold validateInput.
  destruct (lowered (riskTolerance b)) as [rt|] eqn:Hrt; [|discriminate].
  destruct (lowered (duration b)) as [d|] eqn:Hd; [|discriminate].
  pose proof (includes_lowered VALID_RISK _ _ Hrt) as Hr.
  pose proof (includes_lowered VALID_DURATION _ _ Hd) as Hdu.
  intros [= <-].
  exists (countriesErrors (countries b)),
         (if includes VALID_RISK rt then [] else [ErrRiskTolerance]),
         (if includes VALID_DURATION d then [] else [ErrDuration]).
  split; [|split; [apply countriesErrors_cases|split]].
  - destruct (includes VALID_RISK rt), (includes VALID_DURATION d);
      by rewrite ?app_nil_r, <- ?app_assoc.
  - destruct (includes VALID_RISK rt); [right|left]; (split; [done|]).
    + by apply Hr.
    + intros H. apply Hr in H. discriminate.
  - destruct (includes VALID_DURATION d); [right|left]; (split; [done|]).
    + by apply Hdu.
    + intros H. apply Hdu in H. discriminate.
Qed.

Lemma validateInput_reports_each_field_witness :
  validateInput {| countries := JArray [JString "Peru"; JString "   "; JNull];
                   riskTolerance := JNumber (Fin 3);
                   duration := JString "forever" |}
  = Normal [ErrCountriesEntries; ErrRiskTolerance; ErrDuration].
Proof.
  destruct (validateInput_reports_each_field
              {| countries := JArray [JString "Peru"; JString "   "; JNull];
                 riskTolerance := JNumber (Fin 3);
                 duration := JString "forever" |}
              [ErrCountriesEntries; ErrRiskTolerance; ErrDuration])
    as (ec & er & ed & _).
  - reflexivity.
  - reflexivity.
Defined.

Lemma trimStart_nil (s : string) :
  trimStart s = EmptyString <-> Forall (fun c => is_space c = true) (chars s).
Proof.
  induction s as [|c r IH]; cbn.
  - split; [constructor|done].
  - destruct (is_space c) eqn:Hc.
    + rewrite IH. split; [by constructor|]. by inversion 1.
    + split; [done|]. inversion 1; congruence.
Qed.

Lemma trimStart_head (s : string) (c : ascii) (r : string) :
  trimStart s = String c r -> is_space c = false.
Proof.
  induction s as [|c' r' IH]; cbn; [done|].
  destruct (is_space c') eqn:Hc; [done|]. by intros [= <- <-].
Qed.

Lemma trimEnd_nonspace (c : ascii) (r : string) :
  is_space c = false -> trimEnd (String c r) <> EmptyString.
Proof.
  intros Hc. cbn. destruct (trimEnd r); [by rewrite Hc|done].
Qed.

Lemma trim_nil (s : string) :
  trim s = EmptyString <-> Forall (fun c => is_space c = true) (chars s).
Proof.
  rewrite <- trimStart_nil. unfold trim.
  destruct (trimStart s) as [|c r] eqn:Hs; [done|].
  split; [|done]. intros H. exfalso.
  by apply (trimEnd_nonspace c r (trimStart_head s c r Hs)).
Qed.

(** X18.  An entry of [countries] is refused exactly when it is not a
    string or when it is a string made of white space only (the empty
    string included). *)
Theorem blank_entries_refused (c : json) :
  bad_entry c = true <->
  (forall s, c = JString s -> Forall (fun a => is_space a = true) (chars s)).
Proof.
  destruct c; cbn; try (split; [by intros _ s' [=] | done]).
  rewrite bool_decide_eq_true, trim_nil. split.
  - by intros H s' [= <-].
  - intros H. by apply H.
Qed.

(* ===================================================================== *)
(** ** The analyze route: unique names and the fan-out *)
(* ===================================================================== *)

Lemma first_seen_length (l : list string) : length (first_seen l) <= length l.
Proof.
  induction l as [|x r IH]; cbn; [lia|].
  pose proof (length_filter (fun y => y <> x) (first_seen r)). lia.
Qed.

Lemma filter_all (x : string) (l : list string) :
  x ∉ l -> filter (fun y => y <> x) l = l.
Proof.
  induction l as [|y r IH]; [done|]. intros Hx.
  apply not_elem_of_cons in Hx as [Hne Hr].
  rewrite filter_cons_True by congruence. by rewrite IH.
Qed.

(** X19.  [[...new Set(names)]] keeps, of names that are exactly equal,
    the first occurrence only: the result has no two equal entries, holds
    exactly the names of the input, is in the order in which the names first
    occur, and is left as it is by a second pass. *)
Theorem unique_names_first_seen (l : list string) :
  new_Set l = first_seen l /\
  NoDup (new_Set l) /\
  (forall x, x ∈ new_Set l <-> x ∈ l) /\
  length (new_Set l) <= length l /\
  (NoDup l -> new_Set l = l) /\
  new_Set (new_Set l) = new_Set l.
Proof.
  assert (forall l' : list string, NoDup l' -> first_seen l' = l') as Hfix.
  { induction l' as [|x r IH]; [done|]. intros Hnd. apply NoDup_cons in Hnd as [Hx Hr].
    cbn. rewrite (IH Hr). f_equal. by apply filter_all. }
  rewrite !new_Set_first_seen. split; [done|].
  split; [apply first_seen_NoDup|]. split; [apply first_seen_elem|].
  split; [apply first_seen_length|]. split; [apply Hfix|].
  apply Hfix, first_seen_NoDup.
Qed.

Lemma trimAll_valid (items : list json) :
  (forall x, x ∈ items -> exists s, x = JString s /\ trim s <> EmptyString) ->
  exists names,
    trimAll items = Some names /\
    length names = length items /\
    (forall n, n ∈ names -> n <> EmptyString).
Proof.
  induction items as [|x r IH]; intros Hall.
  - exists []. split; [done|]. split; [done|]. intros n Hn. by apply elem_of_nil in Hn.
  - destruct (Hall x) as (s & -> & Hs); [by left|].
    destruct IH as (names & Hn & Hlen & Hne).
    { intros y Hy. apply Hall. by right. }
    exists (trim s :: names). cbn. rewrite Hn. split; [done|].
    split; [by rewrite Hlen|].
    intros n Hin. apply elem_of_cons in Hin as [->|Hin]; [done|by apply Hne].
Qed.

Lemma exec_calls_keys {V E : Type} (st : State V E) (keys : list string) :
  (exec st (map Call keys)).1.*1 = keys.
Proof.
  revert st. induction keys as [|k r IH]; intros st; [done|].
  cbn [map]. rewrite exec_call. cbn. by rewrite IH.
Qed.

(** X20.  A valid request is answered by one cache lookup per distinct
    trimmed name: the handler lower-cases the two options, trims the names,
    keeps the first occurrence of each, and calls [getOrFetch] once for each
    of them, in that order, under the key made of [country:] and the
    lower-cased name. *)
Theorem valid_body_fans_out (b : Body) (st : State loc string) :
  valid_body b ->
  exists r d items names,
    riskTolerance b = JString r /\ duration b = JString d /\
    countries b = JArray items /\ trimAll items = Some names /\
    (forall n, n ∈ names -> n <> EmptyString) /\
    let run := exec st (map (fun n => Call (cacheKey n)) (first_seen names)) in
    post b st = (AwaitingAll (toLowerCase r) (toLowerCase d) (first_seen names) run.1,
                 run.2) /\
    run.1.*1 = map cacheKey (first_seen names).
Proof.
  intros Hv. pose proof (valid_body_accepted b Hv) as Hval.
  destruct Hv as ((items & Hc & Hlen & Hall) & (r & Hr & _) & (d & Hd & _)).
  destruct (trimAll_valid items Hall) as (names & Hn & _ & Hne).
  exists r, d, items, names. repeat (split; [done|]).
  split.
  - unfold post. rewrite Hval, Hr, Hd, Hc, Hn, new_Set_first_seen.
    by destruct (exec _ _).
  - rewrite <- (exec_calls_keys st (map cacheKey (first_seen names))).
    by rewrite map_map.
Qed.

Lemma valid_body_fans_out_witness :
  exists replies st',
    post validBody init = (AwaitingAll "low" "long" ["Peru"; "Chile"; "peru"]%string
                             replies, st') /\
    replies.*1 = ["country:peru"; "country:chile"; "country:peru"]%string.
Proof.
  destruct (valid_body_fans_out validBody init)
    as (r & d & items & names & Hr & Hd & Hc & Hn & _ & Hpost & Hkeys).
  - split; [|split].
    + eexists. split; [reflexivity|]. split; [cbn; lia|].
      intros x Hx. repeat (apply elem_of_cons in Hx as [->|Hx]); try (by eexists).
      by apply elem_of_nil in Hx.
    + eexists. split; [reflexivity|]. unfold VALID_RISK. repeat constructor.
    + eexists. split; [reflexivity|]. unfold VALID_DURATION. repeat constructor.
  - injection Hr as <-. injection Hd as <-. injection Hc as <-.
    injection Hn as <-. eexists _, _. split; [exact Hpost | exact Hkeys].
Defined.

(** X21.  Whatever the body, one pass of the handler invokes the data
    provider at most once for any cache key; names that differ in letter
    case only share a key and so share one invocation.  A request that is
    refused leaves the cache untouched. *)
Theorem post_invokes_once_per_key (b : Body) (st : State loc string) (key : string) :
  wf st ->
  invocations key (post b st).2 <= S (invocations key st) /\
  (forall errors, (post b st).1 = BadRequest errors -> (post b st).2 = st) /\
  ((post b st).1 = Rejected -> (post b st).2 = st).
Proof.
  intros Hw. unfold post.
  destruct (validateInput b) as [[|e errs]|]; cbn; [|by (split; [lia|])..].
  destruct (riskTolerance b); try by (split; [cbn; lia|]).
  destruct (duration b); try by (split; [cbn; lia|]).
  destruct (countries b); try by (split; [cbn; lia|]).
  destruct (trimAll items) as [names|]; [|by (split; [cbn; lia|])].
  pose proof (calls_invoke_once
                (map (fun n => Call (cacheKey n)) (new_Set names)) st key Hw) as H.
  destruct (exec st _) as [replies st']. cbn in *.
  split; [|by split].
  apply H. intros p r Hin. apply list_elem_of_fmap in Hin as (n & [=] & _).
Qed.

Lemma post_invokes_once_per_key_witness :
  invocations "country:peru" (post validBody init).2 <= 1.
Proof.
  exact (proj1 (post_invokes_once_per_key validBody init "country:peru" wf_init)).
Defined.

(* ===================================================================== *)
(** ** Ranking *)
(* ===================================================================== *)

Section Sorting.

Context {A : Type} (composite : A -> num).

Let after (a b : A) : bool := ngt (composite b -# composite a) (Fin 0%Q).

Lemma insert_sorted_perm (x : A) (l : list A) : insert_sorted after x l ≡ₚ x :: l.
Proof.
  induction l as [|y r IH]; cbn; [done|].
  destruct (after x y); [|done]. rewrite IH. apply Permutation_swap.
Qed.

Lemma Array_sort_perm (l : list A) : Array_sort after l ≡ₚ l.
Proof.
  induction l as [|x r IH]; cbn; [done|]. by rewrite insert_sorted_perm, IH.
Qed.

Lemma after_true (x y : A) (a b : Q) :
  composite x = Fin a -> composite y = Fin b ->
  after x y = true -> (a < b)%Q.
Proof.
  unfold after. intros -> ->. cbn. unfold Qlt_bool. intros H.
  apply negb_true_iff, Qle_bool_false in H. lra.
Qed.

Lemma after_false (x y : A) (a b : Q) :
  composite x = Fin a -> composite y = Fin b ->
  after x y = false -> (b <= a)%Q.
Proof.
  unfold after. intros -> ->. cbn. unfold Qlt_bool. intros H.
  apply negb_false_iff, Qle_bool_iff in H. lra.
Qed.

Lemma insert_sorted_sorted (x : A) (l : list A) :
  finite_composites composite (x :: l) ->
  StronglySorted (ranks_before composite) l ->
  StronglySorted (ranks_before composite) (insert_sorted after x l).
Proof.
  intros Hfin Hs. induction Hs as [|y r Hs IH Hall]; cbn.
  - by repeat constructor.
  - destruct (Hfin x) as [a Ha]; [by left|].
    destruct (Hfin y) as [b Hb]; [by right; left|].
    destruct (after x y) eqn:Haft.
    + constructor.
      * apply IH. intros z Hz. apply Hfin.
        apply elem_of_cons in Hz as [->|Hz]; [by left|by right; right].
      * rewrite insert_sorted_perm. constructor; [|done].
        unfold ranks_before. rewrite Ha, Hb. cbn.
        pose proof (after_true x y a b Ha Hb Haft). lra.
    + pose proof (after_false x y a b Ha Hb Haft) as Hle.
      constructor; [by constructor|]. constructor.
      * unfold ranks_before. by rewrite Ha, Hb.
      * rewrite Forall_forall in Hall |- *. intros z Hz.
        destruct (Hfin z) as [c Hc]; [by right; right|].
        specialize (Hall z Hz). unfold ranks_before in *.
        rewrite Ha, Hc. rewrite Hb, Hc in Hall. cbn in *. lra.
Qed.

Lemma Array_sort_sorted (l : list A) :
  finite_composites composite l ->
  StronglySorted (ranks_before composite) (Array_sort after l).
Proof.
  induction l as [|x r IH]; intros Hfin; cbn; [constructor|].
  apply insert_sorted_sorted.
  - intros z Hz. apply Hfin.
    apply elem_of_cons in Hz as [->|Hz]; [by left|right].
    by rewrite <- (Array_sort_perm r).
  - apply IH. intros z Hz. apply Hfin. by right.
Qed.

Lemma ties_not_after (x y : A) (q : Q) :
  nseq (composite x) (Fin q) = true -> nseq (composite y) (Fin q) = true ->
  after x y = false.
Proof.
  unfold after. destruct (composite x) as [|a], (composite y) as [|b]; try done.
  cbn. intros Ha Hb. apply Qeq_bool_eq in Ha, Hb. unfold Qlt_bool.
  apply negb_false_iff, Qle_bool_iff. lra.
Qed.

Lemma insert_sorted_ties (x : A) (l : list A) (q : Q) :
  List.filter (fun z => nseq (composite z) (Fin q)) (insert_sorted after x l) =
  List.filter (fun z => nseq (composite z) (Fin q)) (x :: l).
Proof.
  induction l as [|y r IH]; [done|]. cbn [insert_sorted].
  destruct (after x y) eqn:Haft; [|done].
  cbn [List.filter] in *. rewrite IH.
  destruct (nseq (composite x) (Fin q)) eqn:Hx;
    destruct (nseq (composite y) (Fin q)) eqn:Hy; try done.
  rewrite (ties_not_after x y q Hx Hy) in Haft. discriminate.
Qed.

Lemma Array_sort_ties (l : list A) (q : Q) :
  List.filter (fun z => nseq (composite z) (Fin q)) (Array_sort after l) =
  List.filter (fun z => nseq (composite z) (Fin q)) l.
Proof.
  induction l as [|x r IH]; [done|]. cbn [Array_sort].
  rewrite insert_sorted_ties. cbn [List.filter]. by rewrite IH.
Qed.

Lemma imap_entry (f : nat -> A -> Ranked A) (l : list A) :
  (forall i x, entry (f i x) = x) -> entry <$> imap f l = l.
Proof.
  revert f. induction l as [|x r IH]; intros f Hf; [done|].
  rewrite imap_cons. cbn. rewrite Hf. f_equal. apply IH. intros i y. apply Hf.
Qed.

Lemma rankResults_entries (l : list A) :
  entry <$> rankResults composite l = Array_sort after l.
Proof. unfold rankResults. by apply imap_entry. Qed.

End Sorting.

(** X22.  [rankResults] returns the entries it was given, each once, in
    descending order of composite: every entry's composite is at least that
    of every entry ranked after it (the composites being numbers). *)
Theorem rankResults_sorted_permutation {A : Type} (composite : A -> num) (l : list A) :
  finite_composites composite l ->
  entry <$> rankResults composite l ≡ₚ l /\
  length (rankResults composite l) = length l /\
  StronglySorted (ranks_before composite) (entry <$> rankResults composite l).
Proof.
  intros Hfin. rewrite rankResults_entries. split; [apply Array_sort_perm|].
  split; [|by apply Array_sort_sorted].
  rewrite <- (length_fmap entry), rankResults_entries.
  apply Permutation_length, Array_sort_perm.
Qed.

Lemma rankResults_sorted_permutation_witness :
  entry <$> rankResults (fun z : Z => Fin (inject_Z z)) [70; 90; 50]%Z
    = [90; 70; 50]%Z /\
  StronglySorted (ranks_before (fun z : Z => Fin (inject_Z z)))
    (entry <$> rankResults (fun z : Z => Fin (inject_Z z)) [70; 90; 50]%Z).
Proof.
  destruct (rankResults_sorted_permutation (fun z : Z => Fin (inject_Z z)) [70; 90; 50]%Z)
    as (_ & _ & H).
  - intros x _. by eexists.
  - split; [reflexivity | exact H].
Defined.

(** X23.  The ranking is stable: when all composites are numbers, entries
    with equal composites keep the order in which they were given.  (With a
    [NaN] composite the comparator is inconsistent and the order is left to
    the engine.) *)
Theorem rankResults_stable {A : Type} (composite : A -> num) (l : list A) (q : Q) :
  finite_composites composite l ->
  List.filter (fun x => nseq (composite x) (Fin q)) (entry <$> rankResults composite l) =
  List.filter (fun x => nseq (composite x) (Fin q)) l.
Proof. intros _. rewrite rankResults_entries. apply Array_sort_ties. Qed.

Lemma rankResults_stable_witness :
  List.filter (fun x : string * Z => nseq (Fin (inject_Z x.2)) (Fin 70%Q))
    (entry <$> rankResults (fun x : string * Z => Fin (inject_Z x.2))
                 [("Peru", 70); ("Chile", 90); ("Fiji", 70); ("Mali", 50)]%Z) =
  [("Peru"%string, 70%Z); ("Fiji"%string, 70%Z)].
Proof.
  rewrite (rankResults_stable (fun x : string * Z => Fin (inject_Z x.2))
             [("Peru", 70); ("Chile", 90); ("Fiji", 70); ("Mali", 50)]%Z 70%Q).
  - reflexivity.
  - intros x _. by eexists.
Defined.

Lemma rankResults_rank_seq {A : Type} (composite : A -> num) (l : list A) :
  rank <$> rankResults composite l = seq 1 (length l).
Proof.
  unfold rankResults.
  rewrite <- (Permutation_length (Array_sort_perm composite l)).
  generalize (Array_sort (fun a b => ngt (composite b -# composite a) (Fin 0%Q)) l).
  intros s. apply list_eq. intros i.
  rewrite list_lookup_fmap, list_lookup_imap.
  destruct (s !! i) as [x|] eqn:Hx; cbn.
  - rewrite lookup_seq_lt by (by apply lookup_lt_Some in Hx). f_equal. lia.
  - rewrite lookup_seq_ge; [done|]. by apply lookup_ge_None in Hx.
Qed.

Lemma rankResults_length {A : Type} (composite : A -> num) (l : list A) :
  length (rankResults composite l) = length l.
Proof.
  rewrite <- (length_fmap entry), rankResults_entries.
  apply Permutation_length, Array_sort_perm.
Qed.

(** X24.  Ranks are consecutive from 1 in the order of the result; the
    first three results carry the three fixed labels and the result in
    position [n >= 4] carries the label [#n Option]. *)
Theorem rankResults_ranks_and_labels {A : Type} (composite : A -> num) (l : list A) :
  rank <$> rankResults composite l = seq 1 (length l) /\
  forall i r,
    rankResults composite l !! i = Some r ->
    rank r = i + 1 /\
    rank_label r =
      match i with
      | 0 => "🥇 Best Match"
      | 1 => "🥈 Strong Option"
      | 2 => "🥉 Good Alternative"
      | _ => "#" ++ pretty (i + 1) ++ " Option"
      end%string.
Proof.
  split; [apply rankResults_rank_seq|].
  intros i r Hr. unfold rankResults in Hr. rewrite list_lookup_imap in Hr.
  set (s := Array_sort _ l) in Hr.
  destruct (s !! i) as [x|]; simplify_eq/=. split; [done|].
  by destruct i as [|[|[|i]]].
Qed.

Lemma rankResults_ranks_and_labels_witness :
  (rank_label <$> rankResults (fun z : Z => Fin (inject_Z z)) [70; 90; 50; 60]%Z)
    !! 3 = Some "#4 Option"%string.
Proof.
  destruct (rankResults_ranks_and_labels (fun z : Z => Fin (inject_Z z)) [70; 90; 50; 60]%Z)
    as [_ H].
  destruct (H 3 {| entry := 50%Z; rank := 4; rank_label := "#4 Option" |} eq_refl)
    as [_ Hl].
  rewrite list_lookup_fmap. reflexivity.
Defined.

(* ===================================================================== *)
(** ** Reasoning *)
(* ===================================================================== *)

Lemma Array_sort_length {A : Type} (after : A -> A -> bool) (l : list A) :
  length (Array_sort after l) = length l.
Proof.
  induction l as [|x r IH]; [done|]. cbn.
  assert (forall s, length (insert_sorted after x s) = S (length s)) as H.
  { induction s as [|y s IHs]; [done|]. cbn. destruct (after x y); cbn; by rewrite ?IHs. }
  by rewrite H, IH.
Qed.

Lemma top_weight_exists (weights : Weights) :
  exists topWeight rest,
    Array_sort (fun a b : string * num => ngt (b.2 -# a.2) (Fin 0%Q))
      (weightEntries weights) = topWeight :: rest.
Proof.
  pose proof (Array_sort_length
                (fun a b : string * num => ngt (b.2 -# a.2) (Fin 0%Q))
                (weightEntries weights)) as H.
  destruct (Array_sort _ _) as [|t r]; [discriminate|]. by eexists _, _.
Qed.

(** X25.  Whatever the scores and the dataset, [generateReasoning] yields
    one sentence on travel risk, one on health infrastructure, at most one
    on environmental stability, and a closing sentence on the weights that
    quotes the two profile members of the dataset, in this order: three or
    four sentences, three exactly when the environmental score is neither at
    least 70 nor at most 40. *)
Theorem generateReasoning_shape (country : string)
    (travelRisk healthInfra envStab : ScoreBreakdown)
    (rawData : CountryData) (weights : Weights) :
  exists t hl env weightName percent,
    generateReasoning country travelRisk healthInfra envStab rawData weights =
      [t; hl] ++ env ++
      [WeightContext (_riskTolerance rawData) (_duration rawData) weightName percent] /\
    is_travel_sentence t /\ is_health_sentence hl /\
    (env = [] \/ exists e, env = [e] /\ is_env_sentence e) /\
    (env = [] <->
       nge (score envStab) (Fin 70%Q) = false /\ nle (score envStab) (Fin 40%Q) = false).
Proof.
  destruct (top_weight_exists weights) as (top & rest & Htop).
  unfold generateReasoning. rewrite Htop.
  destruct (nge (score travelRisk) (Fin 75%Q));
    [|destruct (nle (score travelRisk) (Fin 40%Q))];
    (destruct (nge (score healthInfra) (Fin 70%Q));
       [|destruct (nle (score healthInfra) (Fin 40%Q))]);
    (destruct (nge (score envStab) (Fin 70%Q));
       [|destruct (nle (score envStab) (Fin 40%Q))]);
    eexists _, _, _, _, _; (split; [reflexivity|]); cbn;
    (split; [done|]); (split; [done|]);
    (split; [first [by left | right; eexists; by split]|]);
    (split; [intros H; try discriminate H; by split
            | intros [H1 H2]; try discriminate H1; try discriminate H2; done]).
Qed.

Lemma generateReasoning_last (country : string)
    (travelRisk healthInfra envStab : ScoreBreakdown)
    (rawData : CountryData) (weights : Weights) (top : string * num)
    (rest : list (string * num)) :
  Array_sort (fun a b : string * num => ngt (b.2 -# a.2) (Fin 0%Q))
    (weightEntries weights) = top :: rest ->
  exists pre,
    generateReasoning country travelRisk healthInfra envStab rawData weights =
    pre ++ [WeightContext (_riskTolerance rawData) (_duration rawData)
              (weightNames top.1) (toFixed0 (top.2 *# Fin 100%Q))].
Proof.
  intros Htop. unfold generateReasoning. rewrite Htop.
  eexists. rewrite !app_assoc. reflexivity.
Qed.

(** X26.  The closing sentence of a country's reasoning always quotes the
    request being scored, whatever an earlier request left on the cached
    dataset, and names the dimension with the highest weight: Travel Safety
    (48, 43 or 40 percent) for low/short, low/long and moderate/short,
    Health Infrastructure (45, 42 percent) for moderate/long and high/long,
    Environmental Stability (45 percent) for high/short. *)
Theorem reasoning_quotes_request (lg : num -> num) (h : heap) (l : loc)
    (d : CountryData) (rt dur : string) :
  h !! l = Some d ->
  rt ∈ VALID_RISK -> dur ∈ VALID_DURATION ->
  exists pre,
    scoreCountryReasoning lg h l rt dur =
    Some (pre ++ [WeightContext (Some rt) (Some dur) (topWeightOf rt dur).1
                    (Fin (topWeightOf rt dur).2)]).
Proof.
  intros Hl Hrt Hdur. unfold scoreCountryReasoning.
  rewrite (scoreCountry_Some lg h l d rt dur Hl), lookup_insert_eq.
  cbn [dynamic_weights travel_risk_score health_infrastructure_score
       environmental_stability_score].
  assert (exists top rest,
            Array_sort (fun a b : string * num => ngt (b.2 -# a.2) (Fin 0%Q))
              (weightEntries (getDynamicWeights rt dur)) = top :: rest /\
            weightNames top.1 = (topWeightOf rt dur).1 /\
            toFixed0 (top.2 *# Fin 100%Q) = Fin (topWeightOf rt dur).2)
    as (top & rest & Htop & Hname & Hpct).
  { destruct (valid_pairs rt dur Hrt Hdur) as [[-> | [-> | ->]] [-> | ->]];
      eexists _, _; (split; [vm_compute; reflexivity|]); by vm_compute. }
  destruct (generateReasoning_last (country (attachProfile d rt dur))
              (computeTravelRiskScore d) (computeHealthInfrastructureScore lg d)
              (computeEnvironmentalStabilityScore d) (attachProfile d rt dur)
              (getDynamicWeights rt dur) top rest Htop) as [pre Hpre].
  exists pre. rewrite Hpre, Hname, Hpct. reflexivity.
Qed.

Lemma reasoning_quotes_request_witness :
  exists pre,
    scoreCountryReasoning log10_sample
      {[ 0 := attachProfile fullData "high" "short" ]} 0 "low" "long" =
    Some (pre ++ [WeightContext (Some "low"%string) (Some "long"%string)
                    "Travel Safety" (Fin 43%Q)]).
Proof.
  apply (reasoning_quotes_request log10_sample
           {[ 0 := attachProfile fullData "high" "short" ]} 0
           (attachProfile fullData "high" "short") "low" "long").
  - reflexivity.
  - unfold VALID_RISK. repeat constructor.
  - unfold VALID_DURATION. repeat constructor.
Defined.

(* ===================================================================== *)
(** ** The handler after the fetches *)
(* ===================================================================== *)

Lemma awaitAll_cons (st : State loc string) (name : string) (names : list string)
    (kr : string * Reply loc) (rs : list (string * Reply loc)) :
  awaitAll st (name :: names) (kr :: rs) =
  match outcome st kr.2, awaitAll st names rs with
  | Some (inl (result, _)), Some l => Some (Shared result :: l)
  | Some (inr message), Some l => Some (Failed name message :: l)
  | _, _ => None
  end.
Proof. by destruct kr. Qed.

(** X27.  [Promise.all] over the per-country callbacks resolves exactly
    when every promise behind them has settled: a failed fetch never
    rejects it.  The result has one datum per name, in request order: the
    object the cache handed out where the fetch succeeded or the cache
    hit, and a fresh failure record with the requested name and the
    error's message where it failed. *)
Theorem awaitAll_resolves (st : State loc string) (names : list string)
    (replies : list (string * Reply loc)) :
  length replies = length names ->
  (is_Some (awaitAll st names replies) <-> all_settled st replies) /\
  forall allData, awaitAll st names replies = Some allData ->
    length allData = length names /\
    forall i name kr, names !! i = Some name -> replies !! i = Some kr ->
      (forall l hit, outcome st kr.2 = Some (inl (l, hit)) ->
         allData !! i = Some (Shared l)) /\
      (forall message, outcome st kr.2 = Some (inr message) ->
         allData !! i = Some (Failed name message)).
Proof.
  revert replies. induction names as [|name names IH]; intros [|kr rs] Hlen;
    try discriminate Hlen.
  - split; [split; [constructor | by eexists]|].
    intros allData [= <-]. split; [done|]. intros i name kr H. by rewrite lookup_nil in H.
  - injection Hlen as Hlen. destruct (IH rs Hlen) as [Hiff Hall]. clear IH.
    rewrite awaitAll_cons. unfold all_settled in *. split.
    + rewrite Forall_cons, <- Hiff.
      destruct (outcome st kr.2) as [[[l hit]|message]|], (awaitAll st names rs);
        split; intros H; try (by destruct H as [? [=]]);
        try (by destruct H as [[? [=]] _]); try (by destruct H as [_ [? [=]]]);
        try (split; by eexists); by eexists.
    + intros allData Hd.
      destruct (outcome st kr.2) as [[[l hit]|message]|] eqn:Ho; [| |done];
        destruct (awaitAll st names rs) as [rest|]; try discriminate Hd;
        injection Hd as <-; destruct (Hall rest eq_refl) as [Hl Hpos];
        (split; [cbn; by rewrite Hl|]);
        intros [|i] name' kr' Hn Hr; cbn in Hn, Hr.
      * injection Hn as <-. injection Hr as <-. rewrite Ho.
        split; [by intros ? ? [= <- _] | by intros ? [=]].
      * by apply Hpos.
      * injection Hn as <-. injection Hr as <-. rewrite Ho.
        split; [by intros ? ? [=] | by intros ? [= <-]].
      * by apply Hpos.
Qed.

Lemma awaitAll_resolves_witness :
  awaitAll
    {| now := 0%Z; store := ∅; inFlight := ∅;
       settled := {[ 0 := inr "timeout"%string; 1 := inl 7 ]};
       invoked := ["country:chile"; "country:peru"]%string |}
    ["Chile"; "Peru"; "peru"; "Utopia"]%string
    [("country:chile", Started 0); ("country:peru", Started 1);
     ("country:peru", Joined 1); ("country:utopia", Hit 3)]%string
  <> None.
Proof.
  destruct (awaitAll_resolves
              {| now := 0%Z; store := ∅; inFlight := ∅;
                 settled := {[ 0 := inr "timeout"%string; 1 := inl 7 ]};
                 invoked := ["country:chile"; "country:peru"]%string |}
              ["Chile"; "Peru"; "peru"; "Utopia"]%string
              [("country:chile", Started 0); ("country:peru", Started 1);
               ("country:peru", Joined 1); ("country:utopia", Hit 3)]%string
              eq_refl) as [Hiff _].
  intros Hnone. rewrite Hnone in Hiff.
  destruct (proj2 Hiff) as [x Hx]; [|discriminate Hx].
  unfold all_settled. repeat constructor; by eexists.
Defined.

Lemma partitionData_ok (h : heap) (allData : list Datum) :
  (forall l, Shared l ∈ allData -> is_Some (h !! l)) ->
  exists validData errorData,
    partitionData h allData = Some (validData, errorData) /\
    length validData = foundCount h allData /\
    length validData + length errorData = length allData /\
    errorData = failures h allData /\
    Forall (fun l => Shared l ∈ allData /\
                     exists d, h !! l = Some d /\ found d = true) validData /\
    (fun l => default ""%string (country <$> h !! l)) <$> validData =
    foundCountries h allData.
Proof.
  induction allData as [|x rest IH]; intros Hin.
  - exists [], []. by repeat split.
  - destruct IH as (valid & errors & Hp & Hlen & Hsum & Herr & Hall & Hc).
    { intros l Hl. apply Hin. by right. }
    assert (Forall (fun l => Shared l ∈ x :: rest /\
                             exists d, h !! l = Some d /\ found d = true) valid)
      as Hall'.
    { eapply Forall_impl; [exact Hall|]. intros l [H1 H2]. split; [by right | done]. }
    unfold foundCount, failures, foundCountries in *. cbn.
    destruct x as [l|name message]; cbn.
    + destruct (Hin l) as [d Hd]; [by left|]. rewrite Hd. cbn.
      destruct (found d) eqn:Hf; rewrite Hp; cbn.
      * exists (l :: valid), errors.
        repeat split; cbn; rewrite ?Hd; cbn; rewrite ?Hf; cbn; try lia; try done.
        -- constructor; [|done]. split; [by left | by exists d].
        -- by rewrite Hc.
      * exists valid, ((country d, error d) :: errors).
        repeat split; cbn; rewrite ?Hd; cbn; rewrite ?Hf; cbn; try lia; try done.
        by rewrite Herr.
    + rewrite Hp. exists valid, ((name, Some (failureReason message)) :: errors).
      repeat split; cbn; try lia; try done. by rewrite Herr.
Qed.

Lemma scoreEach_ok (lg : num -> num) (rt dur : string) (validData : list loc) :
  forall h : heap,
    Forall (fun l => exists d, h !! l = Some d /\ is_Some (profile d)) validData ->
    exists scoredCountries h',
      scoreEach lg h validData rt dur = Some (inl scoredCountries, h') /\
      length scoredCountries = length validData /\
      e_country <$> scoredCountries =
        (fun l => default ""%string (country <$> h !! l)) <$> validData /\
      forall l d, h !! l = Some d ->
        exists d', h' !! l = Some d' /\ same_data d d' /\ (l ∉ validData -> d' = d).
Proof.
  induction validData as [|c rest IH]; intros h Hall.
  - exists [], h. repeat split; try done. intros l d Hl. exists d. by repeat split.
  - apply Forall_cons in Hall as [(dc & Hc & [p Hp]) Hrest].
    set (h1 := <[c := attachProfile dc rt dur]> h).
    assert (forall l d, h !! l = Some d ->
              exists d1, h1 !! l = Some d1 /\ same_data d d1 /\ (l <> c -> d1 = d))
      as Hstep.
    { intros l d Hl. unfold h1. destruct (decide (l = c)) as [->|Hne].
      - rewrite lookup_insert_eq. eexists. split; [done|].
        assert (dc = d) as -> by congruence. by repeat split.
      - rewrite lookup_insert_ne by done. exists d. by repeat split. }
    destruct (IH h1) as (entries & h' & Hs & Hlen & Hnames & Hheap).
    { eapply Forall_impl; [exact Hrest|]. intros l (d & Hl & Hpr).
      destruct (Hstep l d Hl) as (d1 & Hl1 & Hsame & _). exists d1. split; [done|].
      destruct Hsame as (_ & _ & _ & -> & _). done. }
    cbn [scoreEach]. rewrite (scoreCountry_Some lg h c dc rt dur Hc).
    fold h1. replace (h1 !! c) with (Some (attachProfile dc rt dur))
      by (unfold h1; by rewrite lookup_insert_eq).
    cbn [profile attachProfile]. rewrite Hp, Hs.
    eexists (_ :: entries), h'. split; [reflexivity|].
    split; [cbn; by rewrite Hlen|]. split.
    + cbn. rewrite Hc. cbn. f_equal. rewrite Hnames.
      apply list_eq. intros i. rewrite !list_lookup_fmap.
      destruct (rest !! i) as [l|]; [|done]. cbn. f_equal.
      destruct (h !! l) as [d|] eqn:Hl.
      * destruct (Hstep l d Hl) as (d1 & -> & (_ & Hcountry & _) & _).
        cbn. by rewrite Hcountry.
      * unfold h1. destruct (decide (l = c)) as [->|Hne]; [congruence|].
        by rewrite lookup_insert_ne, Hl.
    + intros l d Hl. destruct (Hstep l d Hl) as (d1 & Hl1 & Hsame1 & Hfr1).
      destruct (Hheap l d1 Hl1) as (d' & Hl' & Hsame' & Hfr').
      exists d'. split; [done|]. split.
      * unfold same_data in *.
        destruct Hsame1 as (A1 & A2 & A3 & A4 & A5 & A6 & A7 & A8).
        destruct Hsame' as (B1 & B2 & B3 & B4 & B5 & B6 & B7 & B8).
        repeat split; congruence.
      * intros Hnot. rewrite Hfr'; [apply Hfr1|]; intros H; apply Hnot;
          [subst; by left | by right].
Qed.

(** X28.  Once every fetch has settled, and every dataset that was found
    carries its profile, the handler always answers.  It answers 404, with
    one reason per requested country, exactly when no dataset was found;
    otherwise 200, where the analysed and failed counts add up to the
    number of countries requested, the ranking holds each found country
    once per request name with ranks 1, 2, ..., the failures are listed in
    request order, and the weight profile is the one of the request.
    Datasets that were not found are left as they were, and the others
    keep every member that carries data. *)
Theorem finish_answers (lg : num -> num) (h : heap) (rt dur : string)
    (allData : list Datum) :
  datasets_present h allData ->
  exists r h',
    finish lg h rt dur allData = Some (Responded r, h') /\
    ok_report h rt dur allData r /\
    ((exists errors, r = NotFound404 errors) <-> foundCount h allData = 0) /\
    forall l d, h !! l = Some d ->
      exists d', h' !! l = Some d' /\ same_data d d' /\ (found d = false -> d' = d).
Proof.
  intros Hpres.
  destruct (partitionData_ok h allData)
    as (valid & errors & Hp & Hlen & Hsum & Herr & Hvalid & Hc).
  { intros l Hl. destruct (Hpres l Hl) as (d & Hd & _). by exists d. }
  unfold finish. rewrite Hp. destruct valid as [|c rest].
  - exists (NotFound404 errors), h. split; [done|]. cbn in Hlen, Hsum.
    split; [by repeat split|]. split; [by split; [|eexists]|].
    intros l d Hl. exists d. by repeat split.
  - destruct (scoreEach_ok lg rt dur (c :: rest) h)
      as (entries & h' & Hs & Hlen' & Hnames & Hheap).
    { eapply Forall_impl; [exact Hvalid|]. intros l (Hin & d & Hd & Hf).
      destruct (Hpres l Hin) as (d0 & Hd0 & Hpr). exists d. split; [done|].
      assert (d0 = d) as -> by congruence. by apply Hpr. }
    cbv beta iota. rewrite Hs.
    eexists _, h'. split; [reflexivity|]. cbn [length] in *. split; [|split].
    + cbn [ok_report]. repeat split; try done; try lia.
      * rewrite rankResults_rank_seq. by rewrite Hlen'.
      * rewrite (list_fmap_compose entry e_country).
        rewrite rankResults_entries, <- Hc, <- Hnames.
        apply fmap_Permutation, Array_sort_perm.
    + split; [by intros [? [=]] | intros H0; lia].
    + intros l d Hl. destruct (Hheap l d Hl) as (d' & Hl' & Hsame & Hfr).
      exists d'. split; [done|]. split; [done|].
      intros Hf. apply Hfr. intros Hin.
      rewrite Forall_forall in Hvalid. destruct (Hvalid l Hin) as (_ & d2 & Hd2 & Hf2).
      congruence.
Qed.

Lemma finish_answers_witness :
  exists r h',
    finish log10_sample {[ 0 := fullData; 1 := notFoundData ]} "low" "long"
      [Shared 0; Failed "Chile" "timeout"; Shared 1; Shared 0] =
    Some (Responded r, h').
Proof.
  destruct (finish_answers log10_sample {[ 0 := fullData; 1 := notFoundData ]}
              "low" "long" [Shared 0; Failed "Chile" "timeout"; Shared 1; Shared 0])
    as (r & h' & Hf & _).
  - intros l Hl.
    repeat (apply elem_of_cons in Hl as [Hl|Hl]); try discriminate Hl;
      try (by apply elem_of_nil in Hl); injection Hl as ->.
    + exists fullData. split; [reflexivity | by eexists].
    + exists notFoundData. split; [reflexivity | by intros [=]].
    + exists fullData. split; [reflexivity | by eexists].
  - by exists r, h'.
Defined.

(* ===================================================================== *)
(** ** Doubles and exact arithmetic at rounding ties *)
(* ===================================================================== *)

(** The exact model and the doubles of the code part only where a value to
    be rounded lies exactly half-way in exact arithmetic.  With scores 90,
    28 and 67 and the profile moderate/long the blend is 57.5 exactly; the
    sum of the three products in doubles falls just below it, so the code
    returns 57 where exact arithmetic rounds up to 58.  Both are whole
    numbers [1/2] away from the blend. *)
Example binary64_composite_tie :
  Binary64.compositeOf 90 28 67 (Binary64.getDynamicWeights "moderate" "long")
    = 57%float /\
  compositeRounded (Fin 90) (Fin 28) (Fin 67) "moderate" "long" = Fin 58 /\
  half_way (blendRounded (Fin 90) (Fin 28) (Fin 67) "moderate" "long").
Proof.
  split; [vm_compute; reflexivity|]. split; [reflexivity|].
  let v := eval vm_compute in (blendRounded (Fin 90) (Fin 28) (Fin 67) "moderate" "long") in
  change (half_way v).
  by exists 57%Z.
Qed.

(** The same at [normalize]: an air quality index of 127.5 on the scale 0
    to 300 and an advisory of 4.7 on the scale 1 to 5 are exact halves. *)
Example binary64_normalize_ties :
  Binary64.normalize (Num (Fin 127.5)) 0 300 false 50 = 57%float /\
  normalize (Num (Fin 127.5)) (Fin 0) (Fin 300) false (Fin 50) = Fin 58 /\
  Binary64.normalize (Num (Fin 4.7)) 1 5 false 50 = 7%float /\
  normalize (Num (Fin 4.7)) (Fin 1) (Fin 5) false (Fin 50) = Fin 8.
Proof. repeat split; vm_compute; reflexivity. Qed.

(** The decimal readings 30.1 and 12.9 are not doubles; the doubles nearest
    to them lie at different distances from 21.5 and score 78 and 79. *)
Example binary64_decimal_readings :
  Binary64.tempComfortScore (Num (Fin 30.1)) = 78%float /\
  Binary64.tempComfortScore (Num (Fin 12.9)) = 79%float /\
  Binary64.tempComfortScore (Num (Fin 30)) = 79%float /\
  Binary64.tempComfortScore (Num (Fin 13)) = 79%float.
Proof. repeat split; vm_compute; reflexivity. Qed.

(** Names that differ in the case of a Latin-1 letter share a cache key:
    the second joins the fetch the first has started. *)
Example latin1_names_share_a_key :
  (post latin1Body (@init loc string)).1 =
  AwaitingAll "low" "long"
    [String (ascii_of_nat 214) "sterreich"; String (ascii_of_nat 246) "sterreich";
     "Peru"]%string
    [(("country:" ++ String (ascii_of_nat 246) "sterreich")%string, Started 0);
     (("country:" ++ String (ascii_of_nat 246) "sterreich")%string, Joined 0);
     ("country:peru"%string, Started 1)].
Proof. vm_compute. reflexivity. Qed.
